(** * SQLite introspector of kysely-codegen: CHECK-constraint enums

    Shallow embedding of
    [src/introspector/dialects/sqlite/sqlite-introspector.ts]
    (class [CheckConstraintParser] and class [SqliteIntrospector]) and the
    properties proved about it.

    Strings.  A JavaScript string is a sequence of UTF-16 code units.  The
    development covers the strings whose code units lie in U+0000..U+00FF
    (ASCII and Latin-1): a code unit is an [ascii] (eight bits), a string is
    a [list ascii].  On that range [toLowerCase] works code unit by code
    unit, and the classes [\s], [\w] and [.] of the regular expressions are
    the ones written out below. *)

From Stdlib Require Import List Ascii String NArith ZArith Bool Lia Permutation Sorted.
From stdpp Require Import gmap strings list fin_maps.
Import ListNotations.

Local Open Scope char_scope.
Local Open Scope nat_scope.

(** ** Code units and strings *)

Abbreviation str := (list ascii).

(** A string literal of the source, as a sequence of code units. *)
Definition L (s : string) : str := list_ascii_of_string s.

(** The double quote, code unit 34. *)
Abbreviation dquote := ("034"%char).

Definition code (c : ascii) : N := N_of_ascii c.

Definition inRange (lo hi : N) (c : ascii) : bool :=
  ((lo <=? code c) && (code c <=? hi))%N.

Definition isDigit (c : ascii) : bool := inRange 48 57 c.
Definition isUpper (c : ascii) : bool := inRange 65 90 c.
Definition isLower (c : ascii) : bool := inRange 97 122 c.
Definition isUnderscore (c : ascii) : bool := Ascii.eqb c "_".

(** [\s]: TAB, LF, VT, FF, CR, SPACE and NO-BREAK SPACE are the white space
    and line terminator code units below U+0100. *)
Definition isSpace (c : ascii) : bool :=
  inRange 9 13 c || (code c =? 32)%N || (code c =? 160)%N.

(** [.] without the [s] flag matches everything but a line terminator
    (LF and CR below U+0100). *)
Definition isLineTerminator (c : ascii) : bool :=
  (code c =? 10)%N || (code c =? 13)%N.
Definition isDot (c : ascii) : bool := negb (isLineTerminator c).

(** [\w] is [[A-Za-z0-9_]]; [[A-Z_a-z]] starts an identifier. *)
Definition isWord (c : ascii) : bool :=
  isUpper c || isLower c || isDigit c || isUnderscore c.
Definition isIdStart (c : ascii) : bool :=
  isUpper c || isUnderscore c || isLower c.

(** [String.prototype.toLowerCase] on one code unit below U+0100: A..Z and
    the Latin-1 capitals U+00C0..U+00DE (without the multiplication sign
    U+00D7) move up by 32. *)
Definition toLowerChar (c : ascii) : ascii :=
  if isUpper c || (inRange 192 222 c && negb (code c =? 215)%N)
  then ascii_of_N (code c + 32)
  else c.

Definition toLowerCase (s : str) : str := map toLowerChar s.

(** [s.replaceAll(/\s+/g, ' ')]: every maximal run of white space becomes
    one space.  [inRun] tells that the previous code unit was white space. *)
Fixpoint replaceWs (inRun : bool) (s : str) : str :=
  match s with
  | [] => []
  | c :: s' =>
      if isSpace c
      then (if inRun then replaceWs true s' else " " :: replaceWs true s')
      else c :: replaceWs false s'
  end.

Definition replaceAllWs (s : str) : str := replaceWs false s.

(** [String.prototype.trim]. *)
Fixpoint trimStart (s : str) : str :=
  match s with
  | c :: s' => if isSpace c then trimStart s' else s
  | [] => []
  end.

Fixpoint trimEnd (s : str) : str :=
  match s with
  | [] => []
  | c :: s' =>
      match trimEnd s' with
      | [] => if isSpace c then [] else [c]
      | t => c :: t
      end
  end.

Definition trim (s : str) : str := trimEnd (trimStart s).

(** [!s] on a string: the empty string is the only falsy one. *)
Definition isEmpty (s : str) : bool :=
  match s with
  | [] => true
  | _ :: _ => false
  end.

(** [s.indexOf(pat, from)]; [None] stands for -1. *)
Fixpoint startsWith (pat s : str) : bool :=
  match pat, s with
  | [], _ => true
  | p :: pat', c :: s' => Ascii.eqb p c && startsWith pat' s'
  | _ :: _, [] => false
  end.

Fixpoint indexOfAt (pat s : str) (i : nat) : option nat :=
  if startsWith pat s then Some i
  else match s with
       | [] => None
       | _ :: s' => indexOfAt pat s' (S i)
       end.

Definition indexOf (pat s : str) (from : nat) : option nat :=
  indexOfAt pat (skipn from s) from.

(** Lexicographic order on code units, the order of [Array.prototype.sort]
    without a comparator on strings. *)
Fixpoint strLe (a b : str) : bool :=
  match a, b with
  | [], _ => true
  | _ :: _, [] => false
  | x :: a', y :: b' =>
      if (code x <? code y)%N then true
      else if (code y <? code x)%N then false
      else strLe a' b'
  end.

Fixpoint insertSorted (x : str) (l : list str) : list str :=
  match l with
  | [] => [x]
  | y :: l' => if strLe x y then x :: l else y :: insertSorted x l'
  end.

(** [[...values].sort()]: a sorted copy (insertion from the right keeps
    equal elements in their order). *)
Fixpoint sort (l : list str) : list str :=
  match l with
  | [] => []
  | x :: l' => insertSorted x (sort l')
  end.

(** ** Regular-expression combinators

    A backtracking matcher in continuation-passing style: each combinator
    consumes a prefix of the remaining input and hands the rest to its
    continuation [k]; when [k] fails the combinator tries its next
    alternative, in the order of the ECMAScript semantics. *)

Section Regex.
Context {R : Type}.

(** One code unit of class [p]. *)
Definition reChar (p : ascii -> bool) (k : ascii -> str -> option R)
    (s : str) : option R :=
  match s with
  | c :: s' => if p c then k c s' else None
  | [] => None
  end.

(** A literal text. *)
Fixpoint reLit (lit : str) (k : str -> option R) (s : str) : option R :=
  match lit with
  | [] => k s
  | x :: lit' => reChar (Ascii.eqb x) (fun _ => reLit lit' k) s
  end.

(** [p*], greedy: one more code unit first, the continuation here after. *)
Fixpoint reStar (p : ascii -> bool) (k : str -> option R) (s : str)
    : option R :=
  match s with
  | c :: s' =>
      if p c
      then match reStar p k s' with
           | Some r => Some r
           | None => k s
           end
      else k s
  | [] => k s
  end.

(** [p+], greedy. *)
Definition rePlus (p : ascii -> bool) (k : str -> option R) (s : str)
    : option R :=
  reChar p (fun _ => reStar p k) s.

(** [(p* )], greedy, capturing: [acc] is the text captured so far. *)
Fixpoint reStarCap (p : ascii -> bool) (k : str -> str -> option R)
    (acc s : str) : option R :=
  match s with
  | c :: s' =>
      if p c
      then match reStarCap p k (acc ++ [c]) s' with
           | Some r => Some r
           | None => k acc s
           end
      else k acc s
  | [] => k acc s
  end.

(** [(p+?)], lazy, capturing: the continuation first, one more code unit
    after. *)
Fixpoint rePlusLazyCap (p : ascii -> bool) (k : str -> str -> option R)
    (acc s : str) : option R :=
  match s with
  | c :: s' =>
      if p c
      then match k (acc ++ [c]) s' with
           | Some r => Some r
           | None => rePlusLazyCap p k (acc ++ [c]) s'
           end
      else None
  | [] => None
  end.

(** [$] without the [m] flag. *)
Definition reEnd (r : R) (s : str) : option R :=
  match s with
  | [] => Some r
  | _ :: _ => None
  end.
End Regex.

(** ** class CheckConstraintParser *)

Record EnumConstraint := mkEnumConstraint {
  column : str;
  values : list str
}.

Module CheckConstraintParser.

(** The loop state of [parseValueList]. *)
Record TokState := mkTokState {
  tvalues : list str;
  currentValue : str;
  inQuotes : bool;
  quoteChar : option ascii   (* [None] is the empty string [''] *)
}.

Definition isQuoteChar (st : TokState) (c : ascii) : bool :=
  match quoteChar st with
  | Some q => Ascii.eqb c q
  | None => false
  end.

(** [if (trimmed) values.push(trimmed)]. *)
Definition pushTrimmed (vs : list str) (cur : str) : list str :=
  match trim cur with
  | [] => vs
  | t => vs ++ [t]
  end.

(** The [for] loop of [parseValueList] over the code units from index [i]
    on; the escaped quote consumes two code units ([i++]). *)
Fixpoint tokLoop (st : TokState) (s : str) : TokState :=
  match s with
  | [] => st
  | c :: s' =>
      if negb (inQuotes st) && (Ascii.eqb c dquote || Ascii.eqb c "'")
      then tokLoop (mkTokState (tvalues st) (currentValue st) true (Some c)) s'
      else if inQuotes st && isQuoteChar st c
      then match s' with
           | c' :: s'' =>
               if isQuoteChar st c'
               then tokLoop (mkTokState (tvalues st) (currentValue st ++ [c])
                               (inQuotes st) (quoteChar st)) s''
               else tokLoop (mkTokState (tvalues st) (currentValue st)
                               false None) s'
           | [] => tokLoop (mkTokState (tvalues st) (currentValue st)
                               false None) s'
           end
      else if negb (inQuotes st) && Ascii.eqb c ","
      then tokLoop (mkTokState (pushTrimmed (tvalues st) (currentValue st))
                      [] (inQuotes st) (quoteChar st)) s'
      else tokLoop (mkTokState (tvalues st) (currentValue st ++ [c])
                      (inQuotes st) (quoteChar st)) s'
  end.

Definition tokInit : TokState := mkTokState [] [] false None.

Definition parseValueList (valuesString : str) : list str :=
  let st := tokLoop tokInit valuesString in
  pushTrimmed (tvalues st) (currentValue st).

(** [/^\s*([A-Z_a-z]\w* )\s+in\s*\(\s*(.+?)\s*\)\s*$/], written from
    its end to its start; the result is the pair of the two groups of the
    first match in backtracking order, [None] for no match. *)

(** [\s*\)\s*$] *)
Definition reClose (groups : str * str) : str -> option (str * str) :=
  reStar isSpace (reLit (L ")") (reStar isSpace (reEnd groups))).

(** [\s*(.+?)\s*\)\s*$] *)
Definition reBody (g1 : str) : str -> option (str * str) :=
  reStar isSpace (rePlusLazyCap isDot (fun g2 => reClose (g1, g2)) []).

(** [\s+in\s*\(\s*(.+?)\s*\)\s*$] *)
Definition reKeyword (g1 : str) : str -> option (str * str) :=
  rePlus isSpace (reLit (L "in") (reStar isSpace (reLit (L "(") (reBody g1)))).

(** The whole expression; [^] without the [m] flag anchors the match at
    index 0. *)
Definition inRegex (s : str) : option (str * str) :=
  reStar isSpace
    (reChar isIdStart (fun c0 => reStarCap isWord reKeyword [c0])) s.

Definition parseInConstraint (constraintContent : str)
    : option EnumConstraint :=
  match inRegex constraintContent with
  | None => None
  | Some (columnName, valuesString) =>
      if isEmpty columnName || isEmpty valuesString then None
      else
        let values := parseValueList valuesString in
        if 0 <? length values
        then Some (mkEnumConstraint columnName values)
        else None
  end.

(** The [for] loop of [extractParenthesesContent] from index [i] on. *)
Fixpoint extractLoop (depth : Z) (content : str) (s : str) : option str :=
  match s with
  | [] => None
  | c :: s' =>
      if Ascii.eqb c "("
      then let depth := (depth + 1)%Z in
           extractLoop depth
             (if (depth >? 1)%Z then content ++ [c] else content) s'
      else if Ascii.eqb c ")"
      then let depth := (depth - 1)%Z in
           if (depth =? 0)%Z then Some content
           else extractLoop depth (content ++ [c]) s'
      else if (depth >? 0)%Z
      then extractLoop depth (content ++ [c]) s'
      else extractLoop depth content s'
  end.

Definition extractParenthesesContent (sql : str) (startIndex : nat)
    : option str :=
  extractLoop 0 [] (skipn startIndex sql).

(** [if (enumConstraint) constraints.push(enumConstraint)]. *)
Definition pushConstraint (constraints : list EnumConstraint)
    (c : option EnumConstraint) : list EnumConstraint :=
  match c with
  | Some e => constraints ++ [e]
  | None => constraints
  end.

(** The [while (true)] loop of [parseEnumConstraints]; one unit of [fuel]
    per iteration, [None] when the fuel is used up. *)
Fixpoint scanLoop (fuel : nat) (normalizedSql : str) (searchIndex : nat)
    (constraints : list EnumConstraint) : option (list EnumConstraint) :=
  match fuel with
  | O => None
  | S fuel' =>
      match indexOf (L "check") normalizedSql searchIndex with
      | None => Some constraints
      | Some checkIndex =>
          match indexOf (L "(") normalizedSql checkIndex with
          | None => Some constraints
          | Some openParenIndex =>
              match extractParenthesesContent normalizedSql openParenIndex with
              | None | Some [] =>
                  scanLoop fuel' normalizedSql (openParenIndex + 1) constraints
              | Some constraintContent =>
                  scanLoop fuel' normalizedSql
                    (openParenIndex + length constraintContent + 2)
                    (pushConstraint constraints
                       (parseInConstraint constraintContent))
              end
          end
      end
  end.

Definition normalize (sql : str) : str := toLowerCase (replaceAllWs sql).

Definition parseEnumConstraints (sql : str) : option (list EnumConstraint) :=
  let normalizedSql := normalize sql in
  scanLoop (S (length normalizedSql)) normalizedSql 0 [].

End CheckConstraintParser.

Import CheckConstraintParser.

(** ** EnumCollection *)

Module EnumCollection.

(** Modelled from the spec: the class [EnumCollection] of
    [src/introspector/enum-collection.ts] is not among the sources.  The
    spec describes the registry as a mapping from the key
    [table + "." + column] to a list of values. *)
Abbreviation t := (gmap str (list str)).

(** Modelled from the spec: a registry is built fresh, without entries. *)
Definition empty : t := ∅.

(** Modelled from the spec: storing under a key overwrites the entry of
    that exact key. *)
Definition set (enums : t) (key : str) (values : list str) : t :=
  <[key := values]> enums.

(** Modelled from the spec: a lookup gives the stored list, or null
    ([None]) when the key has no entry. *)
Definition get (enums : t) (key : str) : option (list str) :=
  enums !! key.

End EnumCollection.

(** ** Objects of the metadata layer

    The table and column descriptors are JavaScript objects that the
    introspector does not own.  An object is a finite map from property
    names to values and lives at a location of a heap; a value is a
    primitive or a reference to a heap cell.  Allocation appends a cell, a
    location is an index into the heap. *)

Abbreviation loc := nat.

Inductive value :=
  | VNull
  | VStr (s : str)
  | VStrings (l : list str)   (* an array of strings: the enum values *)
  | VRef (l : loc)            (* an object or an array of objects *)
  | VOther (n : Z).           (* any other primitive, opaque here *)

Inductive cell :=
  | CObj (fields : gmap string value)
  | CArr (elems : list value).

Abbreviation heap := (list cell).

(** Computations on the heap that may get stuck ([None]) on an ill-typed
    input, such as a table descriptor without [columns]. *)
Definition M (A : Type) : Type := heap -> option (A * heap).

Definition ret {A} (a : A) : M A := fun h => Some (a, h).
Definition fail {A} : M A := fun _ => None.
Definition bind {A B} (m : M A) (k : A -> M B) : M B :=
  fun h => match m h with
           | Some (a, h') => k a h'
           | None => None
           end.

Notation "x <~ m ;; k" := (bind m (fun x => k))
  (at level 100, m at next level, right associativity).

Definition alloc (c : cell) : M value :=
  fun h => Some (VRef (length h), h ++ [c]).

Definition readObj (v : value) : M (gmap string value) :=
  fun h => match v with
           | VRef l => match h !! l with
                       | Some (CObj o) => Some (o, h)
                       | _ => None
                       end
           | _ => None
           end.

Definition readArr (v : value) : M (list value) :=
  fun h => match v with
           | VRef l => match h !! l with
                       | Some (CArr a) => Some (a, h)
                       | _ => None
                       end
           | _ => None
           end.

(** [o.f] where the declared type of [f] is [string]. *)
Definition fieldStr (o : gmap string value) (f : string) : M str :=
  match o !! f with
  | Some (VStr s) => ret s
  | _ => fail
  end.

Definition field (o : gmap string value) (f : string) : M value :=
  match o !! f with
  | Some v => ret v
  | None => fail
  end.

(** [a.map(f)]: the callbacks run from left to right, the results go to a
    new array. *)
Fixpoint mapM {A B} (f : A -> M B) (l : list A) : M (list B) :=
  match l with
  | [] => ret []
  | x :: l' => y <~ f x ;; ys <~ mapM f l' ;; ret (y :: ys)
  end.

Definition arrayMap (f : value -> M value) (a : value) : M value :=
  elems <~ readArr a ;;
  elems' <~ mapM f elems ;;
  alloc (CArr elems').

(** [null] or the array an [EnumCollection] holds. *)
Definition ofEnumValues (e : option (list str)) : value :=
  match e with
  | Some l => VStrings l
  | None => VNull
  end.

(** ** class SqliteIntrospector *)

(** A row of the query on [sqlite_master]: [name] and [sql] (null is
    [None]). *)
Record Row := mkRow {
  row_name : str;
  row_sql : option str
}.

(** Modelled from the spec: the class [DatabaseMetadata] of
    [src/introspector/metadata/database-metadata.ts] is not among the
    sources; the spec has it as the container of the table descriptors it
    is given. *)
Record DatabaseMetadata := mkDatabaseMetadata {
  tables : value
}.

Module SqliteIntrospector.

(** The callback of [table.columns.map]. *)
Definition enrichColumn (enums : EnumCollection.t) (table column : value)
    : M value :=
  t <~ readObj table ;;
  c <~ readObj column ;;
  tname <~ fieldStr t "name" ;;
  cname <~ fieldStr c "name" ;;
  let enumKey := tname ++ L "." ++ cname in
  let enumValues := EnumCollection.get enums enumKey in
  alloc (CObj (<["enumValues"%string := ofEnumValues enumValues]> c)).

(** The callback of [rawTables.map]. *)
Definition enrichTable (enums : EnumCollection.t) (table : value)
    : M value :=
  t <~ readObj table ;;
  columns <~ field t "columns" ;;
  columns' <~ arrayMap (enrichColumn enums table) columns ;;
  alloc (CObj (<["columns"%string := columns']> t)).

Definition createDatabaseMetadata (enums : EnumCollection.t)
    (rawTables : value) : M DatabaseMetadata :=
  tables <~ arrayMap (enrichTable enums) rawTables ;;
  ret (mkDatabaseMetadata tables).

(** The body of [for (const constraint of constraints)]. *)
Definition storeConstraint (name : str) (enums : EnumCollection.t)
    (constraint : EnumConstraint) : EnumCollection.t :=
  let key := name ++ L "." ++ column constraint in
  let sortedValues := sort (values constraint) in
  EnumCollection.set enums key sortedValues.

(** The body of [for (const row of rows)]; [None] only when the scan of
    the row runs out of fuel. *)
Definition introspectRow (enums : EnumCollection.t) (row : Row)
    : option EnumCollection.t :=
  match row_sql row with
  | None | Some [] => Some enums
  | Some sql =>
      match parseEnumConstraints sql with
      | Some constraints =>
          Some (fold_left (storeConstraint (row_name row)) constraints enums)
      | None => None
      end
  end.

Fixpoint introspectRows (enums : EnumCollection.t) (rows : list Row)
    : option EnumCollection.t :=
  match rows with
  | [] => Some enums
  | row :: rows' =>
      match introspectRow enums row with
      | Some enums' => introspectRows enums' rows'
      | None => None
      end
  end.

(** [rows] is the answer of the query on [sqlite_master]. *)
Definition introspectCheckConstraintEnums (rows : list Row)
    : option EnumCollection.t :=
  introspectRows EnumCollection.empty rows.

(** [rawTables] is the answer of [getTables], [rows] the one of the query
    on [sqlite_master]. *)
Definition introspect (rawTables : value) (rows : list Row)
    : M DatabaseMetadata :=
  match introspectCheckConstraintEnums rows with
  | Some enums => createDatabaseMetadata enums rawTables
  | None => fail
  end.

End SqliteIntrospector.

Import SqliteIntrospector.

(** * Vocabulary of the properties *)

(** The two kinds of states of the tokenizer: inside quotes opened by [q],
    and outside quotes. *)
Definition quoted (vs : list str) (cur : str) (q : ascii) : TokState :=
  mkTokState vs cur true (Some q).

Definition unquoted (vs : list str) (cur : str) : TokState :=
  mkTokState vs cur false None.

(** A value as the tokenizer stores it: non-empty, no white space at its
    ends. *)
Definition isTrimmedValue (v : str) : Prop := v <> [] /\ trim v = v.

(** A code unit that is neither a quote nor a comma. *)
Definition isPlain (c : ascii) : Prop := c <> "'" /\ c <> dquote /\ c <> ",".

(** The quote character a state may hold is never a comma. *)
Definition quoteOk (st : TokState) : Prop := quoteChar st <> Some ",".

(** Every code unit of [s] is of class [p]. *)
Abbreviation all p s := (Forall (fun c : ascii => p c = true) s).

(** Does [s] start with a code unit of class [p]? *)
Definition headIn (p : ascii -> bool) (s : str) : bool :=
  match s with
  | c :: _ => p c
  | [] => false
  end.

(** [s] is white space. *)
Abbreviation blank s := (all isSpace s).

(** A letter of an identifier. *)
Definition isLetter (c : ascii) : bool := isUpper c || isLower c.

(** An identifier in the words of the specification: a letter or an
    underscore, then letters, digits and underscores. *)
Definition isIdentifier (ident : str) : Prop :=
  exists c w, ident = c :: w /\
    isLetter c || isUnderscore c = true /\
    all (fun x => isLetter x || isDigit x || isUnderscore x) w.

(** The shape of a membership clause in the words of the specification:
    after trimming, an identifier, white space, the keyword [IN] in any
    case, optional white space and a parenthesised body that runs up to the
    final closing parenthesis of the span. *)
Definition MembershipShape (span : str) : Prop :=
  exists ws0 ident ws1 kw ws2 body ws3,
    span = ws0 ++ ident ++ ws1 ++ kw ++ ws2 ++ "(" :: body ++ ")" :: ws3 /\
    blank ws0 /\ isIdentifier ident /\ blank ws1 /\ ws1 <> [] /\
    toLowerCase kw = L "in" /\ blank ws2 /\ body <> [] /\ blank ws3.

(** A literal of a value list as it is written: between quotes, with every
    occurrence of the quote character doubled, or bare (a number, a
    keyword). *)
Inductive Literal :=
  | Quoted (q : ascii) (v : str)
  | Bare (v : str).

(** The value a literal stands for. *)
Definition litValue (l : Literal) : str :=
  match l with
  | Quoted _ v => v
  | Bare v => v
  end.

(** [v] with every [q] doubled. *)
Definition escapeQuote (q : ascii) (v : str) : str :=
  flat_map (fun c => if Ascii.eqb c q then [c; c] else [c]) v.

(** The text of a literal. *)
Definition render (l : Literal) : str :=
  match l with
  | Quoted q v => q :: escapeQuote q v ++ [q]
  | Bare v => v
  end.

(** A further literal of the list: white space, the comma, white space and
    the literal. *)
Record Item := mkItem {
  gapBefore : str;
  gapAfter : str;
  literal : Literal
}.

(** The text of the list after its first literal. *)
Fixpoint renderRest (items : list Item) : str :=
  match items with
  | [] => []
  | i :: items' =>
      gapBefore i ++ "," :: gapAfter i ++ render (literal i) ++ renderRest items'
  end.

(** White space inside the list is white space other than a line
    terminator. *)
Definition isGap (b : str) : Prop := blank b /\ all isDot b.

(** A literal has no line terminator; a quoted one is between single or
    double quotes; a bare one is non-empty, has no white space at its ends,
    no quote and no comma. *)
Definition wfLiteral (l : Literal) : Prop :=
  all isDot (litValue l) /\
  match l with
  | Quoted q _ => q = "'" \/ q = dquote
  | Bare v => v <> [] /\ trim v = v /\ Forall isPlain v
  end.

(** What the tokenizer stores for an accumulated text: the text without
    the white space at its ends, or nothing when that is empty. *)
Definition keep (v : str) : list str :=
  match trim v with
  | [] => []
  | t => [t]
  end.

Definition storedValues (vs : list str) : list str := flat_map keep vs.

(** The values of a list of literals, in the order of the list. *)
Definition listValues (first : Literal) (items : list Item) : list str :=
  litValue first :: map (fun i => litValue (literal i)) items.

Definition wfItem (i : Item) : Prop :=
  isGap (gapBefore i) /\ isGap (gapAfter i) /\ wfLiteral (literal i).

(** [s] ends with a code unit that is not white space. *)
Definition lastNonSpace (s : str) : Prop :=
  exists t z, s = t ++ [z] /\ isSpace z = false.

(** The text between the parentheses of a well-formed clause. *)
Definition listBody (first : Literal) (items : list Item) : str :=
  render first ++ renderRest items.

(** [s] is in lower case: [toLowerCase] leaves it as it is. *)
Definition isLowered (s : str) : Prop := toLowerCase s = s.

(** The order of the sort, as a relation. *)
Definition strLeP (a b : str) : Prop := strLe a b = true.

(** The column name and the values of [c] are in lower case. *)
Definition lowerConstraint (c : EnumConstraint) : Prop :=
  toLowerCase (column c) = column c /\
  Forall (fun v => toLowerCase v = v) (values c).

(** The key of the registry for a column of a table. *)
Definition enumKey (name col : str) : str := name ++ L "." ++ col.

(** The input of [createDatabaseMetadata] as its types declare it: an
    array of table descriptors, each with a [name] that is a string and
    [columns], an array of column descriptors with a [name] that is a
    string.  The other properties are not constrained. *)
Definition isColumn (h : heap) (v : value) : Prop :=
  exists l o cname,
    v = VRef l /\ h !! l = Some (CObj o) /\ o !! "name"%string = Some (VStr cname).

Definition isTable (h : heap) (v : value) : Prop :=
  exists l o tname cl cols,
    v = VRef l /\ h !! l = Some (CObj o) /\
    o !! "name"%string = Some (VStr tname) /\
    o !! "columns"%string = Some (VRef cl) /\
    h !! cl = Some (CArr cols) /\ Forall (isColumn h) cols.

Definition isTables (h : heap) (v : value) : Prop :=
  exists l ts, v = VRef l /\ h !! l = Some (CArr ts) /\ Forall (isTable h) ts.

(** [o'] has the properties of [o], but for the property [f]. *)
Definition sameExcept (f : string) (o o' : gmap string value) : Prop :=
  forall g, g <> f -> o' !! g = o !! g.

(** [c'] is a new object of the heap [h'] that has the properties of the
    column descriptor [c] of the heap [h] and [enumValues], the entry of
    the registry for the column, or null. *)
Definition enrichedColumn (enums : gmap str (list str)) (tname : str)
    (h h' : heap) (c c' : value) : Prop :=
  exists l o cname l' o',
    c = VRef l /\ h !! l = Some (CObj o) /\
    o !! "name"%string = Some (VStr cname) /\
    c' = VRef l' /\ length h <= l' /\ h' !! l' = Some (CObj o') /\
    o' !! "enumValues"%string
      = Some (ofEnumValues (EnumCollection.get enums (tname ++ L "." ++ cname))) /\
    sameExcept "enumValues" o o'.

(** [t'] is a new object of [h'] that has the properties of the table
    descriptor [t] of [h], but for [columns], a new array of the enriched
    columns in the order of the columns of [t]. *)
Definition enrichedTable (enums : gmap str (list str)) (h h' : heap)
    (t t' : value) : Prop :=
  exists l o tname cl cols l' o' cl' cols',
    t = VRef l /\ h !! l = Some (CObj o) /\
    o !! "name"%string = Some (VStr tname) /\
    o !! "columns"%string = Some (VRef cl) /\ h !! cl = Some (CArr cols) /\
    t' = VRef l' /\ length h <= l' /\ h' !! l' = Some (CObj o') /\
    o' !! "columns"%string = Some (VRef cl') /\ sameExcept "columns" o o' /\
    length h <= cl' /\ h' !! cl' = Some (CArr cols') /\
    Forall2 (enrichedColumn enums tname h h') cols cols'.

(** [out] is a new array of [h'] with the enriched tables of the array
    [rawTables] of [h], in order. *)
Definition enrichedTables (enums : gmap str (list str)) (h h' : heap)
    (rawTables out : value) : Prop :=
  exists l ts l' ts',
    rawTables = VRef l /\ h !! l = Some (CArr ts) /\
    out = VRef l' /\ length h <= l' /\ h' !! l' = Some (CArr ts') /\
    Forall2 (enrichedTable enums h h') ts ts'.

(** [h] is [h0] with further cells allocated. *)
Definition extends (h0 h : heap) : Prop := exists mid, h = h0 ++ mid.

(** Every column object of every table object of the array [out] has a
    property [enumValues] whose value satisfies [P]. *)
Definition columnsSatisfy (h : heap) (out : value) (P : value -> Prop) : Prop :=
  exists l ts,
    out = VRef l /\ h !! l = Some (CArr ts) /\
    Forall (fun t =>
      exists lt o cl cols,
        t = VRef lt /\ h !! lt = Some (CObj o) /\
        o !! "columns"%string = Some (VRef cl) /\ h !! cl = Some (CArr cols) /\
        Forall (fun c =>
          exists lc oc v,
            c = VRef lc /\ h !! lc = Some (CObj oc) /\
            oc !! "enumValues"%string = Some v /\ P v) cols) ts.

(** A table [users] with the columns [id] and [status], and the rows of
    [sqlite_master] for it. *)
Definition exampleHeap : heap :=
  [ CObj {[ "name"%string := VStr (L "id");
            "dataType"%string := VStr (L "INTEGER") ]};
    CObj {[ "name"%string := VStr (L "status");
            "dataType"%string := VStr (L "TEXT") ]};
    CArr [VRef 0; VRef 1];
    CObj {[ "name"%string := VStr (L "users"); "isView"%string := VOther 0;
            "columns"%string := VRef 2 ]};
    CArr [VRef 3] ].

Definition exampleRows : list Row :=
  [ mkRow (L "users")
      (Some (L "CREATE TABLE users (id INTEGER PRIMARY KEY, status TEXT CHECK (status IN ('public','restricted','private')))")) ].

(** A table [T] with the column [Status], and the row of [sqlite_master]
    for it. *)
Definition casedSql : str :=
  L "CREATE TABLE T (Status TEXT CHECK (Status IN ('Active', 'On  Hold')))".

Definition casedHeap : heap :=
  [ CObj {[ "name"%string := VStr (L "Status");
            "dataType"%string := VStr (L "TEXT") ]};
    CArr [VRef 0];
    CObj {[ "name"%string := VStr (L "T"); "columns"%string := VRef 1 ]};
    CArr [VRef 2] ].

Definition casedRows : list Row := [ mkRow (L "T") (Some casedSql) ].

(** The parentheses of [s] opened and not closed, minus those closed and not
    opened. *)
Fixpoint balance (s : str) : Z :=
  match s with
  | [] => 0
  | c :: s' =>
      ((if Ascii.eqb c "(" then 1 else if Ascii.eqb c ")" then -1 else 0)
       + balance s')%Z
  end.

(** The parenthesis at index [i] of [text] has no matching closing
    parenthesis: after no code unit from there on are the parentheses
    balanced. *)
Definition unmatched (text : str) (i : nat) : Prop :=
  forall n, 1 <= n -> balance (firstn n (skipn i text)) <> 0%Z.

(** ** The texts of the tests

    The text [sqlite_master] keeps for the tables of the three tests of
    [sqlite-introspector.test.ts]. *)

Definition usersSql : str :=
  L "CREATE TABLE users (
        id INTEGER PRIMARY KEY,
        name TEXT NOT NULL,
        status TEXT CHECK (status IN ('public', 'restricted', 'private')) NOT NULL DEFAULT 'restricted',
        role TEXT CHECK (role IN ('admin', 'user', 'guest')) NOT NULL DEFAULT 'user'
      )".

Definition postsSql : str :=
  L "CREATE TABLE posts (
        id INTEGER PRIMARY KEY,
        title TEXT NOT NULL,
        visibility TEXT CHECK (visibility IN ('draft', 'published', 'archived')) NOT NULL DEFAULT 'draft'
      )".

Definition simpleSql : str :=
  L "CREATE TABLE simple_table (
        id INTEGER PRIMARY KEY,
        name TEXT NOT NULL
      )".

Definition complexSql : str :=
  L "CREATE TABLE complex_table (
        id INTEGER PRIMARY KEY,
        status TEXT CHECK (status IN ('active', 'inactive', 'pending')) NOT NULL,
        priority INTEGER CHECK (priority BETWEEN 1 AND 5),
        category TEXT CHECK (category IN ('urgent', 'normal', 'low'))
      )".

(** The entries of the registry of [rows] under [keys]. *)
Definition entries (rows : list Row) (keys : list str)
    : option (list (option (list str))) :=
  match introspectCheckConstraintEnums rows with
  | Some enums => Some (map (EnumCollection.get enums) keys)
  | None => None
  end.

(** ** Vocabulary of the further properties *)

(** The quote character a state of the tokenizer holds, if it holds one, is
    one of the two quotes. *)
Definition quoteLit (st : TokState) : Prop :=
  forall q, quoteChar st = Some q -> q = "'" \/ q = dquote.

(** The code units a state of the tokenizer has kept: those of the values
    pushed so far and of the value under construction, in order. *)
Definition tokText (st : TokState) : str :=
  concat (tvalues st) ++ currentValue st.

(** The parentheses of [content] match one another: none is closed before
    it is opened, and none is left open. *)
Definition balancedSpan (content : str) : Prop :=
  balance content = 0%Z /\ forall n, (0 <= balance (firstn n content))%Z.

(** [pat] stands somewhere in [s]. *)
Definition occursIn (pat s : str) : Prop :=
  exists n, startsWith pat (skipn n s) = true.

(** [content] is the text of a span the scanner cuts out of [text]: it
    stands between the first opening parenthesis at or after a place where
    [check] stands and the closing parenthesis that matches it. *)
Definition checkSpan (text content : str) : Prop :=
  exists ci oi rest,
    startsWith (L "check") (skipn ci text) = true /\ ci <= oi /\
    (forall n, ci <= n < oi -> startsWith (L "(") (skipn n text) = false) /\
    skipn oi text = "(" :: content ++ ")" :: rest /\
    balancedSpan content.

(** White space is the space only. *)
Definition plainSpaces (s : str) : Prop :=
  Forall (fun c => isSpace c = true -> c = " "%char) s.

(** * Properties *)

(** ** Code units *)

Ltac each_ascii c :=
  destruct c as [[] [] [] [] [] [] [] []]; vm_compute; try reflexivity;
  try discriminate; auto.

Lemma toLowerChar_idem c : toLowerChar (toLowerChar c) = toLowerChar c.
Proof. each_ascii c. Qed.

Lemma isSpace_toLowerChar c : isSpace (toLowerChar c) = isSpace c.
Proof. each_ascii c. Qed.

Lemma isDot_toLowerChar c : isDot (toLowerChar c) = isDot c.
Proof. each_ascii c. Qed.

Lemma isWord_toLowerChar c : isWord (toLowerChar c) = isWord c.
Proof. each_ascii c. Qed.

Lemma isIdStart_toLowerChar c : isIdStart (toLowerChar c) = isIdStart c.
Proof. each_ascii c. Qed.

Lemma toLowerChar_space c : isSpace c = true -> toLowerChar c = c.
Proof. each_ascii c. Qed.

Lemma isIdStart_isWord c : isIdStart c = true -> isWord c = true.
Proof. each_ascii c. Qed.

Lemma isWord_not_space c : isWord c = true -> isSpace c = false.
Proof. each_ascii c. Qed.

Lemma eqb_toLowerChar_lparen c :
  Ascii.eqb "(" (toLowerChar c) = Ascii.eqb "(" c.
Proof. each_ascii c. Qed.

Lemma eqb_toLowerChar_rparen c :
  Ascii.eqb ")" (toLowerChar c) = Ascii.eqb ")" c.
Proof. each_ascii c. Qed.

(** ** The value-list tokenizer *)

Lemma tokLoop_quoted_other vs cur q c rest :
  c <> q ->
  tokLoop (quoted vs cur q) (c :: rest) = tokLoop (quoted vs (cur ++ [c]) q) rest.
Proof.
  intros Hne. apply Ascii.eqb_neq in Hne.
  cbn [tokLoop quoted inQuotes negb andb isQuoteChar quoteChar].
  rewrite Hne. reflexivity.
Qed.

Lemma tokLoop_quoted_doubled vs cur q rest :
  tokLoop (quoted vs cur q) (q :: q :: rest)
  = tokLoop (quoted vs (cur ++ [q]) q) rest.
Proof.
  cbn [tokLoop quoted inQuotes negb andb isQuoteChar quoteChar
       tvalues currentValue].
  rewrite Ascii.eqb_refl. reflexivity.
Qed.

Lemma tokLoop_quoted_close vs cur q rest :
  hd_error rest <> Some q ->
  tokLoop (quoted vs cur q) (q :: rest) = tokLoop (unquoted vs cur) rest.
Proof.
  intros Hhd.
  cbn [tokLoop quoted inQuotes negb andb isQuoteChar quoteChar
       tvalues currentValue].
  rewrite Ascii.eqb_refl. destruct rest as [|c rest]; [reflexivity|].
  destruct (Ascii.eqb c q) eqn:E; [|reflexivity].
  apply Ascii.eqb_eq in E. subst c. exfalso. apply Hhd. reflexivity.
Qed.

(** A whole quoted region without the quote character in it. *)
Lemma tokLoop_quoted_region vs cur q w rest :
  ~ In q w -> hd_error rest <> Some q ->
  tokLoop (quoted vs cur q) (w ++ q :: rest)
  = tokLoop (unquoted vs (cur ++ w)) rest.
Proof.
  revert cur. induction w as [|c w IH]; intros cur Hin Hhd.
  - rewrite app_nil_r. apply tokLoop_quoted_close, Hhd.
  - cbn [app]. rewrite tokLoop_quoted_other.
    + rewrite IH; [|intros H; apply Hin; right; exact H|exact Hhd].
      rewrite <- app_assoc. reflexivity.
    + intros ->. apply Hin. left. reflexivity.
Qed.

(** C4: inside a quoted region the tokenizer takes a doubled quote
    character as one literal quote character and skips both, takes a single
    one as the end of the region, and takes every other code unit, commas
    and white space included, as content; ['it''s', "ok"] gives the two
    values [it's] and [ok]. *)
Theorem C4_quoted_state (vs : list str) (cur : str) (q : ascii) :
  (forall rest,
      tokLoop (quoted vs cur q) (q :: q :: rest)
      = tokLoop (quoted vs (cur ++ [q]) q) rest) /\
  (forall rest, hd_error rest <> Some q ->
      tokLoop (quoted vs cur q) (q :: rest) = tokLoop (unquoted vs cur) rest) /\
  (forall c rest, c <> q ->
      tokLoop (quoted vs cur q) (c :: rest)
      = tokLoop (quoted vs (cur ++ [c]) q) rest) /\
  (forall w rest, ~ In q w -> hd_error rest <> Some q ->
      tokLoop (quoted vs cur q) (w ++ q :: rest)
      = tokLoop (unquoted vs (cur ++ w)) rest) /\
  parseValueList (L "'it''s', " ++ dquote :: L "ok" ++ [dquote])
  = [L "it's"; L "ok"].
Proof.
  split; [intros; apply tokLoop_quoted_doubled|].
  split; [intros; apply tokLoop_quoted_close; assumption|].
  split; [intros; apply tokLoop_quoted_other; assumption|].
  split; [intros; apply tokLoop_quoted_region; assumption|].
  reflexivity.
Qed.

Lemma C4_quoted_state_witness :
  tokLoop (quoted [] (L "a") "'") (L ", b' ,c")
  = tokLoop (unquoted [] (L "a, b")) (L " ,c").
Proof.
  apply (proj1 (proj2 (proj2 (proj2 (C4_quoted_state [] (L "a") "'"))))
           (L ", b") (L " ,c")).
  - vm_compute. intros H. decompose [or] H; discriminate || assumption.
  - vm_compute. discriminate.
Defined.

(** Induction for loops that look one code unit ahead. *)
Lemma str_ind2 (P : str -> Prop) :
  P [] ->
  (forall c s, P s -> (forall c' s', s = c' :: s' -> P s') -> P (c :: s)) ->
  forall s, P s.
Proof.
  intros H0 Hstep s.
  assert (H : P s /\ (forall c' s', s = c' :: s' -> P s')).
  { induction s as [|c s [IH1 IH2]].
    - split; [exact H0|discriminate].
    - split; [apply Hstep; assumption|].
      intros c' s' [= <- <-]. exact IH1. }
  exact (proj1 H).
Qed.

(** What the tokenizer loop keeps true of the values pushed so far and of
    the value under construction. *)
Lemma tokLoop_invariant (Q : ascii -> Prop) (I : list str -> str -> Prop) :
  (forall vs cur c, Q c -> I vs cur -> I vs (cur ++ [c])) ->
  (forall vs cur, I vs cur -> I (pushTrimmed vs cur) []) ->
  forall s st, Forall Q s ->
    I (tvalues st) (currentValue st) ->
    I (tvalues (tokLoop st s)) (currentValue (tokLoop st s)).
Proof.
  intros Happ Hpush s. induction s as [|c s IH1 IH2] using str_ind2;
    intros st HQ HI; [exact HI|].
  inversion HQ as [|? ? Hc Hs]; subst.
  cbn [tokLoop].
  destruct (negb (inQuotes st) && (Ascii.eqb c dquote || Ascii.eqb c "'")).
  { apply IH1; [exact Hs|exact HI]. }
  destruct (inQuotes st && isQuoteChar st c).
  { destruct s as [|c' s'].
    - apply IH1; [exact Hs|exact HI].
    - destruct (isQuoteChar st c').
      + inversion Hs; subst.
        apply (IH2 c' s' eq_refl); [assumption|]. cbn. apply Happ; assumption.
      + apply IH1; [exact Hs|exact HI]. }
  destruct (negb (inQuotes st) && Ascii.eqb c ",").
  { apply IH1; [exact Hs|]. cbn. apply Hpush, HI. }
  apply IH1; [exact Hs|]. cbn. apply Happ; assumption.
Qed.

(** *** trim *)

Lemma trimEnd_idem s : trimEnd (trimEnd s) = trimEnd s.
Proof.
  induction s as [|c s IH]; [reflexivity|].
  cbn [trimEnd]. destruct (trimEnd s) as [|d t] eqn:E.
  - destruct (isSpace c) eqn:Ec; [reflexivity|].
    cbn. rewrite Ec. reflexivity.
  - change (trimEnd (c :: d :: t)) with
      (match trimEnd (d :: t) with
       | [] => if isSpace c then [] else [c]
       | x :: t' => c :: x :: t'
       end).
    rewrite IH. reflexivity.
Qed.

Lemma trimEnd_head c s :
  isSpace c = false -> exists t, trimEnd (c :: s) = c :: t.
Proof.
  intros Hc. cbn [trimEnd]. destruct (trimEnd s) as [|d t].
  - rewrite Hc. exists []. reflexivity.
  - exists (d :: t). reflexivity.
Qed.

Lemma trimStart_head s :
  trimStart s = [] \/ exists c t, trimStart s = c :: t /\ isSpace c = false.
Proof.
  induction s as [|c s IH]; [left; reflexivity|].
  cbn [trimStart]. destruct (isSpace c) eqn:Ec; [exact IH|].
  right. exists c, s. split; [reflexivity|exact Ec].
Qed.

Lemma trim_idem s : trim (trim s) = trim s.
Proof.
  unfold trim. destruct (trimStart_head s) as [E|(c & t & E & Hc)]; rewrite E.
  - reflexivity.
  - destruct (trimEnd_head c t Hc) as [t' E'].
    rewrite E'. cbn [trimStart]. rewrite Hc. rewrite <- E'.
    apply trimEnd_idem.
Qed.

Lemma trimStart_blank s : Forall (fun c => isSpace c = true) s -> trimStart s = [].
Proof.
  induction 1 as [|c s Hc _ IH]; [reflexivity|].
  cbn [trimStart]. rewrite Hc. exact IH.
Qed.

Lemma trimStart_app_blank b s :
  Forall (fun c => isSpace c = true) b -> trimStart (b ++ s) = trimStart s.
Proof.
  induction 1 as [|c b Hc _ IH]; [reflexivity|].
  cbn [app trimStart]. rewrite Hc. exact IH.
Qed.

Lemma trimEnd_blank s : Forall (fun c => isSpace c = true) s -> trimEnd s = [].
Proof.
  induction 1 as [|c s Hc _ IH]; [reflexivity|].
  cbn [trimEnd]. rewrite IH, Hc. reflexivity.
Qed.

Lemma trimEnd_app_blank s b :
  Forall (fun c => isSpace c = true) b -> trimEnd (s ++ b) = trimEnd s.
Proof.
  intros Hb. induction s as [|c s IH].
  - cbn [app]. rewrite trimEnd_blank by exact Hb. reflexivity.
  - cbn [app trimEnd]. rewrite IH. reflexivity.
Qed.

(** White space around a value does not change its trimmed form. *)
Lemma trim_app_blank b1 s b2 :
  Forall (fun c => isSpace c = true) b1 ->
  Forall (fun c => isSpace c = true) b2 ->
  trim (b1 ++ s ++ b2) = trim s.
Proof.
  intros H1 H2. unfold trim. rewrite trimStart_app_blank by exact H1.
  destruct (trimStart_head s) as [E|(c & t & E & Hc)].
  - assert (Hs : Forall (fun c => isSpace c = true) s).
    { clear -E. induction s as [|c s IH]; [constructor|].
      cbn [trimStart] in E. destruct (isSpace c) eqn:Ec; [|discriminate].
      constructor; [exact Ec|apply IH, E]. }
    rewrite E, trimStart_blank; [reflexivity|].
    apply Forall_app; split; assumption.
  - assert (E2 : trimStart (s ++ b2) = trimStart s ++ b2).
    { clear -E. revert E. induction s as [|d s IH]; [discriminate|].
      cbn [app trimStart]. destruct (isSpace d); [exact IH|reflexivity]. }
    rewrite E2. apply trimEnd_app_blank, H2.
Qed.

Lemma pushTrimmed_nil cur :
  pushTrimmed [] cur = if isEmpty (trim cur) then [] else [trim cur].
Proof. unfold pushTrimmed. destruct (trim cur); reflexivity. Qed.

Lemma pushTrimmed_empty vs : pushTrimmed vs [] = vs.
Proof. reflexivity. Qed.

Lemma pushTrimmed_trimmed vs cur :
  Forall isTrimmedValue vs -> Forall isTrimmedValue (pushTrimmed vs cur).
Proof.
  intros H. unfold pushTrimmed. destruct (trim cur) as [|c t] eqn:E; [exact H|].
  apply Forall_app; split; [exact H|]. constructor; [|constructor].
  split; [discriminate|]. rewrite <- E. apply trim_idem.
Qed.

Lemma parseValueList_trimmed s : Forall isTrimmedValue (parseValueList s).
Proof.
  unfold parseValueList. apply pushTrimmed_trimmed.
  apply (tokLoop_invariant (fun _ => True) (fun vs _ => Forall isTrimmedValue vs)).
  - intros vs cur c _ H. exact H.
  - intros vs cur H. apply pushTrimmed_trimmed, H.
  - clear. induction s; constructor; auto.
  - constructor.
Qed.

(** Outside quotes a code unit that is neither a quote nor a comma goes to
    the value under construction. *)
Lemma tokLoop_plain vs cur w rest :
  Forall isPlain w ->
  tokLoop (unquoted vs cur) (w ++ rest) = tokLoop (unquoted vs (cur ++ w)) rest.
Proof.
  intros Hw. revert cur. induction Hw as [|c w (H1 & H2 & H3) _ IH]; intros cur.
  - rewrite app_nil_r. reflexivity.
  - cbn [app tokLoop unquoted inQuotes negb andb].
    apply Ascii.eqb_neq in H1, H2, H3. rewrite H1, H2, H3. cbn [orb].
    change (tokLoop (unquoted vs (cur ++ [c])) (w ++ rest)
            = tokLoop (unquoted vs (cur ++ c :: w)) rest).
    rewrite IH, <- app_assoc. reflexivity.
Qed.

Lemma tokLoop_open vs cur q rest :
  q = "'" \/ q = dquote ->
  tokLoop (unquoted vs cur) (q :: rest) = tokLoop (quoted vs cur q) rest.
Proof. intros [-> | ->]; reflexivity. Qed.

Lemma tokLoop_comma vs cur rest :
  tokLoop (unquoted vs cur) ("," :: rest)
  = tokLoop (unquoted (pushTrimmed vs cur) []) rest.
Proof. reflexivity. Qed.

Lemma parseValueList_plain w :
  Forall isPlain w ->
  parseValueList w = if isEmpty (trim w) then [] else [trim w].
Proof.
  intros Hw. unfold parseValueList.
  change tokInit with (unquoted [] []).
  rewrite <- (app_nil_r w) at 1 2. rewrite tokLoop_plain by exact Hw.
  cbn [tokLoop unquoted tvalues currentValue app].
  apply pushTrimmed_nil.
Qed.

Lemma parseValueList_quoted q w :
  q = "'" \/ q = dquote -> ~ In q w ->
  parseValueList (q :: w ++ [q]) = if isEmpty (trim w) then [] else [trim w].
Proof.
  intros Hq Hw. unfold parseValueList.
  change tokInit with (unquoted [] []).
  rewrite tokLoop_open by exact Hq.
  rewrite tokLoop_quoted_region; [|exact Hw|discriminate].
  cbn [tokLoop unquoted tvalues currentValue app].
  apply pushTrimmed_nil.
Qed.

Lemma tokLoop_snoc_comma s :
  forall st, quoteOk st ->
    tokLoop st (s ++ [","]) = tokLoop (tokLoop st s) [","].
Proof.
  induction s as [|c s IH1 IH2] using str_ind2; intros st Hok; [reflexivity|].
  cbn [app]. cbn [tokLoop].
  destruct (negb (inQuotes st) && (Ascii.eqb c dquote || Ascii.eqb c "'")) eqn:E1.
  { apply IH1. unfold quoteOk. cbn. intros [= ->].
    change (Ascii.eqb "," dquote || Ascii.eqb "," "'") with false in E1.
    rewrite andb_false_r in E1. discriminate. }
  destruct (inQuotes st && isQuoteChar st c) eqn:E2.
  { destruct s as [|c' s'].
    - cbn [app].
      assert (Hq : isQuoteChar st "," = false).
      { unfold isQuoteChar. unfold quoteOk in Hok.
        destruct (quoteChar st) as [q|]; [|reflexivity].
        apply Ascii.eqb_neq. intros <-. apply Hok. reflexivity. }
      rewrite Hq. reflexivity.
    - cbn [app]. destruct (isQuoteChar st c').
      + apply (IH2 c' s' eq_refl). exact Hok.
      + apply IH1. unfold quoteOk. cbn. discriminate. }
  destruct (negb (inQuotes st) && Ascii.eqb c ",").
  { apply IH1. exact Hok. }
  apply IH1. exact Hok.
Qed.

Lemma parseValueList_trailing_comma s :
  inQuotes (tokLoop tokInit s) = false ->
  parseValueList (s ++ [","]) = parseValueList s.
Proof.
  intros Hq. unfold parseValueList.
  rewrite tokLoop_snoc_comma by (unfold quoteOk; cbn; discriminate).
  cbn [tokLoop]. rewrite Hq. cbn [negb andb orb].
  change (Ascii.eqb "," dquote) with false. change (Ascii.eqb "," "'") with false.
  change (Ascii.eqb "," ",") with true. cbn [tvalues currentValue orb].
  apply pushTrimmed_empty.
Qed.

(** C8 (as amended): the tokenizer trims the white space at both ends of
    every accumulated value, quoted or not, so that white space that stood
    inside quotes is kept only in the interior of a value; a value is
    appended, at a comma and after the end of the stream, only if it is
    non-empty after trimming, and a value that is empty after trimming, such
    as the one after a stray trailing comma, is dropped without an error. *)
Theorem C8_trimmed_values :
  (forall s, Forall (fun v => v <> [] /\ trim v = v) (parseValueList s)) /\
  (forall w, Forall (fun c => c <> "'" /\ c <> dquote /\ c <> ",") w ->
     parseValueList w = if isEmpty (trim w) then [] else [trim w]) /\
  (forall q w, q = "'" \/ q = dquote -> ~ In q w ->
     parseValueList (q :: w ++ [q]) = if isEmpty (trim w) then [] else [trim w]) /\
  (forall vs cur rest,
     tokLoop (unquoted vs cur) ("," :: rest)
     = tokLoop (unquoted (pushTrimmed vs cur) []) rest) /\
  (forall s, inQuotes (tokLoop tokInit s) = false ->
     parseValueList (s ++ [","]) = parseValueList s).
Proof.
  split; [exact parseValueList_trimmed|].
  split; [exact parseValueList_plain|].
  split; [exact parseValueList_quoted|].
  split; [exact tokLoop_comma|].
  exact parseValueList_trailing_comma.
Qed.

Lemma C8_trimmed_values_witness :
  parseValueList (L "' a  b '") = [L "a  b"] /\
  parseValueList (L " 12 ") = [L "12"] /\
  parseValueList (L "'a', 'b',") = parseValueList (L "'a', 'b'").
Proof.
  destruct C8_trimmed_values as (_ & Hplain & Hquoted & _ & Hcomma).
  split; [|split].
  - apply (Hquoted "'" (L " a  b ")); [left; reflexivity|].
    vm_compute. intros H. decompose [or] H; discriminate || assumption.
  - apply (Hplain (L " 12 ")). vm_compute.
    repeat constructor; discriminate.
  - apply (Hcomma (L "'a', 'b'")). vm_compute. reflexivity.
Defined.

(** White space at the ends of a quoted value is not kept. *)
Lemma C8_counterexample :
  parseValueList (L "' a '") = [L "a"] /\
  parseValueList (L "' a '") <> [L " a "].
Proof. split; [reflexivity|vm_compute; discriminate]. Qed.

(** ** The regular-expression combinators *)

Section RegexFacts.
Context {R : Type}.
Implicit Types (p : ascii -> bool) (r : R) (s a b acc : str).

(** *** What a successful match tells about the input *)

Lemma reChar_sound p (k : ascii -> str -> option R) s r :
  reChar p k s = Some r ->
  exists c b, s = c :: b /\ p c = true /\ k c b = Some r.
Proof.
  destruct s as [|c b]; [discriminate|]. cbn.
  destruct (p c) eqn:E; [|discriminate]. eauto.
Qed.

Lemma reLit_sound lit (k : str -> option R) s r :
  reLit lit k s = Some r -> exists b, s = lit ++ b /\ k b = Some r.
Proof.
  revert s. induction lit as [|x lit IH]; intros s H.
  - exists s. split; [reflexivity|exact H].
  - cbn [reLit] in H. apply reChar_sound in H as (c & b & -> & Hc & H).
    apply Ascii.eqb_eq in Hc. subst c.
    apply IH in H as (b' & -> & H). eauto.
Qed.

Lemma reStar_sound p (k : str -> option R) s r :
  reStar p k s = Some r ->
  exists a b, s = a ++ b /\ all p a /\ k b = Some r.
Proof.
  induction s as [|c s IH]; intros H.
  - exists [], []. cbn in H. auto.
  - cbn [reStar] in H. destruct (p c) eqn:Ec.
    + destruct (reStar p k s) as [r'|] eqn:E.
      * injection H as ->. destruct (IH eq_refl) as (a & b & -> & Ha & Hk).
        exists (c :: a), b. auto.
      * exists [], (c :: s). auto.
    + exists [], (c :: s). auto.
Qed.

Lemma reStarCap_sound p (k : str -> str -> option R) s : forall acc r,
  reStarCap p k acc s = Some r ->
  exists a b, s = a ++ b /\ all p a /\ k (acc ++ a) b = Some r.
Proof.
  induction s as [|c s IH]; intros acc r H.
  - exists [], []. cbn in H. rewrite (app_nil_r acc). auto.
  - cbn [reStarCap] in H. destruct (p c) eqn:Ec.
    + destruct (reStarCap p k (acc ++ [c]) s) as [r'|] eqn:E.
      * injection H as ->. destruct (IH _ _ E) as (a & b & -> & Ha & Hk).
        exists (c :: a), b. rewrite <- app_assoc in Hk. auto.
      * exists [], (c :: s). rewrite (app_nil_r acc). auto.
    + exists [], (c :: s). rewrite (app_nil_r acc). auto.
Qed.

Lemma rePlusLazyCap_sound p (k : str -> str -> option R) s : forall acc r,
  rePlusLazyCap p k acc s = Some r ->
  exists a b, s = a ++ b /\ a <> [] /\ all p a /\ k (acc ++ a) b = Some r.
Proof.
  induction s as [|c s IH]; intros acc r H; [discriminate|].
  cbn [rePlusLazyCap] in H. destruct (p c) eqn:Ec; [|discriminate].
  destruct (k (acc ++ [c]) s) as [r'|] eqn:E.
  - injection H as ->. exists [c], s. repeat split; auto; discriminate.
  - destruct (IH _ _ H) as (a & b & -> & _ & Ha & Hk).
    exists (c :: a), b. rewrite <- app_assoc in Hk.
    repeat split; auto; discriminate.
Qed.

Lemma reEnd_sound r s r' : reEnd r s = Some r' -> s = [] /\ r' = r.
Proof. destruct s; [intros [= <-]; auto|discriminate]. Qed.

(** *** When a match exists the matcher finds one *)

Lemma reStar_here p (k : str -> option R) s :
  k s <> None -> reStar p k s <> None.
Proof.
  intros H. destruct s as [|c s]; [exact H|].
  cbn [reStar]. destruct (p c); [|exact H].
  destruct (reStar p k s); [discriminate|exact H].
Qed.

Lemma rePlusLazyCap_complete p (k : str -> str -> option R) a b :
  forall acc, all p a -> a <> [] -> k (acc ++ a) b <> None ->
    rePlusLazyCap p k acc (a ++ b) <> None.
Proof.
  induction a as [|c a IH]; intros acc Ha Hne Hk; [contradiction|].
  inversion Ha as [|? ? Hc Ha']; subst.
  cbn [app rePlusLazyCap]. rewrite Hc.
  destruct (k (acc ++ [c]) (a ++ b)) eqn:E; [discriminate|].
  destruct a as [|d a].
  - destruct (Hk E).
  - apply IH; [exact Ha'|discriminate|]. rewrite <- app_assoc. exact Hk.
Qed.

(** *** Deterministic steps *)

Lemma reLit_app lit (k : str -> option R) b : reLit lit k (lit ++ b) = k b.
Proof.
  induction lit as [|x lit IH]; [reflexivity|].
  cbn [app reLit reChar]. rewrite Ascii.eqb_refl. exact IH.
Qed.

Lemma reLit_mismatch x lit (k : str -> option R) c s :
  Ascii.eqb x c = false -> reLit (x :: lit) k (c :: s) = None.
Proof. intros H. cbn [reLit reChar]. rewrite H. reflexivity. Qed.

(** A greedy star whose continuation rejects what the star accepts has
    one way to match. *)
Lemma reStar_det p (k : str -> option R) a b :
  all p a -> headIn p b = false ->
  (forall c s, p c = true -> k (c :: s) = None) ->
  reStar p k (a ++ b) = k b.
Proof.
  intros Ha Hb Hk. induction Ha as [|c a Hc _ IH].
  - destruct b as [|c b]; [reflexivity|]. cbn in Hb |- *. rewrite Hb.
    reflexivity.
  - cbn [app reStar]. rewrite Hc, IH. rewrite (Hk c (a ++ b) Hc).
    destruct (k b); reflexivity.
Qed.

Lemma reStarCap_det p (k : str -> str -> option R) a b :
  forall acc, all p a -> headIn p b = false ->
    (forall acc c s, p c = true -> k acc (c :: s) = None) ->
    reStarCap p k acc (a ++ b) = k (acc ++ a) b.
Proof.
  induction a as [|c a IH]; intros acc Ha Hb Hk.
  - rewrite app_nil_r. destruct b as [|c b]; [reflexivity|].
    cbn in Hb |- *. rewrite Hb. reflexivity.
  - inversion Ha as [|? ? Hc Ha']; subst.
    cbn [app reStarCap]. rewrite Hc, IH by assumption.
    rewrite <- app_assoc. cbn [app]. rewrite (Hk acc c (a ++ b) Hc).
    destruct (k (acc ++ c :: a) b); reflexivity.
Qed.

(** The greedy star takes the longest run when the continuation accepts
    what follows it. *)
Lemma reStar_greedy p (k : str -> option R) a b r :
  all p a -> headIn p b = false -> k b = Some r ->
  reStar p k (a ++ b) = Some r.
Proof.
  intros Ha Hb Hk. induction Ha as [|c a Hc _ IH].
  - destruct b as [|c b]; [exact Hk|]. cbn in Hb |- *. rewrite Hb. exact Hk.
  - cbn [app reStar]. rewrite Hc, IH. reflexivity.
Qed.

(** The lazy plus takes the shortest text after which the continuation
    accepts. *)
Lemma rePlusLazyCap_first p (k : str -> str -> option R) a b r :
  forall acc, all p a -> a <> [] ->
    (forall a1 a2, a = a1 ++ a2 -> a1 <> [] -> a2 <> [] ->
       k (acc ++ a1) (a2 ++ b) = None) ->
    k (acc ++ a) b = Some r ->
    rePlusLazyCap p k acc (a ++ b) = Some r.
Proof.
  induction a as [|c a IH]; intros acc Ha Hne Hshort Hk; [contradiction|].
  inversion Ha as [|? ? Hc Ha']; subst.
  cbn [app rePlusLazyCap]. rewrite Hc.
  destruct a as [|d a].
  - cbn [app]. rewrite Hk. reflexivity.
  - rewrite (Hshort [c] (d :: a) eq_refl) by discriminate.
    apply IH; [exact Ha'|discriminate| |rewrite <- app_assoc; exact Hk].
    intros a1 a2 E H1 H2. rewrite <- app_assoc.
    apply (Hshort (c :: a1) a2); [rewrite E; reflexivity|discriminate|exact H2].
Qed.
End RegexFacts.

(** ** The pattern of [parseInConstraint] *)

Lemma isSpace_not_idStart c : isSpace c = true -> isIdStart c = false.
Proof. each_ascii c. Qed.

Lemma isSpace_not_word c : isSpace c = true -> isWord c = false.
Proof. each_ascii c. Qed.

Lemma isSpace_not_i c : isSpace c = true -> Ascii.eqb "i" c = false.
Proof. each_ascii c. Qed.

Lemma isSpace_not_lparen c : isSpace c = true -> Ascii.eqb "(" c = false.
Proof. each_ascii c. Qed.

Lemma isSpace_not_rparen c : isSpace c = true -> Ascii.eqb ")" c = false.
Proof. each_ascii c. Qed.

Lemma trimEnd_snoc s z : isSpace z = false -> trimEnd (s ++ [z]) = s ++ [z].
Proof.
  intros Hz. induction s as [|c s IH].
  - cbn. rewrite Hz. reflexivity.
  - cbn [app trimEnd]. rewrite IH. destruct (s ++ [z]) eqn:E; [|reflexivity].
    destruct s; discriminate.
Qed.

Lemma trimEnd_last s :
  trimEnd s = [] \/ exists t z, trimEnd s = t ++ [z] /\ isSpace z = false.
Proof.
  induction s as [|c s IH]; [left; reflexivity|].
  cbn [trimEnd]. destruct (trimEnd s) as [|d t0] eqn:E.
  - destruct (isSpace c) eqn:Ec; [left; reflexivity|].
    right. exists [], c. split; [reflexivity|exact Ec].
  - right. destruct IH as [IH|(t & z & IH & Hz)]; [discriminate|].
    exists (c :: t), z. rewrite IH. split; [reflexivity|exact Hz].
Qed.

Lemma trimStart_length s : length (trimStart s) <= length s.
Proof.
  induction s as [|c s IH]; [reflexivity|].
  cbn [trimStart]. destruct (isSpace c); cbn [length]; lia.
Qed.

Lemma trimEnd_length s : length (trimEnd s) <= length s.
Proof.
  induction s as [|c s IH]; [reflexivity|].
  cbn [trimEnd]. destruct (trimEnd s); [destruct (isSpace c)|];
    cbn [length] in *; lia.
Qed.

Lemma trimStart_same_length s : length (trimStart s) = length s -> trimStart s = s.
Proof.
  destruct s as [|c s]; [reflexivity|].
  cbn [trimStart]. destruct (isSpace c); [|reflexivity].
  intros H. pose proof (trimStart_length s). cbn [length] in H. lia.
Qed.

(** A non-empty value without white space at its ends starts and ends with
    a code unit that is not white space. *)
Lemma trimmed_ends v :
  v <> [] -> trim v = v ->
  (exists h t, v = h :: t /\ isSpace h = false) /\
  (exists t z, v = t ++ [z] /\ isSpace z = false).
Proof.
  intros Hne Htrim.
  assert (Hs : trimStart v = v).
  { apply trimStart_same_length.
    pose proof (trimStart_length v). pose proof (trimEnd_length (trimStart v)).
    unfold trim in Htrim. rewrite Htrim in *. lia. }
  unfold trim in Htrim. rewrite Hs in Htrim. split.
  - destruct (trimStart_head v) as [E|(c & t & E & Hc)]; rewrite Hs in E.
    + contradiction.
    + exists c, t. auto.
  - destruct (trimEnd_last v) as [E|(t & z & E & Hz)]; rewrite Htrim in E.
    + contradiction.
    + exists t, z. auto.
Qed.

(** The closing parenthesis of the pattern is the last one of the span. *)
Lemma closing_unique x y u v :
  blank y -> blank v -> x ++ ")" :: y = u ++ ")" :: v -> x = u /\ y = v.
Proof.
  intros Hy Hv E.
  assert (Hx : x ++ [")"] = u ++ [")"]).
  { rewrite <- (trimEnd_snoc x ")"), <- (trimEnd_snoc u ")") by reflexivity.
    rewrite <- (trimEnd_app_blank (x ++ [")"]) y Hy).
    rewrite <- (trimEnd_app_blank (u ++ [")"]) v Hv).
    rewrite <- !app_assoc. cbn [app]. rewrite E. reflexivity. }
  apply app_inj_tail in Hx as [-> _]. split; [reflexivity|].
  apply app_inv_head in E. injection E as ->. reflexivity.
Qed.

Lemma reClose_ok g x y :
  blank x -> blank y -> reClose g (x ++ ")" :: y) = Some g.
Proof.
  intros Hx Hy. unfold reClose.
  rewrite reStar_det; [|exact Hx|reflexivity|].
  - change (")" :: y) with (L ")" ++ y). rewrite reLit_app.
    rewrite <- (app_nil_r y). rewrite reStar_det; [reflexivity|exact Hy|reflexivity|].
    intros c s _. reflexivity.
  - intros c s Hc. apply (reLit_mismatch ")" []), isSpace_not_rparen, Hc.
Qed.

Lemma reClose_sound g s r :
  reClose g s = Some r ->
  exists x y, s = x ++ ")" :: y /\ blank x /\ blank y /\ r = g.
Proof.
  unfold reClose. intros H.
  apply reStar_sound in H as (x & b & -> & Hx & H).
  apply reLit_sound in H as (b' & -> & H).
  apply reStar_sound in H as (y & b & -> & Hy & H).
  apply reEnd_sound in H as [-> ->].
  exists x, y. rewrite app_nil_r. auto.
Qed.

(** The second group is the text between the parentheses without the white
    space at its ends. *)
Lemma reBody_exact g1 ws3 body ws4 ws5 :
  blank ws3 -> body <> [] -> trim body = body -> all isDot body ->
  blank ws4 -> blank ws5 ->
  reBody g1 (ws3 ++ body ++ ws4 ++ ")" :: ws5) = Some (g1, body).
Proof.
  intros H3 Hne Htrim Hdot H4 H5.
  destruct (trimmed_ends body Hne Htrim) as [(h & t & Eh & Hh) (t' & z & Ez & Hz)].
  unfold reBody. apply reStar_greedy; [exact H3| |].
  { rewrite Eh. exact Hh. }
  apply rePlusLazyCap_first; [exact Hdot|exact Hne| |].
  - intros a1 a2 E Ha1 Ha2. cbn [app].
    destruct (reClose (g1, a1) (a2 ++ ws4 ++ ")" :: ws5)) as [r|] eqn:Ec;
      [exfalso|reflexivity].
    apply reClose_sound in Ec as (x & y & Ex & Hx & Hy & _).
    rewrite app_assoc in Ex. symmetry in Ex.
    apply closing_unique in Ex as [-> _]; [|exact Hy|exact H5].
    apply Forall_app in Hx as [Ha2b _].
    assert (Hlast : exists a2', a2 = a2' ++ [z]).
    { destruct (exists_last Ha2) as (a2' & z' & ->).
      exists a2'. rewrite E, app_assoc in Ez.
      apply app_inj_tail in Ez as [_ ->]. reflexivity. }
    destruct Hlast as [a2' ->]. apply Forall_app in Ha2b as [_ Hzb].
    inversion Hzb; subst. congruence.
  - cbn [app]. apply reClose_ok; assumption.
Qed.

(** Up to the opening parenthesis the expression has one way to match. *)
Lemma inRegex_front ws0 c0 w ws1 ws2 rest :
  blank ws0 -> isIdStart c0 = true -> all isWord w ->
  blank ws1 -> ws1 <> [] -> blank ws2 ->
  inRegex (ws0 ++ (c0 :: w) ++ ws1 ++ L "in" ++ ws2 ++ "(" :: rest)
  = reBody (c0 :: w) rest.
Proof.
  intros H0 Hc0 Hw H1 Hne H2. unfold inRegex.
  rewrite reStar_det; [|exact H0| |].
  2:{ cbn. apply isWord_not_space, isIdStart_isWord, Hc0. }
  2:{ intros c s Hc. cbn. rewrite (isSpace_not_idStart c Hc). reflexivity. }
  cbn [app reChar]. rewrite Hc0.
  destruct ws1 as [|s1 ws1]; [contradiction|].
  inversion H1 as [|? ? Hs1 H1']; subst.
  rewrite reStarCap_det; [|exact Hw| |].
  2:{ cbn. apply isSpace_not_word, Hs1. }
  2:{ intros acc c s Hc. cbn. rewrite (isWord_not_space c Hc). reflexivity. }
  unfold reKeyword at 1. unfold rePlus. cbn [app reChar]. rewrite Hs1.
  rewrite reStar_det; [|exact H1'|reflexivity|].
  2:{ intros c s Hc. apply (reLit_mismatch "i" ["n"]), isSpace_not_i, Hc. }
  rewrite reLit_app.
  rewrite reStar_det; [|exact H2|reflexivity|].
  2:{ intros c s Hc. apply (reLit_mismatch "(" []), isSpace_not_lparen, Hc. }
  change ("(" :: rest) with (L "(" ++ rest). rewrite reLit_app. reflexivity.
Qed.

Lemma isIdStart_spec c : isLetter c || isUnderscore c = isIdStart c.
Proof.
  unfold isLetter, isIdStart.
  destruct (isUpper c), (isLower c), (isUnderscore c); reflexivity.
Qed.

Lemma all_map_ext (p q : ascii -> bool) (f : ascii -> ascii) s :
  (forall c, p (f c) = q c) -> all p (map f s) <-> all q s.
Proof.
  intros Hpq. induction s as [|c s IH]; cbn [map].
  - split; constructor.
  - split; intros H; inversion H; subst; constructor;
      try (apply IH; assumption); congruence.
Qed.

Lemma blank_toLowerCase s : blank (toLowerCase s) <-> blank s.
Proof.
  apply all_map_ext, isSpace_toLowerChar.
Qed.

Lemma all_isDot_toLowerCase s : all isDot (toLowerCase s) <-> all isDot s.
Proof.
  apply all_map_ext, isDot_toLowerChar.
Qed.

Lemma all_isWord_toLowerCase s : all isWord (toLowerCase s) <-> all isWord s.
Proof.
  apply all_map_ext, isWord_toLowerChar.
Qed.

Lemma toLowerChar_lparen c : toLowerChar c = "(" -> c = "(".
Proof.
  intros H. symmetry. apply Ascii.eqb_eq. rewrite <- eqb_toLowerChar_lparen, H.
  reflexivity.
Qed.

Lemma toLowerChar_rparen c : toLowerChar c = ")" -> c = ")".
Proof.
  intros H. symmetry. apply Ascii.eqb_eq. rewrite <- eqb_toLowerChar_rparen, H.
  reflexivity.
Qed.

(** What a match of the expression tells about the span and the groups. *)
Lemma inRegex_sound s g1 g2 :
  inRegex s = Some (g1, g2) ->
  exists ws0 c0 w ws1 ws2 ws3 ws4 ws5,
    s = ws0 ++ (c0 :: w) ++ ws1 ++ L "in" ++ ws2 ++ "(" :: ws3 ++ g2 ++ ws4
          ++ ")" :: ws5 /\
    g1 = c0 :: w /\
    blank ws0 /\ isIdStart c0 = true /\ all isWord w /\
    blank ws1 /\ ws1 <> [] /\ blank ws2 /\ blank ws3 /\
    g2 <> [] /\ all isDot g2 /\ blank ws4 /\ blank ws5.
Proof.
  unfold inRegex. intros H.
  apply reStar_sound in H as (ws0 & b & -> & H0 & H).
  apply reChar_sound in H as (c0 & b' & -> & Hc0 & H).
  apply reStarCap_sound in H as (w & b & -> & Hw & H).
  unfold reKeyword, rePlus in H.
  apply reChar_sound in H as (s1 & b' & -> & Hs1 & H).
  apply reStar_sound in H as (ws1 & b & -> & H1 & H).
  apply reLit_sound in H as (b' & -> & H).
  apply reStar_sound in H as (ws2 & b & -> & H2 & H).
  apply reLit_sound in H as (b' & -> & H).
  unfold reBody in H.
  apply reStar_sound in H as (ws3 & b & -> & H3 & H).
  apply rePlusLazyCap_sound in H as (body & b' & -> & Hne & Hdot & H).
  apply reClose_sound in H as (ws4 & ws5 & -> & H4 & H5 & [= -> ->]).
  exists ws0, c0, w, (s1 :: ws1), ws2, ws3, ws4, ws5.
  cbn [app]. repeat split; auto; discriminate.
Qed.

(** A span of the shape is matched, whatever white space its body has at
    its ends. *)
Lemma inRegex_complete ws0 c0 w ws1 ws2 body ws5 :
  blank ws0 -> isIdStart c0 = true -> all isWord w ->
  blank ws1 -> ws1 <> [] -> blank ws2 ->
  body <> [] -> all isDot body -> blank ws5 ->
  inRegex (ws0 ++ (c0 :: w) ++ ws1 ++ L "in" ++ ws2 ++ "(" :: body
             ++ ")" :: ws5) <> None.
Proof.
  intros H0 Hc0 Hw H1 Hne1 H2 Hne Hdot H5.
  rewrite inRegex_front by assumption.
  unfold reBody. apply reStar_here.
  apply rePlusLazyCap_complete; [exact Hdot|exact Hne|].
  cbn [app]. rewrite (reClose_ok _ [] ws5); [discriminate|constructor|exact H5].
Qed.

Lemma toLowerCase_app a b : toLowerCase (a ++ b) = toLowerCase a ++ toLowerCase b.
Proof. apply map_app. Qed.

Lemma toLowerCase_cons_inv s c b :
  toLowerCase s = c :: b ->
  exists c' b', s = c' :: b' /\ toLowerChar c' = c /\ toLowerCase b' = b.
Proof.
  destruct s as [|c' b']; [discriminate|]. intros [= <- <-]. eauto.
Qed.

Lemma toLowerCase_app_inv a : forall s b,
  toLowerCase s = a ++ b ->
  exists a' b', s = a' ++ b' /\ toLowerCase a' = a /\ toLowerCase b' = b.
Proof.
  induction a as [|c a IH]; intros s b H.
  - exists [], s. auto.
  - apply toLowerCase_cons_inv in H as (c' & s' & -> & <- & H).
    apply IH in H as (a' & b' & -> & <- & <-).
    exists (c' :: a'), b'. auto.
Qed.

Lemma toLowerCase_nil_inv s : toLowerCase s <> [] -> s <> [].
Proof. intros H ->. apply H. reflexivity. Qed.

Lemma shape_of_match s g1 g2 :
  inRegex (toLowerCase s) = Some (g1, g2) -> MembershipShape s.
Proof.
  intros H. apply inRegex_sound in H
    as (ws0 & c0 & w & ws1 & ws2 & ws3 & ws4 & ws5 & E & _ & H0 & Hc0 & Hw
        & H1 & Hne1 & H2 & H3 & Hne & _ & H4 & H5).
  apply toLowerCase_app_inv in E as (ws0' & r & -> & <- & E).
  apply toLowerCase_app_inv in E as (ident & r' & -> & Eid & E).
  apply toLowerCase_cons_inv in Eid as (c0' & w' & -> & <- & <-).
  apply toLowerCase_app_inv in E as (ws1' & r & -> & <- & E).
  apply toLowerCase_app_inv in E as (kw & r' & -> & Ekw & E).
  apply toLowerCase_app_inv in E as (ws2' & r & -> & <- & E).
  apply toLowerCase_cons_inv in E as (p1 & r' & -> & Ep1 & E).
  apply toLowerChar_lparen in Ep1 as ->.
  apply toLowerCase_app_inv in E as (ws3' & r & -> & <- & E).
  apply toLowerCase_app_inv in E as (g2' & r' & -> & <- & E).
  apply toLowerCase_app_inv in E as (ws4' & r & -> & <- & E).
  apply toLowerCase_cons_inv in E as (p2 & ws5' & -> & Ep2 & <-).
  apply toLowerChar_rparen in Ep2 as ->.
  exists ws0', (c0' :: w'), ws1', kw, ws2', (ws3' ++ g2' ++ ws4'), ws5'.
  rewrite <- !app_assoc. split; [reflexivity|].
  apply (proj1 (blank_toLowerCase _)) in H0, H1, H2, H5.
  apply (proj1 (all_isWord_toLowerCase _)) in Hw.
  rewrite isIdStart_toLowerChar in Hc0.
  repeat split; auto.
  - exists c0', w'. rewrite isIdStart_spec. auto.
  - apply toLowerCase_nil_inv, Hne1.
  - apply toLowerCase_nil_inv in Hne. destruct ws3'; [|discriminate].
    destruct g2'; [contradiction|discriminate].
Qed.

Lemma match_of_shape s :
  all isDot s -> MembershipShape s -> inRegex (toLowerCase s) <> None.
Proof.
  intros Hdot (ws0 & ident & ws1 & kw & ws2 & body & ws3 & E & H0 & Hid & H1
               & Hne1 & Hkw & H2 & Hne & H3).
  destruct Hid as (c0 & w & -> & Hc0 & Hw). rewrite isIdStart_spec in Hc0.
  subst s.
  repeat (apply Forall_app in Hdot as [_ Hdot]).
  inversion Hdot as [|? ? _ Hdot']; subst.
  apply Forall_app in Hdot' as [Hbody _].
  rewrite !toLowerCase_app. cbn [toLowerCase map]. rewrite !toLowerCase_app.
  rewrite Hkw. change (toLowerChar "(") with "("%char.
  cbn [map]. change (toLowerChar ")") with ")"%char.
  apply (inRegex_complete (toLowerCase ws0) (toLowerChar c0) (toLowerCase w)
           (toLowerCase ws1) (toLowerCase ws2) (toLowerCase body)
           (toLowerCase ws3)).
  - apply blank_toLowerCase, H0.
  - rewrite isIdStart_toLowerChar. exact Hc0.
  - apply all_isWord_toLowerCase, Hw.
  - apply blank_toLowerCase, H1.
  - destruct ws1; [contradiction|discriminate].
  - apply blank_toLowerCase, H2.
  - destruct body; [contradiction|discriminate].
  - apply all_isDot_toLowerCase, Hbody.
  - apply blank_toLowerCase, H3.
Qed.

(** C7: the pattern takes for the body whatever stands before the last
    closing parenthesis of the span, so an OR-joined predicate that starts
    with a membership test and ends with a closing parenthesis is
    recognized.  The span [a in ('x') or b in ('y')] matches, with the
    second group ['x') or b in ('y']; recognition returns a constraint on
    [a] whose one value is [x) or b in (y]; the parser returns it for the
    table definition with [CHECK (a IN ('x') OR b IN ('y'))], and the
    registry holds it under [t.a]. *)
Theorem C7_or_joined_accepted :
  inRegex (L "a in ('x') or b in ('y')")
  = Some (L "a", L "'x') or b in ('y'") /\
  parseInConstraint (L "a in ('x') or b in ('y')")
  = Some {| column := L "a"; values := [L "x) or b in (y"] |} /\
  parseEnumConstraints
    (L "CREATE TABLE t (a TEXT, b TEXT, CHECK (a IN ('x') OR b IN ('y')))")
  = Some [ {| column := L "a"; values := [L "x) or b in (y"] |} ] /\
  entries
    [mkRow (L "t")
       (Some (L "CREATE TABLE t (a TEXT, b TEXT, CHECK (a IN ('x') OR b IN ('y')))"))]
    [L "t.a"; L "t.b"]
  = Some [Some [L "x) or b in (y"]; None].
Proof. repeat split; vm_compute; reflexivity. Qed.

(** ** Well-formed membership clauses *)

Lemma lastNonSpace_app a b : lastNonSpace b -> lastNonSpace (a ++ b).
Proof.
  intros (t & z & -> & Hz). exists (a ++ t), z.
  rewrite <- app_assoc. auto.
Qed.

Lemma trim_tight h t :
  isSpace h = false -> lastNonSpace (h :: t) -> trim (h :: t) = h :: t.
Proof.
  intros Hh (t' & z & E & Hz). unfold trim. cbn [trimStart]. rewrite Hh, E.
  apply trimEnd_snoc, Hz.
Qed.

Lemma isSpace_plain c : isSpace c = true -> isPlain c.
Proof.
  intros H. repeat split; intros ->; discriminate.
Qed.

Lemma blank_plain b : blank b -> Forall isPlain b.
Proof. induction 1; constructor; auto using isSpace_plain. Qed.

Lemma all_isDot_escapeQuote q v : all isDot v -> all isDot (escapeQuote q v).
Proof.
  induction 1 as [|c v Hc _ IH]; [constructor|].
  cbn [escapeQuote flat_map]. destruct (Ascii.eqb c q); repeat constructor; auto.
Qed.

Lemma render_head l :
  wfLiteral l -> exists h t, render l = h :: t /\ isSpace h = false.
Proof.
  intros (_ & Hl). destruct l as [q v|v]; cbn in *.
  - exists q, (escapeQuote q v ++ [q]). split; [reflexivity|].
    destruct Hl as [-> | ->]; reflexivity.
  - destruct Hl as (Hne & Htrim & _). apply (trimmed_ends v Hne Htrim).
Qed.

Lemma render_last l : wfLiteral l -> lastNonSpace (render l).
Proof.
  intros (_ & Hl). destruct l as [q v|v]; cbn in *.
  - exists (q :: escapeQuote q v), q. split; [reflexivity|].
    destruct Hl as [-> | ->]; reflexivity.
  - destruct Hl as (Hne & Htrim & _). apply (trimmed_ends v Hne Htrim).
Qed.

Lemma render_dot l : wfLiteral l -> all isDot (render l).
Proof.
  intros (Hdot & Hl). destruct l as [q v|v]; cbn in *; [|exact Hdot].
  assert (Hq : isDot q = true) by (destruct Hl as [-> | ->]; reflexivity).
  constructor; [exact Hq|]. apply Forall_app. split.
  - apply all_isDot_escapeQuote, Hdot.
  - constructor; [exact Hq|constructor].
Qed.

Lemma renderRest_dot items : Forall wfItem items -> all isDot (renderRest items).
Proof.
  induction 1 as [|i items ([_ H1] & [_ H2] & Hl) _ IH]; [constructor|].
  cbn [renderRest]. apply Forall_app. split; [exact H1|].
  constructor; [reflexivity|]. apply Forall_app. split; [exact H2|].
  apply Forall_app. split; [apply render_dot, Hl|exact IH].
Qed.

Lemma renderRest_last items x :
  Forall wfItem items -> lastNonSpace x -> lastNonSpace (x ++ renderRest items).
Proof.
  intros H. revert x. induction H as [|i items (_ & _ & Hl) _ IH]; intros x Hx.
  - rewrite app_nil_r. exact Hx.
  - cbn [renderRest].
    replace (x ++ gapBefore i ++ "," :: gapAfter i ++ render (literal i)
               ++ renderRest items)
      with ((x ++ gapBefore i ++ "," :: gapAfter i ++ render (literal i))
              ++ renderRest items).
    + apply IH. rewrite app_assoc.
      change ("," :: gapAfter i ++ render (literal i))
        with (("," :: gapAfter i) ++ render (literal i)).
      rewrite app_assoc. apply lastNonSpace_app, render_last, Hl.
    + rewrite <- !app_assoc. cbn [app]. rewrite <- !app_assoc. reflexivity.
Qed.

Lemma renderRest_head items q :
  Forall wfItem items -> q = "'" \/ q = dquote ->
  hd_error (renderRest items) <> Some q.
Proof.
  intros H Hq. destruct H as [|i items ([H1 _] & _) _]; [discriminate|].
  cbn [renderRest]. destruct (gapBefore i) as [|c b].
  - cbn. intros [= <-]. destruct Hq; discriminate.
  - cbn. intros [= ->]. inversion H1; subst.
    destruct Hq as [-> | ->]; discriminate.
Qed.

Lemma listBody_tight first items :
  wfLiteral first -> Forall wfItem items ->
  listBody first items <> [] /\
  trim (listBody first items) = listBody first items /\
  all isDot (listBody first items).
Proof.
  intros Hl Hi. unfold listBody.
  destruct (render_head first Hl) as (h & t & E & Hh).
  pose proof (renderRest_last items (render first) Hi (render_last first Hl)) as Hlast.
  split; [|split].
  - rewrite E. discriminate.
  - rewrite E in *. cbn [app] in *. apply trim_tight; assumption.
  - apply Forall_app. split; [apply render_dot, Hl|apply renderRest_dot, Hi].
Qed.

(** The tokenizer on a quoted literal whose quote characters are doubled. *)
Lemma tokLoop_escaped vs q v rest : forall cur,
  hd_error rest <> Some q ->
  tokLoop (quoted vs cur q) (escapeQuote q v ++ q :: rest)
  = tokLoop (unquoted vs (cur ++ v)) rest.
Proof.
  induction v as [|c v IH]; intros cur Hhd.
  - cbn [escapeQuote flat_map app]. rewrite app_nil_r.
    apply tokLoop_quoted_close, Hhd.
  - cbn [escapeQuote flat_map]. destruct (Ascii.eqb c q) eqn:E.
    + apply Ascii.eqb_eq in E. subst c. cbn [app].
      rewrite tokLoop_quoted_doubled.
      change (flat_map _ v) with (escapeQuote q v).
      rewrite IH by exact Hhd. rewrite <- app_assoc. reflexivity.
    + apply Ascii.eqb_neq in E. cbn [app].
      rewrite tokLoop_quoted_other by exact E.
      change (flat_map _ v) with (escapeQuote q v).
      rewrite IH by exact Hhd. rewrite <- app_assoc. reflexivity.
Qed.

Lemma tokLoop_literal vs cur l rest :
  wfLiteral l ->
  (forall q, q = "'" \/ q = dquote -> hd_error rest <> Some q) ->
  tokLoop (unquoted vs cur) (render l ++ rest)
  = tokLoop (unquoted vs (cur ++ litValue l)) rest.
Proof.
  intros (_ & Hl) Hhd. destruct l as [q v|v]; cbn [render litValue].
  - cbn [app]. rewrite tokLoop_open by exact Hl.
    rewrite <- app_assoc. cbn [app]. apply tokLoop_escaped, Hhd, Hl.
  - apply tokLoop_plain, Hl.
Qed.

Lemma pushTrimmed_keep vs b v b' :
  blank b -> blank b' -> pushTrimmed vs (b ++ v ++ b') = vs ++ keep v.
Proof.
  intros Hb Hb'. unfold pushTrimmed, keep.
  rewrite trim_app_blank by assumption.
  destruct (trim v); [rewrite app_nil_r|]; reflexivity.
Qed.

Lemma storedValues_trimmed vs :
  Forall (fun v => v <> [] /\ trim v = v) vs -> storedValues vs = vs.
Proof.
  induction 1 as [|v vs [Hne Htrim] _ IH]; [reflexivity|].
  cbn [storedValues flat_map]. unfold keep at 1. rewrite Htrim.
  fold (storedValues vs). rewrite IH. destruct v; [contradiction|reflexivity].
Qed.

(** The tokenizer on the rest of a well-formed list, after a literal. *)
Lemma tokLoop_rest items : forall vs b v,
  blank b -> Forall wfItem items ->
  let st := tokLoop (unquoted vs (b ++ v)) (renderRest items) in
  pushTrimmed (tvalues st) (currentValue st)
  = vs ++ keep v ++ storedValues (map (fun i => litValue (literal i)) items).
Proof.
  induction items as [|i items IH]; intros vs b v Hb Hwf.
  - cbn. rewrite app_nil_r. rewrite <- (app_nil_r (b ++ v)), <- app_assoc.
    apply pushTrimmed_keep; [exact Hb|constructor].
  - inversion Hwf as [|? ? ([H1 _] & [H2 _] & Hl) Hwf']; subst.
    cbn [renderRest map].
    rewrite tokLoop_plain by (apply blank_plain, H1).
    rewrite tokLoop_comma.
    rewrite <- app_assoc, pushTrimmed_keep by assumption.
    rewrite tokLoop_plain by (apply blank_plain, H2).
    rewrite tokLoop_literal;
      [|exact Hl|intros q Hq; apply renderRest_head; assumption].
    cbn [app].
    rewrite (IH (vs ++ keep v) (gapAfter i) (litValue (literal i)))
      by assumption.
    cbn [storedValues flat_map]. rewrite <- app_assoc. reflexivity.
Qed.

Lemma parseValueList_listBody first items :
  wfLiteral first -> Forall wfItem items ->
  parseValueList (listBody first items) = storedValues (listValues first items).
Proof.
  intros Hl Hi. unfold parseValueList, listBody.
  change tokInit with (unquoted [] []).
  rewrite tokLoop_literal;
    [|exact Hl|intros q Hq; apply renderRest_head; assumption].
  apply (tokLoop_rest items [] [] (litValue first)); [constructor|exact Hi].
Qed.

Lemma isIdentifier_classes ident :
  isIdentifier ident ->
  exists c w, ident = c :: w /\ isIdStart c = true /\ all isWord w.
Proof.
  intros (c & w & -> & Hc & Hw). rewrite isIdStart_spec in Hc. eauto.
Qed.

Lemma parseInConstraint_listBody
    (ws0 col ws1 ws2 ws3 ws4 ws5 : str) (first : Literal) (items : list Item) :
  blank ws0 -> isIdentifier col -> blank ws1 -> ws1 <> [] -> blank ws2 ->
  blank ws3 -> wfLiteral first -> Forall wfItem items ->
  blank ws4 -> blank ws5 ->
  parseInConstraint
    (ws0 ++ col ++ ws1 ++ L "in" ++ ws2 ++
     "(" :: ws3 ++ listBody first items ++ ws4 ++ ")" :: ws5)
  = match storedValues (listValues first items) with
    | [] => None
    | vs => Some {| column := col; values := vs |}
    end.
Proof.
  intros H0 Hid H1 Hne1 H2 H3 Hl Hi H4 H5.
  destruct (isIdentifier_classes col Hid) as (c0 & w & -> & Hc0 & Hw).
  destruct (listBody_tight first items Hl Hi) as (Hne & Htrim & Hdot).
  unfold parseInConstraint.
  rewrite inRegex_front by assumption.
  rewrite reBody_exact by assumption.
  rewrite parseValueList_listBody by assumption.
  destruct (listBody first items); [contradiction|].
  destruct (storedValues (listValues first items)); reflexivity.
Qed.

(** C6 (as amended): on a well-formed span [<col> in (v1, v2, ...)], with
    white space allowed around its parts, recognition returns the
    constraint of the column [<col>] with, in the order of the span, the
    values [v1, v2, ...] without the white space at their ends, those that
    are empty after trimming left out, and none when no value is left; when
    the values are non-empty and have no white space at their ends these
    are [v1, v2, ...] themselves.  Nothing is sorted at this stage.  The
    span is the one the scanner hands over: it is in lower case, so that
    the keyword reads [in]. *)
Theorem C6_recognize_well_formed
    (ws0 col ws1 ws2 ws3 ws4 ws5 : str) (first : Literal) (items : list Item) :
  blank ws0 -> isIdentifier col -> blank ws1 -> ws1 <> [] -> blank ws2 ->
  blank ws3 -> wfLiteral first -> Forall wfItem items ->
  blank ws4 -> blank ws5 ->
  let span := ws0 ++ col ++ ws1 ++ L "in" ++ ws2 ++
              "(" :: ws3 ++ listBody first items ++ ws4 ++ ")" :: ws5 in
  parseInConstraint span
  = match storedValues (listValues first items) with
    | [] => None
    | vs => Some {| column := col; values := vs |}
    end /\
  (Forall (fun v => v <> [] /\ trim v = v) (listValues first items) ->
   parseInConstraint span
   = Some {| column := col; values := listValues first items |}).
Proof.
  intros H0 Hid H1 Hne1 H2 H3 Hl Hi H4 H5 span.
  assert (E : parseInConstraint span
              = match storedValues (listValues first items) with
                | [] => None
                | vs => Some {| column := col; values := vs |}
                end)
    by (apply parseInConstraint_listBody; assumption).
  split; [exact E|].
  intros Hvs. rewrite E, (storedValues_trimmed _ Hvs). reflexivity.
Qed.

Lemma C6_recognize_well_formed_witness :
  parseInConstraint
    (L "status in ('b', " ++ dquote :: L "it's" ++ dquote :: L ",'a''c' , 12)")
  = Some {| column := L "status";
            values := [L "b"; L "it's"; L "a'c"; L "12"] |}.
Proof.
  refine (proj2 (C6_recognize_well_formed [] (L "status") (L " ") (L " ") [] [] []
           (Quoted "'" (L "b"))
           [ mkItem [] (L " ") (Quoted dquote (L "it's"));
             mkItem [] [] (Quoted "'" (L "a'c"));
             mkItem (L " ") (L " ") (Bare (L "12")) ]
           _ _ _ _ _ _ _ _ _ _) _).
  all: unfold isIdentifier, wfLiteral, wfItem, isGap, isPlain; vm_compute.
  all: repeat first
         [ discriminate | reflexivity | apply Forall_nil | apply Forall_cons
         | split | (left; reflexivity) | (right; reflexivity)
         | (eexists; eexists; split; [reflexivity|]) ].
Defined.

(** An empty literal is left out, and the white space at the ends of a
    quoted literal is not returned. *)
Lemma C6_counterexample :
  parseInConstraint (L "status in ('a', '', 'b')")
  = Some {| column := L "status"; values := [L "a"; L "b"] |} /\
  [L "a"; L "b"] <> [L "a"; L ""; L "b"] /\
  parseInConstraint (L "status in (' a ')")
  = Some {| column := L "status"; values := [L "a"] |} /\
  [L "a"] <> [L " a "].
Proof.
  split; [reflexivity|]. split; [vm_compute; discriminate|].
  split; [reflexivity|vm_compute; discriminate].
Qed.

(** ** The scanner *)

Lemma indexOfAt_spec pat s : forall i j,
  indexOfAt pat s i = Some j ->
  i <= j /\ startsWith pat (skipn (j - i) s) = true /\
  (forall n, n < j - i -> startsWith pat (skipn n s) = false).
Proof.
  induction s as [|c s IH]; intros i j H.
  - cbn [indexOfAt] in H. destruct (startsWith pat []) eqn:E; [|discriminate].
    injection H as <-. rewrite Nat.sub_diag. repeat split; auto. lia.
  - cbn [indexOfAt] in H. destruct (startsWith pat (c :: s)) eqn:E.
    + injection H as <-. rewrite Nat.sub_diag. repeat split; auto. lia.
    + apply IH in H as (Hle & Hat & Hbefore).
      replace (j - i) with (S (j - S i)) by lia.
      repeat split; [lia|exact Hat|].
      intros [|n] Hn; [exact E|]. apply Hbefore. lia.
Qed.

Lemma indexOfAt_complete pat s : forall i n,
  startsWith pat (skipn n s) = true ->
  (forall m, m < n -> startsWith pat (skipn m s) = false) ->
  n <= length s ->
  indexOfAt pat s i = Some (i + n).
Proof.
  induction s as [|c s IH]; intros i n Hat Hbefore Hlen.
  - cbn [length] in Hlen. assert (n = 0) as -> by lia.
    cbn [indexOfAt]. cbn [skipn] in Hat. rewrite Hat, Nat.add_0_r. reflexivity.
  - destruct n as [|n].
    + cbn [indexOfAt]. cbn [skipn] in Hat. rewrite Hat, Nat.add_0_r. reflexivity.
    + cbn [indexOfAt]. pose proof (Hbefore 0 ltac:(lia)) as H0.
      cbn [skipn] in H0. rewrite H0.
      replace (i + S n) with (S i + n) by lia. apply IH.
      * exact Hat.
      * intros m Hm. apply (Hbefore (S m)). lia.
      * cbn [length] in Hlen. lia.
Qed.

Lemma startsWith_length pat s : startsWith pat s = true -> length pat <= length s.
Proof.
  revert s. induction pat as [|p pat IH]; intros [|c s] H; cbn in *;
    try lia; try discriminate.
  apply andb_prop in H as [_ H]. apply IH in H. lia.
Qed.

(** [indexOf] answers the first index, not below [from], at which the
    pattern stands in the text; nothing else about the text counts. *)
Lemma indexOf_spec pat s from j :
  indexOf pat s from = Some j ->
  from <= j /\ startsWith pat (skipn j s) = true /\
  (forall n, from <= n < j -> startsWith pat (skipn n s) = false).
Proof.
  unfold indexOf. intros H. apply indexOfAt_spec in H as (Hle & Hat & Hbefore).
  rewrite skipn_skipn in Hat. replace (j - from + from) with j in Hat by lia.
  repeat split; [exact Hle|exact Hat|].
  intros n Hn. specialize (Hbefore (n - from) ltac:(lia)).
  rewrite skipn_skipn in Hbefore.
  replace (n - from + from) with n in Hbefore by lia. exact Hbefore.
Qed.

Lemma indexOf_first pat s from j :
  from <= j -> j <= length s ->
  startsWith pat (skipn j s) = true ->
  (forall n, from <= n < j -> startsWith pat (skipn n s) = false) ->
  indexOf pat s from = Some j.
Proof.
  intros Hle Hlen Hat Hbefore. unfold indexOf.
  replace j with (from + (j - from)) at 1 by lia.
  apply indexOfAt_complete.
  - rewrite skipn_skipn. replace (j - from + from) with j by lia. exact Hat.
  - intros m Hm. rewrite skipn_skipn. apply Hbefore. lia.
  - rewrite length_skipn. lia.
Qed.

Lemma indexOf_bound pat s from j :
  pat <> [] -> indexOf pat s from = Some j -> j < length s.
Proof.
  intros Hne H. apply indexOf_spec in H as (_ & Hat & _).
  apply startsWith_length in Hat. rewrite length_skipn in Hat.
  destruct pat; [contradiction|]. cbn [length] in Hat. lia.
Qed.

(** The extraction stops at the first closing parenthesis that brings the
    depth back to 0 and returns what stands before it. *)
Lemma extractLoop_Some s : forall depth content r,
  (1 <= depth)%Z ->
  extractLoop depth content s = Some r ->
  exists mid rest, s = mid ++ ")" :: rest /\ r = content ++ mid.
Proof.
  induction s as [|c s IH]; intros depth content r Hd H; [discriminate|].
  cbn [extractLoop] in H.
  destruct (Ascii.eqb c "(") eqn:E1.
  { apply IH in H as (mid & rest & -> & ->); [|lia].
    assert ((depth + 1 >? 1)%Z = true) as -> by lia.
    exists (c :: mid), rest. rewrite <- app_assoc. auto. }
  destruct (Ascii.eqb c ")") eqn:E2.
  { apply Ascii.eqb_eq in E2. subst c.
    destruct (depth - 1 =? 0)%Z eqn:E0.
    - injection H as <-. exists [], s. rewrite app_nil_r. auto.
    - apply IH in H as (mid & rest & -> & ->); [|lia].
      exists (")" :: mid), rest. rewrite <- app_assoc. auto. }
  assert ((depth >? 0)%Z = true) as Hpos by lia. rewrite Hpos in H.
  apply IH in H as (mid & rest & -> & ->); [|lia].
  exists (c :: mid), rest. rewrite <- app_assoc. auto.
Qed.

Lemma extractParenthesesContent_Some text oi content :
  startsWith (L "(") (skipn oi text) = true ->
  extractParenthesesContent text oi = Some content ->
  exists rest, skipn oi text = "(" :: content ++ ")" :: rest.
Proof.
  unfold extractParenthesesContent. intros Hat H.
  destruct (skipn oi text) as [|c s]; [discriminate|].
  unfold L in Hat. cbn [list_ascii_of_string startsWith] in Hat.
  rewrite andb_true_r in Hat. apply Ascii.eqb_eq in Hat. subst c.
  cbn [extractLoop] in H. change (Ascii.eqb "(" "(") with true in H.
  cbn [Z.add Z.gtb Z.compare Pos.compare Pos.compare_cont] in H.
  apply extractLoop_Some in H as (mid & rest & -> & ->); [|lia].
  exists rest. reflexivity.
Qed.

(** The extraction gives up exactly when the depth never comes back to 0. *)
Lemma extractLoop_None s : forall depth content,
  (1 <= depth)%Z ->
  extractLoop depth content s = None <->
  (forall n, 1 <= n -> (depth + balance (firstn n s))%Z <> 0%Z).
Proof.
  induction s as [|c s IH]; intros depth content Hd.
  - split; [|reflexivity]. intros _ n _. rewrite firstn_nil. cbn. lia.
  - assert (Hstep : forall d content',
              (1 <= d)%Z ->
              (d = depth + (if Ascii.eqb c "(" then 1
                            else if Ascii.eqb c ")" then -1 else 0))%Z ->
              extractLoop d content' s = None <->
              (forall n, 1 <= n ->
                 (depth + balance (firstn n (c :: s)))%Z <> 0%Z)).
    { intros d content' Hd' Ed. rewrite (IH d content' Hd').
      assert (Hb : forall n, balance (firstn (S n) (c :: s))
                             = (d - depth + balance (firstn n s))%Z).
      { intros n. cbn [firstn balance]. lia. }
      split.
      - intros H [|n] Hn; [lia|]. rewrite Hb. destruct n as [|n].
        + change (firstn 0 s) with (@nil ascii). cbn [balance]. lia.
        + specialize (H (S n) ltac:(lia)). lia.
      - intros H n Hn. specialize (H (S n) ltac:(lia)).
        rewrite Hb in H. lia. }
    cbn [extractLoop].
    destruct (Ascii.eqb c "(") eqn:E1; [apply Hstep; [lia|reflexivity]|].
    destruct (Ascii.eqb c ")") eqn:E2.
    + destruct (depth - 1 =? 0)%Z eqn:E0.
      * split; [discriminate|]. intros H. specialize (H 1 ltac:(lia)).
        change (firstn 1 (c :: s)) with [c] in H.
        cbn [balance] in H. rewrite E1, E2 in H. lia.
      * apply Hstep; [lia|reflexivity].
    + assert ((depth >? 0)%Z = true) as -> by lia.
      apply Hstep; [lia|cbv iota; lia].
Qed.

Lemma extractParenthesesContent_None text oi :
  startsWith (L "(") (skipn oi text) = true ->
  extractParenthesesContent text oi = None <-> unmatched text oi.
Proof.
  unfold extractParenthesesContent, unmatched. intros Hat.
  destruct (skipn oi text) as [|c s]; [discriminate|].
  unfold L in Hat. cbn [list_ascii_of_string startsWith] in Hat.
  rewrite andb_true_r in Hat. apply Ascii.eqb_eq in Hat. subst c.
  cbn [extractLoop]. change (Ascii.eqb "(" "(") with true.
  change (0 + 1 >? 1)%Z with false. change (0 + 1)%Z with 1%Z.
  rewrite (extractLoop_None s 1 [] ltac:(lia)). split.
  - intros H [|[|n]] Hn; [lia| |].
    + cbn. destruct s; cbn; lia.
    + specialize (H (S n) ltac:(lia)). cbn [firstn balance] in *.
      change (Ascii.eqb "(" "(") with true. cbn match. exact H.
  - intros H n Hn. specialize (H (S n) ltac:(lia)).
    cbn [firstn balance] in H. change (Ascii.eqb "(" "(") with true in H.
    cbn match in H. exact H.
Qed.

(** One iteration of the loop, case by case. *)
Lemma scanLoop_unmatched fuel text si acc ci oi :
  indexOf (L "check") text si = Some ci ->
  indexOf (L "(") text ci = Some oi ->
  extractParenthesesContent text oi = None ->
  scanLoop (S fuel) text si acc = scanLoop fuel text (oi + 1) acc.
Proof. intros H1 H2 H3. cbn [scanLoop]. rewrite H1, H2, H3. reflexivity. Qed.

Lemma scanLoop_span fuel text si acc ci oi content :
  indexOf (L "check") text si = Some ci ->
  indexOf (L "(") text ci = Some oi ->
  extractParenthesesContent text oi = Some content ->
  content <> [] ->
  scanLoop (S fuel) text si acc
  = scanLoop fuel text (oi + length content + 2)
      (pushConstraint acc (parseInConstraint content)).
Proof.
  intros H1 H2 H3 Hne. cbn [scanLoop]. rewrite H1, H2, H3.
  destruct content; [contradiction|reflexivity].
Qed.

Lemma scanLoop_progress text si ci oi :
  indexOf (L "check") text si = Some ci ->
  indexOf (L "(") text ci = Some oi ->
  si <= oi /\ oi < length text.
Proof.
  intros H1 H2.
  assert (oi < length text) by (apply (indexOf_bound (L "(") text ci); [easy|exact H2]).
  apply indexOf_spec in H1 as (? & _). apply indexOf_spec in H2 as (? & _).
  lia.
Qed.

(** The loop ends within [length text - searchIndex + 1] iterations. *)
Lemma scanLoop_total text : forall fuel si acc,
  length text - si < fuel -> exists r, scanLoop fuel text si acc = Some r.
Proof.
  induction fuel as [|fuel IH]; intros si acc Hfuel; [lia|].
  cbn [scanLoop].
  destruct (indexOf (L "check") text si) as [ci|] eqn:H1; [|eauto].
  destruct (indexOf (L "(") text ci) as [oi|] eqn:H2; [|eauto].
  destruct (scanLoop_progress text si ci oi H1 H2) as [Hle Hlt].
  destruct (extractParenthesesContent text oi) as [[|c content]|];
    apply IH; cbn [length]; lia.
Qed.

(** More fuel than that changes nothing. *)
Lemma scanLoop_fuel text : forall fuel fuel' si acc r,
  scanLoop fuel text si acc = Some r -> fuel <= fuel' ->
  scanLoop fuel' text si acc = Some r.
Proof.
  induction fuel as [|fuel IH]; intros fuel' si acc r H Hle; [discriminate|].
  destruct fuel' as [|fuel']; [lia|].
  cbn [scanLoop] in H |- *.
  destruct (indexOf (L "check") text si) as [ci|]; [|exact H].
  destruct (indexOf (L "(") text ci) as [oi|]; [|exact H].
  destruct (extractParenthesesContent text oi) as [[|c content]|];
    (apply (IH fuel'); [exact H|lia]).
Qed.

Lemma parseEnumConstraints_total sql : exists cs, parseEnumConstraints sql = Some cs.
Proof. apply scanLoop_total. lia. Qed.

Lemma scanLoop_enough_fuel text fuel si acc :
  length text - si < fuel ->
  scanLoop fuel text si acc = scanLoop (S (length text - si)) text si acc.
Proof.
  intros Hfuel.
  destruct (scanLoop_total text (S (length text - si)) si acc) as [r Hr]; [lia|].
  rewrite Hr. apply (scanLoop_fuel text _ _ _ _ _ Hr). lia.
Qed.

(** C3: scanning terminates on every input, within one iteration per code
    unit of the text left to scan, whatever larger bound is given; at a
    [check] whose opening parenthesis has no matching closing parenthesis
    the extraction yields no span, the iteration adds no constraint and
    scanning resumes just past that parenthesis, beyond the position it
    started from and beyond that [check]; a DDL text that ends inside
    [CHECK (status IN ('a','b'] gives no constraint and no registry
    entry. *)
Theorem C3_scan_terminates :
  (forall sql, exists cs, parseEnumConstraints sql = Some cs) /\
  (forall text fuel si acc, length text - si < fuel ->
     scanLoop fuel text si acc = scanLoop (S (length text - si)) text si acc) /\
  (forall fuel text si acc ci oi,
     indexOf (L "check") text si = Some ci ->
     indexOf (L "(") text ci = Some oi ->
     unmatched text oi ->
     extractParenthesesContent text oi = None /\
     scanLoop (S fuel) text si acc = scanLoop fuel text (oi + 1) acc /\
     si < oi + 1 /\ ci < oi + 1) /\
  parseEnumConstraints (L "CREATE TABLE t (status TEXT CHECK (status IN ('a','b'")
  = Some [] /\
  introspectCheckConstraintEnums
    [mkRow (L "t") (Some (L "CREATE TABLE t (status TEXT CHECK (status IN ('a','b'"))]
  = Some EnumCollection.empty.
Proof.
  split; [exact parseEnumConstraints_total|].
  split; [exact scanLoop_enough_fuel|].
  split; [|split; reflexivity].
  intros fuel text si acc ci oi H1 H2 H3.
  assert (Hnone : extractParenthesesContent text oi = None).
  { apply extractParenthesesContent_None; [|exact H3].
    apply (indexOf_spec _ _ _ _ H2). }
  split; [exact Hnone|].
  split; [apply (scanLoop_unmatched fuel text si acc ci oi); assumption|].
  destruct (scanLoop_progress text si ci oi H1 H2).
  apply indexOf_spec in H2 as (? & _). lia.
Qed.

Lemma C3_scan_terminates_witness :
  extractParenthesesContent (L "check (status in ('a','b'") 6 = None /\
  scanLoop 3 (L "check (status in ('a','b'") 0 []
  = scanLoop 2 (L "check (status in ('a','b'") 7 [] /\ 0 < 7 /\ 0 < 7.
Proof.
  destruct C3_scan_terminates as (_ & _ & Hstep & _).
  apply (Hstep 2 (L "check (status in ('a','b'") 0 [] 0 6);
    [reflexivity|reflexivity|].
  apply extractParenthesesContent_None; reflexivity.
Defined.

(** C10 (as amended): the scanner triggers on the occurrences of the five
    code units [check] that its cursor reaches: it starts from the first
    place, at or after the cursor, where they stand in the lower-cased
    text, and from the first opening parenthesis at or after that place;
    whatever surrounds the five code units plays no part.  The span
    extracted there is the text between that parenthesis and its matching
    closing one, and it goes to the recognizer.  A [check] inside a longer
    identifier or inside a quoted literal therefore starts a balanced-span
    extraction like the keyword does, and the span can be recognized as a
    constraint.  The cursor then stands past the closing parenthesis of the
    span: what stands inside the span is not scanned again. *)
Theorem C10_substring_trigger :
  (forall text from j,
     indexOf (L "check") text from = Some j <->
     from <= j /\ j <= length text /\
     startsWith (L "check") (skipn j text) = true /\
     (forall n, from <= n < j -> startsWith (L "check") (skipn n text) = false)) /\
  (forall fuel text si acc ci oi content,
     indexOf (L "check") text si = Some ci ->
     indexOf (L "(") text ci = Some oi ->
     extractParenthesesContent text oi = Some content ->
     content <> [] ->
     (exists rest, skipn oi text = "(" :: content ++ ")" :: rest) /\
     scanLoop (S fuel) text si acc
     = scanLoop fuel text (oi + length content + 2)
         (pushConstraint acc (parseInConstraint content))) /\
  parseEnumConstraints
    (L "CREATE TABLE t (checked INTEGER, kind TEXT DEFAULT (kind IN ('a','b')))")
  = Some [mkEnumConstraint (L "kind") [L "a"; L "b"]] /\
  parseEnumConstraints
    (L "CREATE TABLE t (note TEXT DEFAULT 'check', kind TEXT DEFAULT (kind IN ('a','b')))")
  = Some [mkEnumConstraint (L "kind") [L "a"; L "b"]].
Proof.
  split; [|split; [|split; reflexivity]].
  2:{ intros fuel text si acc ci oi content H1 H2 H3 Hne. split.
      - apply extractParenthesesContent_Some; [|exact H3].
        apply (indexOf_spec _ _ _ _ H2).
      - apply (scanLoop_span fuel text si acc ci oi); assumption. }
  intros text from j. split.
  - intros H.
    assert (j < length text)
      by (apply (indexOf_bound (L "check") text from); [easy|exact H]).
    apply indexOf_spec in H as (? & ? & ?). repeat split; auto. lia.
  - intros (? & ? & ? & ?). apply indexOf_first; assumption.
Qed.

Lemma C10_substring_trigger_witness :
  (exists rest,
     skipn 20 (L "checked int default (kind in ('a'))")
     = "(" :: L "kind in ('a')" ++ ")" :: rest) /\
  scanLoop 2 (L "checked int default (kind in ('a'))") 0 []
  = scanLoop 1 (L "checked int default (kind in ('a'))") 36
      (pushConstraint [] (parseInConstraint (L "kind in ('a')"))).
Proof.
  destruct C10_substring_trigger as (_ & Hstep & _).
  apply (Hstep 1 (L "checked int default (kind in ('a'))") 0 [] 0 20
           (L "kind in ('a')")); [reflexivity|reflexivity|reflexivity|].
  vm_compute. discriminate.
Defined.

(** In this text the five code units stand at the indices 13 (in the name
    of the table) and 33 (the keyword).  The scanner starts at 13, extracts
    the whole body of the table, which is not a membership clause, and
    stands at the end of the text after it: the keyword at 33 starts
    nothing, and the constraint found when the table has another name is
    not found. *)
Lemma C10_counterexample :
  let text :=
    normalize (L "CREATE TABLE checks (status TEXT CHECK (status IN ('a')))") in
  startsWith (L "check") (skipn 33 text) = true /\
  indexOf (L "check") text 0 = Some 13 /\
  indexOf (L "(") text 13 = Some 20 /\
  extractParenthesesContent text 20
  = Some (L "status text check (status in ('a'))") /\
  indexOf (L "check") text (20 + 35 + 2) = None /\
  parseEnumConstraints
    (L "CREATE TABLE checks (status TEXT CHECK (status IN ('a')))")
  = Some [] /\
  parseEnumConstraints
    (L "CREATE TABLE t (status TEXT CHECK (status IN ('a')))")
  = Some [mkEnumConstraint (L "status") [L "a"]].
Proof. repeat split; vm_compute; reflexivity. Qed.

(** ** Where the code units of the results come from *)

Section Provenance.
Variable Q : ascii -> Prop.

Lemma Forall_skipn' (s : str) n : Forall Q s -> Forall Q (skipn n s).
Proof.
  intros H. revert n. induction H as [|c s Hc Hs IH]; intros [|n]; cbn [skipn];
    try constructor; auto.
Qed.

Lemma trimStart_Forall s : Forall Q s -> Forall Q (trimStart s).
Proof.
  induction 1 as [|c s Hc Hs IH]; [constructor|].
  cbn [trimStart]. destruct (isSpace c); auto.
Qed.

Lemma trimEnd_Forall s : Forall Q s -> Forall Q (trimEnd s).
Proof.
  induction 1 as [|c s Hc Hs IH]; [constructor|].
  cbn [trimEnd]. destruct (trimEnd s); [destruct (isSpace c)|]; auto.
Qed.

Lemma trim_Forall s : Forall Q s -> Forall Q (trim s).
Proof. intros H. apply trimEnd_Forall, trimStart_Forall, H. Qed.

Lemma pushTrimmed_Forall vs cur :
  Forall (Forall Q) vs -> Forall Q cur -> Forall (Forall Q) (pushTrimmed vs cur).
Proof.
  intros Hvs Hcur. unfold pushTrimmed.
  pose proof (trim_Forall cur Hcur) as Ht.
  destruct (trim cur); [exact Hvs|].
  apply Forall_app. split; [exact Hvs|]. constructor; [exact Ht|constructor].
Qed.

Lemma parseValueList_Forall s :
  Forall Q s -> Forall (Forall Q) (parseValueList s).
Proof.
  intros Hs. unfold parseValueList.
  destruct (tokLoop_invariant Q
              (fun vs cur => Forall (Forall Q) vs /\ Forall Q cur)) with
    (s := s) (st := tokInit) as [Hvs Hcur].
  - intros vs cur c Hc [H1 H2]. split; [exact H1|].
    apply Forall_app. split; [exact H2|]. constructor; [exact Hc|constructor].
  - intros vs cur [H1 H2]. split; [|constructor].
    apply pushTrimmed_Forall; assumption.
  - exact Hs.
  - split; constructor.
  - apply pushTrimmed_Forall; assumption.
Qed.

Lemma extractLoop_Forall s : forall depth content r,
  Forall Q s -> Forall Q content ->
  extractLoop depth content s = Some r -> Forall Q r.
Proof.
  induction s as [|c s IH]; intros depth content r Hs Hcontent H;
    [discriminate|].
  inversion Hs as [|? ? Hc Hs']; subst.
  assert (Hsnoc : Forall Q (content ++ [c])).
  { apply Forall_app. split; [exact Hcontent|]. constructor; [exact Hc|constructor]. }
  cbn [extractLoop] in H.
  destruct (Ascii.eqb c "(").
  { destruct (depth + 1 >? 1)%Z.
    - exact (IH _ _ _ Hs' Hsnoc H).
    - exact (IH _ _ _ Hs' Hcontent H). }
  destruct (Ascii.eqb c ")").
  { destruct (depth - 1 =? 0)%Z; [injection H as <-; exact Hcontent|].
    exact (IH _ _ _ Hs' Hsnoc H). }
  destruct (depth >? 0)%Z.
  - exact (IH _ _ _ Hs' Hsnoc H).
  - exact (IH _ _ _ Hs' Hcontent H).
Qed.

Lemma extractParenthesesContent_Forall text i r :
  Forall Q text -> extractParenthesesContent text i = Some r -> Forall Q r.
Proof.
  intros Ht H.
  apply (extractLoop_Forall _ 0%Z [] _ (Forall_skipn' text i Ht)); [constructor|].
  exact H.
Qed.

Lemma parseInConstraint_Forall content c :
  Forall Q content -> parseInConstraint content = Some c ->
  Forall Q (column c) /\ Forall (Forall Q) (values c).
Proof.
  intros Hc H. unfold parseInConstraint in H.
  destruct (inRegex content) as [[g1 g2]|] eqn:E; [|discriminate].
  apply inRegex_sound in E
    as (ws0 & c0 & w & ws1 & ws2 & ws3 & ws4 & ws5 & -> & -> & _).
  destruct (isEmpty (c0 :: w) || isEmpty g2); [discriminate|].
  destruct (0 <? length (parseValueList g2)); [|discriminate].
  injection H as <-. cbn [column values].
  apply Forall_app in Hc as [_ Hc]. apply Forall_app in Hc as [Hg1 Hc].
  repeat (apply Forall_app in Hc as [_ Hc]).
  inversion Hc as [|? ? _ Hc']; subst.
  apply Forall_app in Hc' as [_ Hc']. apply Forall_app in Hc' as [Hg2 _].
  split; [exact Hg1|apply parseValueList_Forall, Hg2].
Qed.

(** Every constraint the scanner returns was recognized in a span cut out
    of the text. *)
Lemma scanLoop_invariant (P : EnumConstraint -> Prop) text :
  Forall Q text ->
  (forall content c,
     Forall Q content -> parseInConstraint content = Some c -> P c) ->
  forall fuel si acc r,
    Forall P acc -> scanLoop fuel text si acc = Some r -> Forall P r.
Proof.
  intros Ht HP. induction fuel as [|fuel IH]; intros si acc r Hacc H;
    [discriminate|].
  cbn [scanLoop] in H.
  destruct (indexOf (L "check") text si) as [ci|];
    [|injection H as <-; exact Hacc].
  destruct (indexOf (L "(") text ci) as [oi|];
    [|injection H as <-; exact Hacc].
  destruct (extractParenthesesContent text oi) as [[|d content]|] eqn:E;
    try (eapply IH; eassumption).
  eapply IH; [|exact H].
  destruct (parseInConstraint (d :: content)) as [c|] eqn:Ec; [|exact Hacc].
  cbn [pushConstraint]. apply Forall_app. split; [exact Hacc|].
  constructor; [|constructor].
  apply (HP (d :: content)); [|exact Ec].
  apply (extractParenthesesContent_Forall text oi); assumption.
Qed.
End Provenance.

Lemma isLowered_Forall s : isLowered s <-> Forall (fun c => toLowerChar c = c) s.
Proof.
  unfold isLowered, toLowerCase. induction s as [|c s IH]; cbn [map].
  - split; [constructor|reflexivity].
  - split.
    + intros [= Hc Hs]. constructor; [exact Hc|apply IH, Hs].
    + intros H. inversion H as [|? ? Hc Hs]; subst.
      rewrite Hc. f_equal. apply IH, Hs.
Qed.

Lemma normalize_lowered sql : Forall (fun c => toLowerChar c = c) (normalize sql).
Proof.
  unfold normalize, toLowerCase. apply Forall_map.
  induction (replaceAllWs sql); constructor; auto using toLowerChar_idem.
Qed.

Lemma replaceWs_toLowerCase s : forall inRun,
  replaceWs inRun (toLowerCase s) = toLowerCase (replaceWs inRun s).
Proof.
  unfold toLowerCase. induction s as [|c s IH]; intros inRun; [reflexivity|].
  cbn [map replaceWs]. rewrite isSpace_toLowerChar.
  destruct (isSpace c); [destruct inRun|]; cbn [map]; rewrite IH; reflexivity.
Qed.

Lemma normalize_toLowerCase sql : normalize (toLowerCase sql) = normalize sql.
Proof.
  unfold normalize, replaceAllWs. rewrite replaceWs_toLowerCase.
  unfold toLowerCase. rewrite map_map. apply map_ext, toLowerChar_idem.
Qed.

(** The text the scanner works on has no line terminator, and no white
    space other than the space. *)
Lemma replaceWs_spaces s : forall inRun,
  Forall (fun c => isSpace c = true -> c = " "%char) (replaceWs inRun s).
Proof.
  induction s as [|c s IH]; intros inRun; [constructor|].
  cbn [replaceWs]. destruct (isSpace c) eqn:Ec.
  - destruct inRun; [apply IH|]. constructor; [reflexivity|apply IH].
  - constructor; [congruence|apply IH].
Qed.

Lemma nonspace_isDot c : isSpace c = false -> isDot c = true.
Proof. each_ascii c. Qed.

Lemma normalize_isDot sql : all isDot (normalize sql).
Proof.
  unfold normalize. apply all_isDot_toLowerCase.
  eapply List.Forall_impl; [|apply (replaceWs_spaces sql false)].
  intros c Hc. destruct (isSpace c) eqn:E.
  - rewrite (Hc E). reflexivity.
  - apply nonspace_isDot, E.
Qed.

(** A span the scanner hands to the recognizer is in lower case and has no
    line terminator. *)
Lemma scanner_span_normal sql i content :
  extractParenthesesContent (normalize sql) i = Some content ->
  toLowerCase content = content /\ all isDot content.
Proof.
  intros H. split.
  - apply isLowered_Forall.
    exact (extractParenthesesContent_Forall _ _ _ _ (normalize_lowered sql) H).
  - exact (extractParenthesesContent_Forall _ _ _ _ (normalize_isDot sql) H).
Qed.

(** ** Sorting *)

Lemma strLe_total a : forall b, strLe a b = false -> strLe b a = true.
Proof.
  induction a as [|x a IH]; intros [|y b] H; cbn in *; try discriminate;
    try reflexivity.
  destruct (code x <? code y)%N eqn:E1; [discriminate|].
  destruct (code y <? code x)%N eqn:E2; [reflexivity|].
  apply IH, H.
Qed.

Lemma strLe_trans a : forall b c,
  strLe a b = true -> strLe b c = true -> strLe a c = true.
Proof.
  induction a as [|x a IH]; intros [|y b] [|z c] H1 H2; cbn in *;
    try discriminate; try reflexivity.
  destruct (code x <? code y)%N eqn:Exy, (code y <? code z)%N eqn:Eyz,
           (code x <? code z)%N eqn:Exz; try reflexivity;
    destruct (code y <? code x)%N eqn:Eyx; try discriminate;
    destruct (code z <? code y)%N eqn:Ezy; try discriminate;
    destruct (code z <? code x)%N eqn:Ezx;
    rewrite ?N.ltb_lt, ?N.ltb_ge in *; try lia.
  eapply IH; eassumption.
Qed.

Lemma strLe_antisym a : forall b,
  strLe a b = true -> strLe b a = true -> a = b.
Proof.
  induction a as [|x a IH]; intros [|y b] H1 H2; cbn in *;
    try discriminate; try reflexivity.
  destruct (code x <? code y)%N eqn:Exy, (code y <? code x)%N eqn:Eyx;
    try discriminate; rewrite ?N.ltb_lt, ?N.ltb_ge in *; try lia.
  assert (code x = code y) as Hc by lia.
  unfold code in Hc. apply (f_equal ascii_of_N) in Hc.
  rewrite !ascii_N_embedding in Hc. subst y. f_equal. apply IH; assumption.
Qed.

Lemma insertSorted_perm x l : Permutation (x :: l) (insertSorted x l).
Proof.
  induction l as [|y l IH]; [reflexivity|].
  cbn [insertSorted]. destruct (strLe x y); [reflexivity|].
  rewrite perm_swap. apply perm_skip, IH.
Qed.

Lemma sort_perm l : Permutation l (sort l).
Proof.
  induction l as [|x l IH]; [reflexivity|].
  cbn [sort]. rewrite <- insertSorted_perm. apply perm_skip, IH.
Qed.

Lemma insertSorted_sorted x l :
  StronglySorted strLeP l -> StronglySorted strLeP (insertSorted x l).
Proof.
  induction 1 as [|y l Hl IH Hy]; cbn [insertSorted].
  - repeat constructor.
  - destruct (strLe x y) eqn:E.
    + constructor; [constructor; assumption|].
      constructor; [exact E|].
      eapply List.Forall_impl; [|exact Hy].
      intros z Hz. exact (strLe_trans x y z E Hz).
    + constructor; [exact IH|].
      apply (Permutation_Forall (insertSorted_perm x l)).
      constructor; [apply strLe_total, E|exact Hy].
Qed.

Lemma sort_sorted l : StronglySorted strLeP (sort l).
Proof.
  induction l as [|x l IH]; [constructor|]. apply insertSorted_sorted, IH.
Qed.

Lemma sort_nonempty l : l <> [] -> sort l <> [].
Proof.
  intros Hne E. pose proof (sort_perm l) as Hp. rewrite E in Hp.
  apply Permutation_sym, Permutation_nil in Hp. contradiction.
Qed.

Lemma sort_Forall (P : str -> Prop) l : Forall P l -> Forall P (sort l).
Proof. apply Permutation_Forall, sort_perm. Qed.

(** ** The registry *)

(** What holds of every key and list of values the registry builder stores
    holds of every entry of the registry it returns. *)
Lemma fold_storeConstraint_invariant (P : str -> list str -> Prop) name cs :
  forall enums : gmap str (list str),
    map_Forall P enums ->
    Forall (fun c => P (name ++ L "." ++ column c) (sort (values c))) cs ->
    map_Forall P (fold_left (storeConstraint name) cs enums).
Proof.
  induction cs as [|c cs IH]; intros enums Hm Hcs; [exact Hm|].
  inversion Hcs as [|? ? Hc Hcs']; subst. cbn [fold_left].
  apply IH; [|exact Hcs'].
  unfold storeConstraint, EnumCollection.set.
  apply map_Forall_insert_2; assumption.
Qed.

Lemma introspectRows_invariant (P : str -> list str -> Prop) :
  (forall name sql cs, parseEnumConstraints sql = Some cs ->
     Forall (fun c => P (name ++ L "." ++ column c) (sort (values c))) cs) ->
  forall rows (enums enums' : gmap str (list str)),
    map_Forall P enums ->
    introspectRows enums rows = Some enums' ->
    map_Forall P enums'.
Proof.
  intros HP. induction rows as [|row rows IH]; intros enums enums' Hm H.
  - injection H as <-. exact Hm.
  - cbn [introspectRows] in H.
    destruct (introspectRow enums row) as [enums1|] eqn:E; [|discriminate].
    apply (IH enums1); [|exact H].
    unfold introspectRow in E.
    destruct (row_sql row) as [[|d sql]|]; try (injection E as <-; exact Hm).
    destruct (parseEnumConstraints (d :: sql)) as [cs|] eqn:Ecs; [|discriminate].
    injection E as <-.
    apply fold_storeConstraint_invariant; [exact Hm|]. apply (HP _ _ _ Ecs).
Qed.

Lemma introspectRows_total rows : forall enums,
  exists enums', introspectRows enums rows = Some enums'.
Proof.
  induction rows as [|row rows IH]; intros enums; [eexists; reflexivity|].
  cbn [introspectRows]. unfold introspectRow.
  destruct (row_sql row) as [[|d sql]|]; try apply IH.
  destruct (parseEnumConstraints_total (d :: sql)) as [cs ->]. apply IH.
Qed.

(** ** Casing *)

Lemma parseEnumConstraints_lowered sql cs :
  parseEnumConstraints sql = Some cs -> Forall lowerConstraint cs.
Proof.
  unfold parseEnumConstraints. intros H.
  apply (scanLoop_invariant (fun c => toLowerChar c = c) lowerConstraint
           (normalize sql) (normalize_lowered sql)) in H; [exact H| |constructor].
  intros content c Hcontent Hc.
  destruct (parseInConstraint_Forall _ content c Hcontent Hc) as [H1 H2].
  split; [apply isLowered_Forall, H1|].
  eapply List.Forall_impl; [|exact H2]. intros v. apply isLowered_Forall.
Qed.

(** C1: the casing of the DDL text is not kept.  For the table [T] with
    the column [Status] and [CHECK (Status IN ('Active', 'On  Hold'))] the
    parser returns the column [status] with the values [active] and
    [on hold]: the text it normalized for the search of the keyword is the
    text it cuts the results from.  The registry holds the values under
    [T.status] and nothing under [T.Status]; with the registry as the
    specification has it, the lookup of the enricher, made with the name as
    the column descriptor has it, finds nothing, and the column [Status]
    gets null. *)
Theorem C1_casing_lost :
  parseEnumConstraints casedSql
  = Some [ {| column := L "status"; values := [L "active"; L "on hold"] |} ] /\
  entries casedRows [L "T.status"; L "T.Status"]
  = Some [Some [L "active"; L "on hold"]; None] /\
  introspect (VRef 3) casedRows casedHeap
  = Some
      (mkDatabaseMetadata (VRef 7),
       casedHeap ++
       [ CObj (<["enumValues"%string := VNull]>
                 {[ "name"%string := VStr (L "Status");
                    "dataType"%string := VStr (L "TEXT") ]});
         CArr [VRef 4];
         CObj (<["columns"%string := VRef 5]>
                 {[ "name"%string := VStr (L "T"); "columns"%string := VRef 1 ]});
         CArr [VRef 6] ]).
Proof. repeat split; vm_compute; reflexivity. Qed.

(** ** Stored values *)

(** A sorted list is determined by its elements: whatever algorithm
    [Array.prototype.sort] runs, it returns [sort l]. *)
Lemma sorted_perm_unique l1 : forall l2,
  StronglySorted strLeP l1 -> StronglySorted strLeP l2 ->
  Permutation l1 l2 -> l1 = l2.
Proof.
  induction l1 as [|x l1 IH]; intros l2 H1 H2 Hp.
  - apply Permutation_nil in Hp. subst. reflexivity.
  - destruct l2 as [|y l2].
    + apply Permutation_sym, Permutation_nil in Hp. discriminate.
    + apply StronglySorted_inv in H1 as [H1 Hx].
      apply StronglySorted_inv in H2 as [H2 Hy].
      assert (x = y) as <-.
      { assert (Hxin : In x (y :: l2))
          by (apply (Permutation_in _ Hp); left; reflexivity).
        assert (Hyin : In y (x :: l1))
          by (apply (Permutation_in _ (Permutation_sym Hp)); left; reflexivity).
        destruct Hxin as [->|Hxin]; [reflexivity|].
        destruct Hyin as [->|Hyin]; [reflexivity|].
        apply strLe_antisym.
        - exact (proj1 (List.Forall_forall _ _) Hx y Hyin).
        - exact (proj1 (List.Forall_forall _ _) Hy x Hxin). }
      f_equal. apply IH; [exact H1|exact H2|].
      exact (Permutation_cons_inv Hp).
Qed.

Lemma sort_unique l l' :
  Permutation l l' -> StronglySorted strLeP l' -> l' = sort l.
Proof.
  intros Hp Hs. apply sorted_perm_unique; [exact Hs|apply sort_sorted|].
  rewrite <- Hp. apply sort_perm.
Qed.








(** ** The metadata enricher *)

Lemma bind_run {A B} (m : M A) (k : A -> M B) h a h1 :
  m h = Some (a, h1) -> bind m k h = k a h1.
Proof. intros H. unfold bind. rewrite H. reflexivity. Qed.

Lemma readObj_run (h : heap) l o :
  h !! l = Some (CObj o) -> readObj (VRef l) h = Some (o, h).
Proof. intros H. unfold readObj. rewrite H. reflexivity. Qed.

Lemma readArr_run (h : heap) l a :
  h !! l = Some (CArr a) -> readArr (VRef l) h = Some (a, h).
Proof. intros H. unfold readArr. rewrite H. reflexivity. Qed.

Lemma fieldStr_run (o : gmap string value) f s (h : heap) :
  o !! f = Some (VStr s) -> fieldStr o f h = Some (s, h).
Proof. intros H. unfold fieldStr. rewrite H. reflexivity. Qed.

Lemma field_run (o : gmap string value) f v (h : heap) :
  o !! f = Some v -> field o f h = Some (v, h).
Proof. intros H. unfold field. rewrite H. reflexivity. Qed.

Lemma heap_lookup_ext (h new : heap) l c :
  h !! l = Some c -> (h ++ new) !! l = Some c.
Proof. apply lookup_app_l_Some. Qed.

Lemma heap_lookup_fresh (h : heap) c new :
  (h ++ c :: new) !! length h = Some c.
Proof. apply list_lookup_middle. reflexivity. Qed.

Lemma sameExcept_insert f v (o : gmap string value) :
  sameExcept f o (<[f := v]> o).
Proof. intros g Hg. apply lookup_insert_ne. congruence. Qed.

Lemma enrichedColumn_ext enums tname h h' new c c' :
  enrichedColumn enums tname h h' c c' ->
  enrichedColumn enums tname h (h' ++ new) c c'.
Proof.
  intros (l & o & cname & l' & o' & ? & ? & ? & ? & ? & Hl' & ? & ?).
  exists l, o, cname, l', o'. repeat split; auto using heap_lookup_ext.
Qed.

Lemma enrichedTable_ext enums h h' new t t' :
  enrichedTable enums h h' t t' -> enrichedTable enums h (h' ++ new) t t'.
Proof.
  intros (l & o & tname & cl & cols & l' & o' & cl' & cols'
          & ? & ? & ? & ? & ? & ? & ? & ? & ? & ? & ? & ? & Hcols).
  exists l, o, tname, cl, cols, l', o', cl', cols'.
  repeat split; auto using heap_lookup_ext.
  eapply Forall2_impl; [exact Hcols|].
  intros c c'. apply enrichedColumn_ext.
Qed.

Lemma extends_app h0 h new : extends h0 h -> extends h0 (h ++ new).
Proof. intros [mid ->]. exists (mid ++ new). symmetry. apply app_assoc. Qed.

(** [a.map(f)] on a heap that extends [h0], when every callback only
    allocates. *)
Lemma mapM_run (f : value -> M value) (h0 : heap) (I : value -> Prop)
    (R : heap -> value -> value -> Prop) :
  (forall hf new x y, R hf x y -> R (hf ++ new) x y) ->
  (forall x h, I x -> extends h0 h ->
     exists y new, f x h = Some (y, h ++ new) /\ R (h ++ new) x y) ->
  forall l h, Forall I l -> extends h0 h ->
    exists l' new, mapM f l h = Some (l', h ++ new) /\
                   Forall2 (R (h ++ new)) l l'.
Proof.
  intros Hmono Hf. induction l as [|x l IH]; intros h Hl Hext.
  - exists [], []. rewrite app_nil_r. split; [reflexivity|constructor].
  - inversion Hl as [|? ? Hx Hl']; subst.
    destruct (Hf x h Hx Hext) as (y & new1 & Hy & Rxy).
    destruct (IH (h ++ new1) Hl' (extends_app _ _ _ Hext))
      as (l' & new2 & Hl2 & Rl).
    exists (y :: l'), (new1 ++ new2). rewrite app_assoc.
    cbn [mapM]. rewrite (bind_run _ _ _ _ _ Hy).
    rewrite (bind_run _ _ _ _ _ Hl2). unfold ret.
    split; [reflexivity|].
    constructor; [apply Hmono, Rxy|exact Rl].
Qed.

Lemma arrayMap_run (f : value -> M value) (h h' : heap) l a a' :
  h !! l = Some (CArr a) -> mapM f a h = Some (a', h') ->
  arrayMap f (VRef l) h = Some (VRef (length h'), h' ++ [CArr a']).
Proof.
  intros Hl Hmap. unfold arrayMap.
  rewrite (bind_run _ _ _ _ _ (readArr_run _ _ _ Hl)).
  rewrite (bind_run _ _ _ _ _ Hmap). reflexivity.
Qed.

Lemma enrichColumn_run enums (h0 mid : heap) lt t tname c :
  h0 !! lt = Some (CObj t) -> t !! "name"%string = Some (VStr tname) ->
  isColumn h0 c ->
  exists y new,
    enrichColumn enums (VRef lt) c (h0 ++ mid) = Some (y, (h0 ++ mid) ++ new) /\
    enrichedColumn enums tname h0 ((h0 ++ mid) ++ new) c y.
Proof.
  intros Ht Htn (l & o & cname & -> & Ho & Hcn).
  eexists _, [_]. split.
  - unfold enrichColumn.
    rewrite (bind_run _ _ _ _ _ (readObj_run _ _ _ (heap_lookup_ext _ mid _ _ Ht))).
    rewrite (bind_run _ _ _ _ _ (readObj_run _ _ _ (heap_lookup_ext _ mid _ _ Ho))).
    rewrite (bind_run _ _ _ _ _ (fieldStr_run _ _ _ _ Htn)).
    rewrite (bind_run _ _ _ _ _ (fieldStr_run _ _ _ _ Hcn)).
    reflexivity.
  - exists l, o, cname, (length (h0 ++ mid)),
      (<["enumValues"%string :=
           ofEnumValues (EnumCollection.get enums (tname ++ L "." ++ cname))]> o).
    repeat split; try assumption; try reflexivity.
    + rewrite length_app. lia.
    + apply heap_lookup_fresh.
    + apply lookup_insert_eq.
    + apply sameExcept_insert.
Qed.

Lemma enrichTable_run enums (h0 mid : heap) t :
  isTable h0 t ->
  exists y new,
    enrichTable enums t (h0 ++ mid) = Some (y, (h0 ++ mid) ++ new) /\
    enrichedTable enums h0 ((h0 ++ mid) ++ new) t y.
Proof.
  intros (l & o & tname & cl & cols & -> & Ho & Htn & Hcl & Hcols & Hwf).
  destruct (mapM_run (enrichColumn enums (VRef l)) h0 (isColumn h0)
              (fun hf => enrichedColumn enums tname h0 hf)) with
    (l := cols) (h := h0 ++ mid) as (cols' & new & Hmap & Rcols).
  - intros hf new x y. apply enrichedColumn_ext.
  - intros x h' Hx [mid' ->].
    apply (enrichColumn_run enums h0 mid' l o tname x); assumption.
  - exact Hwf.
  - exists mid. reflexivity.
  - remember ((h0 ++ mid) ++ new) as h1 eqn:Eh1.
    assert (Hlen : length h0 <= length h1)
      by (subst h1; rewrite !length_app; lia).
    exists (VRef (S (length h1))),
      (new ++ [CArr cols'; CObj (<["columns"%string := VRef (length h1)]> o)]).
    assert (Hfinal : forall a b, (h0 ++ mid) ++ new ++ [a; b] = (h1 ++ [a]) ++ [b]).
    { intros a b. subst h1. rewrite <- !app_assoc. reflexivity. }
    rewrite Hfinal. split.
    + unfold enrichTable.
      rewrite (bind_run _ _ _ _ _ (readObj_run _ _ _ (heap_lookup_ext _ mid _ _ Ho))).
      rewrite (bind_run _ _ _ _ _ (field_run _ _ _ _ Hcl)).
      rewrite (bind_run _ _ _ _ _
                 (arrayMap_run _ _ _ _ _ _ (heap_lookup_ext _ mid _ _ Hcols) Hmap)).
      unfold alloc. rewrite (length_app _ [_]). cbn [length].
      rewrite Nat.add_1_r. reflexivity.
    + exists l, o, tname, cl, cols, (S (length h1)),
        (<["columns"%string := VRef (length h1)]> o), (length h1), cols'.
      split; [reflexivity|]. split; [exact Ho|]. split; [exact Htn|].
      split; [exact Hcl|]. split; [exact Hcols|]. split; [reflexivity|].
      split; [lia|]. split.
      { replace (S (length h1)) with (length (h1 ++ [CArr cols']))
          by (rewrite (length_app _ [_]); cbn [length]; lia).
        apply heap_lookup_fresh. }
      split; [apply lookup_insert_eq|]. split; [apply sameExcept_insert|].
      split; [exact Hlen|]. split.
      { rewrite <- app_assoc. apply heap_lookup_fresh. }
      rewrite <- app_assoc. eapply Forall2_impl; [exact Rcols|].
      intros c c'. apply enrichedColumn_ext.
Qed.

Lemma createDatabaseMetadata_run enums (h : heap) rawTables :
  isTables h rawTables ->
  exists out new,
    createDatabaseMetadata enums rawTables h
    = Some (mkDatabaseMetadata out, h ++ new) /\
    enrichedTables enums h (h ++ new) rawTables out.
Proof.
  intros (l & ts & -> & Hts & Hwf).
  destruct (mapM_run (enrichTable enums) h (isTable h)
              (fun hf => enrichedTable enums h hf)) with
    (l := ts) (h := h) as (ts' & new & Hmap & Rts).
  - intros hf new x y. apply enrichedTable_ext.
  - intros x h' Hx [mid ->]. apply enrichTable_run, Hx.
  - exact Hwf.
  - exists []. symmetry. apply app_nil_r.
  - exists (VRef (length (h ++ new))), (new ++ [CArr ts']). split.
    + unfold createDatabaseMetadata.
      rewrite (bind_run _ _ _ _ _ (arrayMap_run _ _ _ _ _ _ Hts Hmap)).
      unfold ret. rewrite <- app_assoc. reflexivity.
    + exists l, ts, (length (h ++ new)), ts'.
      repeat split; try assumption; try reflexivity.
      * rewrite length_app. lia.
      * rewrite app_assoc. apply heap_lookup_fresh.
      * rewrite app_assoc. eapply Forall2_impl; [exact Rts|].
        intros t t'. apply enrichedTable_ext.
Qed.

(** C9: on table descriptors of the declared types
    [createDatabaseMetadata] returns; it leaves every cell of the heap as
    it was and puts its results in new cells; the result is a new array
    with, for every table in order, a new object that has the properties of
    the table, [columns] apart, and for every column in order a new object
    that has the properties of the column and [enumValues], which is the
    entry of the registry under [table.name + "." + column.name] or null. *)
Theorem C9_enrichment_projection
    (enums : gmap str (list str)) (h : heap) (rawTables : value) :
  isTables h rawTables ->
  exists out h',
    createDatabaseMetadata enums rawTables h
    = Some (mkDatabaseMetadata out, h') /\
    (forall l c, h !! l = Some c -> h' !! l = Some c) /\
    (exists new, h' = h ++ new) /\
    enrichedTables enums h h' rawTables out.
Proof.
  intros Hwf.
  destruct (createDatabaseMetadata_run enums h rawTables Hwf)
    as (out & new & Hrun & Hrel).
  exists out, (h ++ new). split; [exact Hrun|]. split; [|split].
  - intros l c. apply heap_lookup_ext.
  - exists new. reflexivity.
  - exact Hrel.
Qed.

(** ** No empty enumeration *)

Lemma parseInConstraint_values span c :
  parseInConstraint span = Some c -> values c <> [].
Proof.
  unfold parseInConstraint.
  destruct (inRegex span) as [[g1 g2]|]; [|discriminate].
  destruct (isEmpty g1 || isEmpty g2); [discriminate|].
  destruct (parseValueList g2) as [|v vs]; [discriminate|].
  intros [= <-]. discriminate.
Qed.

Lemma parseInConstraint_no_values span g1 g2 :
  inRegex span = Some (g1, g2) -> parseValueList g2 = [] ->
  parseInConstraint span = None.
Proof.
  intros H1 H2. unfold parseInConstraint. rewrite H1, H2.
  destruct (isEmpty g1 || isEmpty g2); reflexivity.
Qed.

Lemma parseEnumConstraints_values sql cs :
  parseEnumConstraints sql = Some cs -> Forall (fun c => values c <> []) cs.
Proof.
  unfold parseEnumConstraints. intros H.
  apply (scanLoop_invariant (fun _ => True) (fun c => values c <> [])
           (normalize sql)) in H; [exact H| | |constructor].
  - clear H. induction (normalize sql); constructor; auto.
  - intros content c _. apply parseInConstraint_values.
Qed.

Lemma registry_values_nonempty (rows : list Row) (enums : gmap str (list str))
    (key : str) (vs : list str) :
  introspectCheckConstraintEnums rows = Some enums ->
  EnumCollection.get enums key = Some vs -> vs <> [].
Proof.
  intros Hrows Hget.
  apply (introspectRows_invariant (fun _ vs => vs <> []))
    with (rows := rows) (enums := EnumCollection.empty) (enums' := enums)
         (i := key);
    [|apply map_Forall_empty|exact Hrows|exact Hget].
  intros name sql cs Hcs. apply parseEnumConstraints_values in Hcs.
  eapply List.Forall_impl; [|exact Hcs].
  intros c Hc. apply sort_nonempty, Hc.
Qed.

Lemma Forall2_right {A B} (R : A -> B -> Prop) (Q : B -> Prop) l l' :
  Forall2 R l l' -> (forall x y, R x y -> Q y) -> Forall Q l'.
Proof. induction 1; intros HQ; constructor; eauto. Qed.

Lemma enrichedTables_columns (enums : gmap str (list str)) (h h' : heap)
    (rawTables out : value) (P : value -> Prop) :
  (forall key, P (ofEnumValues (EnumCollection.get enums key))) ->
  enrichedTables enums h h' rawTables out -> columnsSatisfy h' out P.
Proof.
  intros HP (l & ts & l' & ts' & _ & _ & -> & _ & Hout & Hts).
  exists l', ts'. split; [reflexivity|]. split; [exact Hout|].
  apply (Forall2_right _ _ _ _ Hts).
  intros t t' (lt & o & tname & cl & cols & lt' & o' & cl' & cols'
               & _ & _ & _ & _ & _ & -> & _ & Ho' & Hcl' & _ & _ & Hcols' & Hcols).
  exists lt', o', cl', cols'. repeat split; try assumption.
  apply (Forall2_right _ _ _ _ Hcols).
  intros c c' (lc & oc & cname & lc' & oc' & _ & _ & _ & -> & _ & Hoc' & Hev & _).
  exists lc', oc', (ofEnumValues (EnumCollection.get enums (tname ++ L "." ++ cname))).
  repeat split; try assumption. apply HP.
Qed.

(** C2: a span that matches the pattern and whose value list tokenizes to
    no value is not recognized, a recognized constraint has a value, the
    registry holds no empty list, and every column of the enriched output
    has for [enumValues] null or a non-empty array. *)
Theorem C2_no_empty_enum :
  (forall span g1 g2,
     inRegex span = Some (g1, g2) -> parseValueList g2 = [] ->
     parseInConstraint span = None) /\
  (forall span c, parseInConstraint span = Some c -> values c <> []) /\
  (forall (rows : list Row) (enums : gmap str (list str)) (key : str)
       (vs : list str),
     introspectCheckConstraintEnums rows = Some enums ->
     EnumCollection.get enums key = Some vs -> vs <> []) /\
  (forall (rows : list Row) (rawTables : value) (h : heap),
     isTables h rawTables ->
     exists out h',
       introspect rawTables rows h = Some (mkDatabaseMetadata out, h') /\
       columnsSatisfy h' out
         (fun v => v = VNull \/ exists vs, v = VStrings vs /\ vs <> [])).
Proof.
  split; [exact parseInConstraint_no_values|].
  split; [exact parseInConstraint_values|].
  split; [exact registry_values_nonempty|].
  intros rows rawTables h Hwf. unfold introspect.
  destruct (introspectRows_total rows EnumCollection.empty) as [enums Hrows].
  unfold introspectCheckConstraintEnums at 1. rewrite Hrows.
  destruct (createDatabaseMetadata_run enums h rawTables Hwf)
    as (out & new & Hrun & Hrel).
  exists out, (h ++ new). split; [exact Hrun|].
  apply (enrichedTables_columns enums h _ rawTables); [|exact Hrel].
  intros key. destruct (EnumCollection.get enums key) as [vs|] eqn:E; cbn.
  - right. exists vs. split; [reflexivity|].
    apply (registry_values_nonempty rows enums key vs Hrows E).
  - left. reflexivity.
Qed.

(** ** An example run *)

Lemma exampleHeap_isTables : isTables exampleHeap (VRef 4).
Proof.
  exists 4, [VRef 3]. split; [reflexivity|]. split; [reflexivity|].
  constructor; [|constructor].
  eexists 3, _, (L "users"), 2, [VRef 0; VRef 1].
  split; [reflexivity|]. split; [reflexivity|]. split; [reflexivity|].
  split; [reflexivity|]. split; [reflexivity|].
  constructor; [|constructor; [|constructor]].
  - eexists 0, _, (L "id"). repeat split; reflexivity.
  - eexists 1, _, (L "status"). repeat split; reflexivity.
Defined.

Lemma C9_enrichment_projection_witness :
  exists out h',
    createDatabaseMetadata
      {[ L "users.status" := [L "private"; L "public"; L "restricted"] ]}
      (VRef 4) exampleHeap
    = Some (mkDatabaseMetadata out, h') /\
    (forall l c, exampleHeap !! l = Some c -> h' !! l = Some c) /\
    (exists new, h' = exampleHeap ++ new) /\
    enrichedTables
      {[ L "users.status" := [L "private"; L "public"; L "restricted"] ]}
      exampleHeap h' (VRef 4) out.
Proof.
  apply (C9_enrichment_projection _ exampleHeap (VRef 4)).
  exact exampleHeap_isTables.
Defined.

Lemma C2_no_empty_enum_witness :
  parseInConstraint (L "x in ('')") = None /\
  exists out h',
    introspect (VRef 4) exampleRows exampleHeap
    = Some (mkDatabaseMetadata out, h') /\
    columnsSatisfy h' out
      (fun v => v = VNull \/ exists vs, v = VStrings vs /\ vs <> []).
Proof.
  destruct C2_no_empty_enum as (Hnone & _ & _ & Hout). split.
  - apply (Hnone (L "x in ('')") (L "x") (L "''")); reflexivity.
  - apply (Hout exampleRows (VRef 4) exampleHeap). exact exampleHeap_isTables.
Defined.

Example example_introspect :
  introspect (VRef 4) exampleRows exampleHeap
  = Some
      (mkDatabaseMetadata (VRef 9),
       exampleHeap ++
       [ CObj (<["enumValues"%string := VNull]>
                 {[ "name"%string := VStr (L "id");
                    "dataType"%string := VStr (L "INTEGER") ]});
         CObj (<["enumValues"%string :=
                   VStrings [L "private"; L "public"; L "restricted"]]>
                 {[ "name"%string := VStr (L "status");
                    "dataType"%string := VStr (L "TEXT") ]});
         CArr [VRef 5; VRef 6];
         CObj (<["columns"%string := VRef 7]>
                 {[ "name"%string := VStr (L "users");
                    "isView"%string := VOther 0;
                    "columns"%string := VRef 2 ]});
         CArr [VRef 8] ]).
Proof. vm_compute. reflexivity. Qed.

(** ** The tests of the repository

    The three tests of [sqlite-introspector.test.ts] and the end-to-end
    example of the specification, as far as the registry goes. *)

Example test_check_constraints_as_enum_values :
  entries [mkRow (L "users") (Some usersSql); mkRow (L "posts") (Some postsSql)]
    [L "users.status"; L "users.role"; L "posts.visibility"; L "users.name"]
  = Some [ Some [L "private"; L "public"; L "restricted"];
           Some [L "admin"; L "guest"; L "user"];
           Some [L "archived"; L "draft"; L "published"];
           None ].
Proof. vm_compute. reflexivity. Qed.

Example test_tables_without_check_constraints :
  entries [mkRow (L "simple_table") (Some simpleSql)]
    [L "simple_table.id"; L "simple_table.name"]
  = Some [None; None].
Proof. vm_compute. reflexivity. Qed.

Example test_complex_check_constraints :
  entries [mkRow (L "complex_table") (Some complexSql)]
    [L "complex_table.status"; L "complex_table.category";
     L "complex_table.priority"]
  = Some [ Some [L "active"; L "inactive"; L "pending"];
           Some [L "low"; L "normal"; L "urgent"];
           None ].
Proof. vm_compute. reflexivity. Qed.

Example spec_end_to_end :
  entries
    [mkRow (L "users")
       (Some (L "CREATE TABLE users (id INTEGER PRIMARY KEY, status TEXT CHECK (status IN ('public','restricted','private')) NOT NULL DEFAULT 'restricted', role TEXT CHECK (role IN ('admin','user','guest')))"))]
    [L "users.status"; L "users.role"]
  = Some [ Some [L "private"; L "public"; L "restricted"];
           Some [L "admin"; L "guest"; L "user"] ].
Proof. vm_compute. reflexivity. Qed.

(** * Further properties

    Properties of the parser, of the registry builder and of the enricher
    beyond those above. *)

(** ** Further properties of the tokenizer *)

Lemma pushTrimmed_app vs0 vs cur :
  pushTrimmed (vs0 ++ vs) cur = vs0 ++ pushTrimmed vs cur.
Proof.
  unfold pushTrimmed. destruct (trim cur); [reflexivity|].
  symmetry. apply app_assoc.
Qed.

(** The values pushed before the loop starts stay in front. *)
Lemma tokLoop_values_prefix s : forall vs0 vs cur iq qc,
  tokLoop (mkTokState (vs0 ++ vs) cur iq qc) s
  = let st' := tokLoop (mkTokState vs cur iq qc) s in
    mkTokState (vs0 ++ tvalues st') (currentValue st') (inQuotes st')
      (quoteChar st').
Proof.
  induction s as [|c s IH1 IH2] using str_ind2; intros vs0 vs cur iq qc;
    [reflexivity|].
  cbn [tokLoop inQuotes quoteChar tvalues currentValue].
  unfold isQuoteChar. cbn [quoteChar].
  destruct (negb iq && (Ascii.eqb c dquote || Ascii.eqb c "'")); [apply IH1|].
  destruct (iq && match qc with Some q => Ascii.eqb c q | None => false end).
  { destruct s as [|c' s']; [reflexivity|].
    destruct (match qc with Some q => Ascii.eqb c' q | None => false end);
      [apply (IH2 c' s' eq_refl)|apply IH1]. }
  destruct (negb iq && Ascii.eqb c ",").
  { rewrite pushTrimmed_app. apply IH1. }
  apply IH1.
Qed.

(** A code unit that is not a quote is not looked at before the loop
    reaches it. *)
Lemma tokLoop_app_nonquote c rest s : forall st,
  Ascii.eqb c dquote || Ascii.eqb c "'" = false ->
  isQuoteChar st c = false ->
  tokLoop st (s ++ c :: rest) = tokLoop (tokLoop st s) (c :: rest).
Proof.
  induction s as [|c0 s IH1 IH2] using str_ind2; intros st Hc Hq;
    [reflexivity|].
  cbn [app].
  change (tokLoop st (c0 :: s ++ c :: rest))
    with (tokLoop st (c0 :: (s ++ c :: rest))).
  cbn [tokLoop].
  destruct (negb (inQuotes st) && (Ascii.eqb c0 dquote || Ascii.eqb c0 "'"))
    eqn:E1.
  { apply IH1; [exact Hc|]. unfold isQuoteChar. cbn [quoteChar].
    apply andb_prop in E1 as [_ E1]. apply Ascii.eqb_neq. intros <-.
    rewrite E1 in Hc. discriminate. }
  destruct (inQuotes st && isQuoteChar st c0) eqn:E2.
  { destruct s as [|c' s'].
    - cbn [app]. rewrite Hq. reflexivity.
    - cbn [app]. destruct (isQuoteChar st c').
      + apply (IH2 c' s' eq_refl); [exact Hc|exact Hq].
      + apply IH1; [exact Hc|reflexivity]. }
  destruct (negb (inQuotes st) && Ascii.eqb c0 ",").
  { apply IH1; [exact Hc|exact Hq]. }
  apply IH1; [exact Hc|exact Hq].
Qed.

(** Outside quotes the state holds no quote character. *)
Lemma tokLoop_unquoted_none s : forall st,
  (inQuotes st = false -> quoteChar st = None) ->
  inQuotes (tokLoop st s) = false -> quoteChar (tokLoop st s) = None.
Proof.
  induction s as [|c s IH1 IH2] using str_ind2; intros st Hst; [exact Hst|].
  cbn [tokLoop].
  destruct (negb (inQuotes st) && (Ascii.eqb c dquote || Ascii.eqb c "'")).
  { apply IH1. cbn. discriminate. }
  destruct (inQuotes st && isQuoteChar st c).
  { destruct s as [|c' s'].
    - apply IH1. reflexivity.
    - destruct (isQuoteChar st c').
      + apply (IH2 c' s' eq_refl). exact Hst.
      + apply IH1. reflexivity. }
  destruct (negb (inQuotes st) && Ascii.eqb c ",").
  { apply IH1. exact Hst. }
  apply IH1. exact Hst.
Qed.

Lemma tokLoop_quoteLit s : forall st,
  quoteLit st -> quoteLit (tokLoop st s).
Proof.
  induction s as [|c s IH1 IH2] using str_ind2; intros st Hst; [exact Hst|].
  cbn [tokLoop].
  destruct (negb (inQuotes st) && (Ascii.eqb c dquote || Ascii.eqb c "'"))
    eqn:E1.
  { apply IH1. intros q [= <-]. apply andb_prop in E1 as [_ E1].
    apply orb_prop in E1 as [E1|E1]; apply Ascii.eqb_eq in E1; auto. }
  destruct (inQuotes st && isQuoteChar st c).
  { destruct s as [|c' s'].
    - apply IH1. intros q. discriminate.
    - destruct (isQuoteChar st c').
      + apply (IH2 c' s' eq_refl). exact Hst.
      + apply IH1. intros q. discriminate. }
  destruct (negb (inQuotes st) && Ascii.eqb c ",").
  { apply IH1. exact Hst. }
  apply IH1. exact Hst.
Qed.

(** X1: a comma outside quotes separates two lists that are tokenized
    independently: the values of the text before it, then the values of the
    text after it. *)
Theorem X1_comma_splits (s1 s2 : str) :
  inQuotes (tokLoop tokInit s1) = false ->
  parseValueList (s1 ++ "," :: s2) = parseValueList s1 ++ parseValueList s2.
Proof.
  intros Hq. unfold parseValueList.
  rewrite tokLoop_app_nonquote by reflexivity.
  pose proof (tokLoop_unquoted_none s1 tokInit (fun _ => eq_refl) Hq) as Hn.
  destruct (tokLoop tokInit s1) as [vs1 cur1 iq1 qc1].
  cbn [inQuotes quoteChar tvalues currentValue] in *. subst iq1 qc1.
  change (tokLoop (mkTokState vs1 cur1 false None) ("," :: s2))
    with (tokLoop (mkTokState (pushTrimmed vs1 cur1) [] false None) s2).
  rewrite <- (app_nil_r (pushTrimmed vs1 cur1)) at 1 2.
  rewrite tokLoop_values_prefix. cbn [tvalues currentValue].
  apply pushTrimmed_app.
Qed.

Lemma X1_comma_splits_witness :
  parseValueList (L "'a,b', c" ++ "," :: L " 'd'")
  = parseValueList (L "'a,b', c") ++ parseValueList (L " 'd'").
Proof. apply (X1_comma_splits (L "'a,b', c") (L " 'd'")). reflexivity. Defined.

(** White space goes to the value under construction, inside quotes and
    outside. *)
Lemma tokLoop_blank b : blank b -> forall st,
  quoteLit st ->
  tokLoop st b
  = mkTokState (tvalues st) (currentValue st ++ b) (inQuotes st) (quoteChar st).
Proof.
  induction 1 as [|c b Hc _ IH]; intros st Hst.
  - rewrite app_nil_r. destruct st; reflexivity.
  - assert (H1 : Ascii.eqb c dquote || Ascii.eqb c "'" = false).
    { destruct (Ascii.eqb c dquote) eqn:E1;
        [apply Ascii.eqb_eq in E1; subst c; discriminate|].
      destruct (Ascii.eqb c "'") eqn:E2;
        [apply Ascii.eqb_eq in E2; subst c; discriminate|reflexivity]. }
    assert (H2 : isQuoteChar st c = false).
    { unfold isQuoteChar. destruct (quoteChar st) as [q|] eqn:Eq; [|reflexivity].
      apply Ascii.eqb_neq. intros ->.
      destruct (Hst q Eq) as [-> | ->]; discriminate. }
    assert (H3 : Ascii.eqb c "," = false).
    { apply Ascii.eqb_neq. intros ->. discriminate. }
    cbn [tokLoop]. rewrite H1, H2, H3, !andb_false_r.
    rewrite IH by exact Hst. cbn [tvalues currentValue inQuotes quoteChar].
    rewrite <- app_assoc. reflexivity.
Qed.

Lemma pushTrimmed_blank_r vs cur b :
  blank b -> pushTrimmed vs (cur ++ b) = pushTrimmed vs cur.
Proof.
  intros Hb. unfold pushTrimmed.
  pose proof (trim_app_blank [] cur b ltac:(constructor) Hb) as E.
  cbn [app] in E. rewrite E. reflexivity.
Qed.

Lemma pushTrimmed_blank_l vs b cur :
  blank b -> pushTrimmed vs (b ++ cur) = pushTrimmed vs cur.
Proof.
  intros Hb. unfold pushTrimmed.
  pose proof (trim_app_blank b cur [] Hb ltac:(constructor)) as E.
  rewrite app_nil_r in E. rewrite E. reflexivity.
Qed.

(** White space in front of the value under construction is lost at the
    next push, and changes nothing else. *)
Lemma tokLoop_lead_blank b : blank b -> forall s vs cur iq qc,
  let st' := tokLoop (mkTokState vs cur iq qc) s in
  exists cur',
    tokLoop (mkTokState vs (b ++ cur) iq qc) s
    = mkTokState (tvalues st') cur' (inQuotes st') (quoteChar st') /\
    (cur' = currentValue st' \/ cur' = b ++ currentValue st').
Proof.
  intros Hb.
  induction s as [|c s IH1 IH2] using str_ind2; intros vs cur iq qc.
  - exists (b ++ cur). split; [reflexivity|right; reflexivity].
  - cbn [tokLoop inQuotes quoteChar tvalues currentValue].
    unfold isQuoteChar. cbn [quoteChar].
    destruct (negb iq && (Ascii.eqb c dquote || Ascii.eqb c "'")); [apply IH1|].
    destruct (iq && match qc with Some q => Ascii.eqb c q | None => false end).
    { destruct s as [|c' s'].
      - exists (b ++ cur). split; [reflexivity|right; reflexivity].
      - destruct (match qc with Some q => Ascii.eqb c' q | None => false end).
        + rewrite <- app_assoc. apply (IH2 c' s' eq_refl).
        + apply IH1. }
    destruct (negb iq && Ascii.eqb c ",").
    { rewrite pushTrimmed_blank_l by exact Hb.
      match goal with
      | |- exists cur', ?t = _ /\ _ =>
          exists (currentValue t); destruct t; split; [reflexivity|left; reflexivity]
      end. }
    rewrite <- app_assoc. apply IH1.
Qed.

Lemma parseValueList_blank_l b s :
  blank b -> parseValueList (b ++ s) = parseValueList s.
Proof.
  intros Hb. unfold parseValueList.
  change tokInit with (unquoted [] []).
  rewrite tokLoop_plain by (apply blank_plain, Hb). cbn [app].
  destruct (tokLoop_lead_blank b Hb s [] [] false None) as (cur' & E & Hcur).
  rewrite app_nil_r in E. unfold unquoted. rewrite E.
  cbn [tvalues currentValue].
  destruct Hcur as [-> | ->]; [reflexivity|].
  apply pushTrimmed_blank_l, Hb.
Qed.

Lemma tokLoop_app_blank s b : forall st,
  blank b -> quoteLit st ->
  tokLoop st (s ++ b)
  = let st' := tokLoop st s in
    mkTokState (tvalues st') (currentValue st' ++ b) (inQuotes st')
      (quoteChar st').
Proof.
  intros st Hb Hst. destruct b as [|c b].
  - cbn zeta. rewrite !app_nil_r. destruct (tokLoop st s); reflexivity.
  - assert (Hq := tokLoop_quoteLit s st Hst).
    rewrite tokLoop_app_nonquote.
    + apply tokLoop_blank; assumption.
    + inversion Hb as [|? ? Hc _]; subst.
      destruct (Ascii.eqb c dquote) eqn:E1;
        [apply Ascii.eqb_eq in E1; subst c; discriminate|].
      destruct (Ascii.eqb c "'") eqn:E2;
        [apply Ascii.eqb_eq in E2; subst c; discriminate|reflexivity].
    + inversion Hb as [|? ? Hc _]; subst.
      unfold isQuoteChar. destruct (quoteChar st) as [q|] eqn:Eq; [|reflexivity].
      apply Ascii.eqb_neq. intros ->.
      destruct (Hst q Eq) as [-> | ->]; discriminate.
Qed.

Lemma quoteLit_tokInit : quoteLit tokInit.
Proof. intros q. discriminate. Qed.

Lemma parseValueList_blank_r s b :
  blank b -> parseValueList (s ++ b) = parseValueList s.
Proof.
  intros Hb. unfold parseValueList.
  rewrite tokLoop_app_blank by (exact Hb || exact quoteLit_tokInit).
  cbn [tvalues currentValue]. apply pushTrimmed_blank_r, Hb.
Qed.

Lemma parseValueList_blank b1 s b2 :
  blank b1 -> blank b2 -> parseValueList (b1 ++ s ++ b2) = parseValueList s.
Proof.
  intros H1 H2. rewrite parseValueList_blank_l by exact H1.
  apply parseValueList_blank_r, H2.
Qed.

(** X2: white space before and after a value list, of whatever kind and
    also when the list ends inside quotes, does not change the values. *)
Theorem X2_surrounding_white_space (b1 s b2 : str) :
  blank b1 -> blank b2 -> parseValueList (b1 ++ s ++ b2) = parseValueList s.
Proof. apply parseValueList_blank. Qed.

Lemma X2_surrounding_white_space_witness :
  parseValueList (L "  " ++ L "'a', 'b" ++ L " ") = parseValueList (L "'a', 'b").
Proof.
  apply (X2_surrounding_white_space (L "  ") (L "'a', 'b") (L " "));
    vm_compute; repeat constructor.
Defined.

(** A code unit after a text that ends inside quotes is not looked at
    before the loop reaches it. *)
Lemma tokLoop_snoc_inQuotes c s : forall st,
  inQuotes (tokLoop st s) = true ->
  tokLoop st (s ++ [c]) = tokLoop (tokLoop st s) [c].
Proof.
  induction s as [|c0 s IH1 IH2] using str_ind2; intros st Hq;
    [reflexivity|].
  cbn [app]. cbn [tokLoop] in Hq |- *.
  destruct (negb (inQuotes st) && (Ascii.eqb c0 dquote || Ascii.eqb c0 "'")).
  { apply IH1, Hq. }
  destruct (inQuotes st && isQuoteChar st c0).
  { destruct s as [|c' s'].
    - cbn in Hq. discriminate.
    - cbn [app]. destruct (isQuoteChar st c').
      + apply (IH2 c' s' eq_refl), Hq.
      + apply IH1, Hq. }
  destruct (negb (inQuotes st) && Ascii.eqb c0 ",").
  { apply IH1, Hq. }
  apply IH1, Hq.
Qed.

(** X3: a quote that is still open at the end of the text is not an error:
    the text gives the values it gives with the closing quote added. *)
Theorem X3_missing_closing_quote (s : str) (q : ascii) :
  inQuotes (tokLoop tokInit s) = true ->
  quoteChar (tokLoop tokInit s) = Some q ->
  parseValueList s = parseValueList (s ++ [q]).
Proof.
  intros Hin Hq. unfold parseValueList.
  rewrite tokLoop_snoc_inQuotes by exact Hin.
  destruct (tokLoop tokInit s) as [vs cur iq qc].
  cbn [inQuotes quoteChar] in Hin, Hq. subst iq qc.
  cbn [tokLoop inQuotes negb andb]. unfold isQuoteChar. cbn [quoteChar].
  rewrite Ascii.eqb_refl. reflexivity.
Qed.

Lemma X3_missing_closing_quote_witness :
  parseValueList (L "'a', 'b, c") = parseValueList (L "'a', 'b, c" ++ ["'"]).
Proof.
  apply (X3_missing_closing_quote (L "'a', 'b, c") "'"); reflexivity.
Defined.

(** *** The code units of the values *)

Lemma trimStart_sublist s : trimStart s `sublist_of` s.
Proof.
  induction s as [|c s IH]; [constructor|].
  cbn [trimStart]. destruct (isSpace c); [apply sublist_cons, IH|reflexivity].
Qed.

Lemma trimEnd_sublist s : trimEnd s `sublist_of` s.
Proof.
  induction s as [|c s IH]; [constructor|].
  cbn [trimEnd]. destruct (trimEnd s) as [|d t].
  - destruct (isSpace c); [apply sublist_nil_l|].
    apply sublist_skip, sublist_nil_l.
  - apply sublist_skip, IH.
Qed.

Lemma trim_sublist s : trim s `sublist_of` s.
Proof.
  unfold trim. etransitivity; [apply trimEnd_sublist|apply trimStart_sublist].
Qed.

Lemma pushTrimmed_sublist vs cur :
  concat (pushTrimmed vs cur) `sublist_of` concat vs ++ cur.
Proof.
  unfold pushTrimmed. pose proof (trim_sublist cur) as Ht.
  destruct (trim cur) as [|c t].
  - apply sublist_inserts_r. reflexivity.
  - rewrite concat_app. cbn [concat]. rewrite app_nil_r.
    apply sublist_app; [reflexivity|exact Ht].
Qed.

Lemma tokLoop_sublist s : forall st,
  tokText (tokLoop st s) `sublist_of` tokText st ++ s.
Proof.
  induction s as [|c s IH1 IH2] using str_ind2; intros st.
  - rewrite app_nil_r. reflexivity.
  - assert (Hskip : forall st1, tokText st1 `sublist_of` tokText st ->
                tokText (tokLoop st1 s) `sublist_of` tokText st ++ c :: s).
    { intros st1 H1. etransitivity; [apply IH1|].
      apply sublist_app; [exact H1|]. apply sublist_cons. reflexivity. }
    assert (Hkeep : forall st1, tokText st1 = tokText st ++ [c] ->
                tokText (tokLoop st1 s) `sublist_of` tokText st ++ c :: s).
    { intros st1 H1. etransitivity; [apply IH1|].
      rewrite H1, <- app_assoc. reflexivity. }
    cbn [tokLoop].
    destruct (negb (inQuotes st) && (Ascii.eqb c dquote || Ascii.eqb c "'")).
    { apply Hskip. reflexivity. }
    destruct (inQuotes st && isQuoteChar st c).
    { destruct s as [|c' s'].
      - apply Hskip. reflexivity.
      - destruct (isQuoteChar st c').
        + etransitivity; [apply (IH2 c' s' eq_refl)|].
          unfold tokText. cbn [tvalues currentValue].
          rewrite !app_assoc, <- (app_assoc _ [c]). cbn [app].
          apply sublist_app; [reflexivity|].
          apply sublist_skip, sublist_cons. reflexivity.
        + apply Hskip. reflexivity. }
    destruct (negb (inQuotes st) && Ascii.eqb c ",").
    { apply Hskip. unfold tokText. cbn [tvalues currentValue].
      rewrite app_nil_r. apply pushTrimmed_sublist. }
    apply Hkeep. unfold tokText. cbn [tvalues currentValue].
    apply app_assoc.
Qed.

(** X4: the tokenizer invents nothing and moves nothing: the code units of
    the values, read value after value, stand in the text in that order; so
    the values together are not longer than the text. *)
Theorem X4_values_from_text (s : str) :
  concat (parseValueList s) `sublist_of` s /\
  length (concat (parseValueList s)) <= length s.
Proof.
  assert (H : concat (parseValueList s) `sublist_of` s).
  { unfold parseValueList. etransitivity; [apply pushTrimmed_sublist|].
    apply (tokLoop_sublist s tokInit). }
  split; [exact H|apply sublist_length, H].
Qed.

(** ** Further properties of the extraction *)

(** At a depth of at least 1 the loop returns the text up to the closing
    parenthesis that brings the depth to 0, and to the first such one. *)
Lemma extractLoop_spec s : forall depth content r,
  (1 <= depth)%Z ->
  extractLoop depth content s = Some r <->
  exists mid rest,
    s = mid ++ ")" :: rest /\ r = content ++ mid /\
    (depth + balance mid = 1)%Z /\
    forall n, (1 <= depth + balance (firstn n mid))%Z.
Proof.
  induction s as [|c s IH]; intros depth content r Hd.
  - split; [discriminate|]. intros (mid & rest & E & _).
    destruct mid; discriminate.
  - assert (Hstep : forall d,
              (1 <= d)%Z ->
              (d = depth + (if Ascii.eqb c "(" then 1
                            else if Ascii.eqb c ")" then -1 else 0))%Z ->
              extractLoop d (content ++ [c]) s = Some r <->
              exists mid rest,
                c :: s = mid ++ ")" :: rest /\ r = content ++ mid /\
                (depth + balance mid = 1)%Z /\
                forall n, (1 <= depth + balance (firstn n mid))%Z).
    { intros d Hd' Ed. rewrite (IH d (content ++ [c]) r Hd'). split.
      - intros (mid & rest & -> & -> & Hb & Hp).
        exists (c :: mid), rest. rewrite <- app_assoc.
        split; [reflexivity|]. split; [reflexivity|].
        split; [cbn [balance]; lia|].
        intros [|n]; [cbn; lia|].
        specialize (Hp n). cbn [firstn balance]. lia.
      - intros (mid & rest & E & -> & Hb & Hp).
        destruct mid as [|c' mid].
        + cbn [app] in E. injection E as -> ->. cbn [balance] in Hb.
          change (Ascii.eqb ")" "(") with false in Ed.
          change (Ascii.eqb ")" ")") with true in Ed. cbv iota in Ed. lia.
        + cbn [app] in E. injection E as <- ->.
          exists mid, rest. rewrite <- app_assoc.
          split; [reflexivity|]. split; [reflexivity|].
          split; [cbn [balance] in Hb; lia|].
          intros n. specialize (Hp (S n)). cbn [firstn balance] in Hp. lia. }
    cbn [extractLoop].
    destruct (Ascii.eqb c "(") eqn:E1.
    { assert ((depth + 1 >? 1)%Z = true) as -> by lia.
      apply Hstep; [lia|reflexivity]. }
    destruct (Ascii.eqb c ")") eqn:E2.
    { destruct (depth - 1 =? 0)%Z eqn:E0; [|apply Hstep; [lia|reflexivity]].
      apply Ascii.eqb_eq in E2. subst c. split.
      - intros [= <-]. exists [], s. rewrite app_nil_r.
        split; [reflexivity|]. split; [reflexivity|].
        split; [cbn; lia|]. intros n. rewrite firstn_nil. cbn. lia.
      - intros (mid & rest & E & -> & Hb & Hp).
        destruct mid as [|c' mid]; [rewrite app_nil_r; reflexivity|].
        cbn [app] in E. injection E as <- ->.
        specialize (Hp 1). change (firstn 1 (")" :: mid)) with [")"] in Hp.
        cbn [balance] in Hp. change (Ascii.eqb ")" "(") with false in Hp.
        change (Ascii.eqb ")" ")") with true in Hp. cbv iota in Hp. lia. }
    assert ((depth >? 0)%Z = true) as -> by lia.
    apply Hstep; [lia|cbv iota; lia].
Qed.

Lemma extractParenthesesContent_spec text oi content :
  startsWith (L "(") (skipn oi text) = true ->
  extractParenthesesContent text oi = Some content <->
  exists rest,
    skipn oi text = "(" :: content ++ ")" :: rest /\ balancedSpan content.
Proof.
  unfold extractParenthesesContent, balancedSpan. intros Hat.
  destruct (skipn oi text) as [|c s]; [discriminate|].
  unfold L in Hat. cbn [list_ascii_of_string startsWith] in Hat.
  rewrite andb_true_r in Hat. apply Ascii.eqb_eq in Hat. subst c.
  cbn [extractLoop]. change (Ascii.eqb "(" "(") with true.
  change (0 + 1 >? 1)%Z with false. change (0 + 1)%Z with 1%Z.
  rewrite (extractLoop_spec s 1 [] content ltac:(lia)). split.
  - intros (mid & rest & -> & -> & Hb & Hp). exists rest. cbn [app].
    split; [reflexivity|]. split; [lia|]. intros n. specialize (Hp n). lia.
  - intros (rest & [= ->] & Hb & Hp). exists content, rest.
    split; [reflexivity|]. split; [reflexivity|]. split; [lia|].
    intros n. specialize (Hp n). lia.
Qed.

(** X5: started at an opening parenthesis, the extraction returns a text
    exactly when that text stands between the parenthesis and a closing
    one and its own parentheses match one another; so the closing
    parenthesis is the one that matches the opening one, and a text with
    matching parentheses put between parentheses is given back as it is.
    Quotes play no part. *)
Theorem X5_matching_parenthesis (text : str) (oi : nat) (content : str) :
  startsWith (L "(") (skipn oi text) = true ->
  extractParenthesesContent text oi = Some content <->
  exists rest,
    skipn oi text = "(" :: content ++ ")" :: rest /\ balancedSpan content.
Proof. apply extractParenthesesContent_spec. Qed.

Lemma X5_matching_parenthesis_witness :
  exists rest,
    skipn 6 (L "check (length(a) > 0 and b in (')', 'c')) x")
    = "(" :: L "length(a) > 0 and b in (')', 'c'" ++ ")" :: rest /\
    balancedSpan (L "length(a) > 0 and b in (')', 'c'").
Proof.
  apply (proj1 (X5_matching_parenthesis
                  (L "check (length(a) > 0 and b in (')', 'c')) x") 6
                  (L "length(a) > 0 and b in (')', 'c'") eq_refl)).
  reflexivity.
Defined.

(** ** Further properties of the recognizer *)

Lemma reBody_sound g1 s r :
  reBody g1 s = Some r ->
  exists ws3 g2 ws4 ws5,
    s = ws3 ++ g2 ++ ws4 ++ ")" :: ws5 /\ r = (g1, g2) /\
    blank ws3 /\ g2 <> [] /\ all isDot g2 /\ blank ws4 /\ blank ws5.
Proof.
  unfold reBody. intros H.
  apply reStar_sound in H as (ws3 & b & -> & H3 & H).
  apply rePlusLazyCap_sound in H as (g2 & b' & -> & Hne & Hdot & H).
  apply reClose_sound in H as (ws4 & ws5 & -> & H4 & H5 & ->).
  exists ws3, g2, ws4, ws5. repeat split; auto.
Qed.

Lemma reBody_complete g1 body ws5 :
  body <> [] -> all isDot body -> blank ws5 ->
  reBody g1 (body ++ ")" :: ws5) <> None.
Proof.
  intros Hne Hdot H5. unfold reBody. apply reStar_here.
  apply rePlusLazyCap_complete; [exact Hdot|exact Hne|].
  cbn [app]. rewrite (reClose_ok _ [] ws5); [discriminate|constructor|exact H5].
Qed.

(** The second group of a match is the text between the parentheses
    without white space at its ends. *)
Lemma reBody_group g1 body ws5 r :
  blank ws5 -> reBody g1 (body ++ ")" :: ws5) = Some r ->
  exists ws3 g2 ws4,
    body = ws3 ++ g2 ++ ws4 /\ r = (g1, g2) /\ blank ws3 /\ g2 <> [] /\
    blank ws4.
Proof.
  intros H5 H.
  apply reBody_sound in H as (ws3 & g2 & ws4 & ws5' & E & -> & H3 & Hne & _
                              & H4 & H5').
  rewrite !app_assoc in E. apply closing_unique in E as [-> _];
    [|exact H5|exact H5'].
  exists ws3, g2, ws4. rewrite <- app_assoc. auto.
Qed.

Lemma all_forallb (p : ascii -> bool) s : forallb p s = true -> all p s.
Proof.
  induction s as [|c s IH]; [constructor|].
  cbn [forallb]. intros H. apply andb_prop in H as [Hc Hs].
  constructor; [exact Hc|apply IH, Hs].
Qed.

(** X6: on a span [<identifier> in ( <body> )], with white space allowed
    around its parts and the body running up to the last closing
    parenthesis of the span, recognition returns the identifier as the
    column and the values the tokenizer finds in the body, whatever the
    body is, or none when it finds no value. *)
Theorem X6_recognition_result (ws0 col ws1 ws2 body ws5 : str) :
  blank ws0 -> isIdentifier col -> blank ws1 -> ws1 <> [] -> blank ws2 ->
  all isDot body -> blank ws5 ->
  parseInConstraint
    (ws0 ++ col ++ ws1 ++ L "in" ++ ws2 ++ "(" :: body ++ ")" :: ws5)
  = match parseValueList body with
    | [] => None
    | vs => Some {| column := col; values := vs |}
    end.
Proof.
  intros H0 Hid H1 Hne1 H2 Hdot H5.
  destruct (isIdentifier_classes col Hid) as (c0 & w & -> & Hc0 & Hw).
  unfold parseInConstraint. rewrite inRegex_front by assumption.
  destruct (reBody (c0 :: w) (body ++ ")" :: ws5)) as [[g1 g2]|] eqn:E.
  - apply reBody_group in E as (ws3 & g & ws4 & -> & [= -> ->] & H3 & Hne & H4);
      [|exact H5].
    rewrite parseValueList_blank by assumption.
    destruct g as [|d g]; [contradiction|]. cbn [isEmpty orb].
    destruct (parseValueList (d :: g)); reflexivity.
  - destruct body as [|d body]; [reflexivity|].
    exfalso. apply (reBody_complete (c0 :: w) (d :: body) ws5);
      [discriminate|exact Hdot|exact H5|exact E].
Qed.

Lemma X6_recognition_result_witness :
  parseInConstraint
    ([] ++ L "a" ++ L " " ++ L "in" ++ L " " ++
     "(" :: L "1, 2) or b in (3" ++ ")" :: [])
  = match parseValueList (L "1, 2) or b in (3") with
    | [] => None
    | vs => Some {| column := L "a"; values := vs |}
    end.
Proof.
  apply (X6_recognition_result [] (L "a") (L " ") (L " ")
           (L "1, 2) or b in (3") []).
  - constructor.
  - exists "a"%char, []. split; [reflexivity|]. split; [reflexivity|constructor].
  - apply all_forallb. reflexivity.
  - discriminate.
  - apply all_forallb. reflexivity.
  - apply all_forallb. reflexivity.
  - constructor.
Defined.

Lemma parseInConstraint_sound span c :
  parseInConstraint span = Some c ->
  exists ws0 ws1 ws2 body ws5,
    span = ws0 ++ column c ++ ws1 ++ L "in" ++ ws2 ++ "(" :: body ++ ")" :: ws5 /\
    blank ws0 /\ isIdentifier (column c) /\ blank ws1 /\ ws1 <> [] /\
    blank ws2 /\ blank ws5 /\
    values c = parseValueList body /\ values c <> [].
Proof.
  intros H. pose proof (parseInConstraint_values span c H) as Hv.
  unfold parseInConstraint in H.
  destruct (inRegex span) as [[g1 g2]|] eqn:E; [|discriminate].
  apply inRegex_sound in E
    as (ws0 & c0 & w & ws1 & ws2 & ws3 & ws4 & ws5 & -> & -> & H0 & Hc0 & Hw
        & H1 & Hne1 & H2 & H3 & Hne & _ & H4 & H5).
  destruct (isEmpty (c0 :: w) || isEmpty g2); [discriminate|].
  destruct (0 <? length (parseValueList g2)); [|discriminate].
  injection H as <-. cbn [column values] in *.
  exists ws0, ws1, ws2, (ws3 ++ g2 ++ ws4), ws5.
  rewrite <- !app_assoc. split; [reflexivity|].
  split; [exact H0|]. split.
  { exists c0, w. rewrite isIdStart_spec. split; [reflexivity|].
    split; [exact Hc0|].
    eapply List.Forall_impl; [|exact Hw]. intros x Hx. cbn beta.
    unfold isWord in Hx. unfold isLetter.
    destruct (isUpper x), (isLower x), (isDigit x), (isUnderscore x);
      try reflexivity; discriminate. }
  repeat (split; [assumption|]).
  split; [|exact Hv].
  symmetry. apply parseValueList_blank; assumption.
Qed.

(** X7: a constraint that recognition returns has for column an
    identifier, the first word of the span, followed by white space, [in]
    and a parenthesised body that ends with the last closing parenthesis of
    the span; its values are those the tokenizer finds in that body, and
    there is at least one. *)
Theorem X7_recognized_constraint (span : str) (c : EnumConstraint) :
  parseInConstraint span = Some c ->
  exists ws0 ws1 ws2 body ws5,
    span = ws0 ++ column c ++ ws1 ++ L "in" ++ ws2 ++ "(" :: body ++ ")" :: ws5 /\
    blank ws0 /\ isIdentifier (column c) /\ blank ws1 /\ ws1 <> [] /\
    blank ws2 /\ blank ws5 /\
    values c = parseValueList body /\ values c <> [].
Proof. apply parseInConstraint_sound. Qed.

Lemma X7_recognized_constraint_witness :
  exists ws0 ws1 ws2 body ws5,
    L " kind  in( 'a' , b ) "
    = ws0 ++ L "kind" ++ ws1 ++ L "in" ++ ws2 ++ "(" :: body ++ ")" :: ws5 /\
    blank ws0 /\ isIdentifier (L "kind") /\ blank ws1 /\ ws1 <> [] /\
    blank ws2 /\ blank ws5 /\
    [L "a"; L "b"] = parseValueList body /\ [L "a"; L "b"] <> [].
Proof.
  apply (X7_recognized_constraint (L " kind  in( 'a' , b ) ")
           (mkEnumConstraint (L "kind") [L "a"; L "b"])).
  reflexivity.
Defined.

(** ** Further properties of the scanner *)

(** Every constraint the scanner returns was recognized in a span that
    follows a [check]. *)
Lemma scanLoop_spans text : forall fuel si acc r,
  Forall (fun c => exists content,
            checkSpan text content /\ parseInConstraint content = Some c) acc ->
  scanLoop fuel text si acc = Some r ->
  Forall (fun c => exists content,
            checkSpan text content /\ parseInConstraint content = Some c) r.
Proof.
  induction fuel as [|fuel IH]; intros si acc r Hacc H; [discriminate|].
  cbn [scanLoop] in H.
  destruct (indexOf (L "check") text si) as [ci|] eqn:H1;
    [|injection H as <-; exact Hacc].
  destruct (indexOf (L "(") text ci) as [oi|] eqn:H2;
    [|injection H as <-; exact Hacc].
  destruct (extractParenthesesContent text oi) as [[|d content]|] eqn:E;
    try (eapply IH; eassumption).
  eapply IH; [|exact H].
  destruct (parseInConstraint (d :: content)) as [c|] eqn:Ec; [|exact Hacc].
  cbn [pushConstraint]. apply Forall_app. split; [exact Hacc|].
  constructor; [|constructor].
  exists (d :: content). split; [|exact Ec].
  apply indexOf_spec in H1 as (_ & Hcheck & _).
  apply indexOf_spec in H2 as (Hle & Hparen & Hfirst).
  apply extractParenthesesContent_spec in E as (rest & Hrest & Hbal);
    [|exact Hparen].
  exists ci, oi, rest. auto.
Qed.

(** X8: the scanner returns nothing but constraints recognized in spans:
    every constraint it returns is the result of the recognizer on a text
    that, in the normalized text, stands between the first opening
    parenthesis at or after a place where [check] stands and the closing
    parenthesis matching it; its column is an identifier. *)
Theorem X8_constraints_from_spans (sql : str) (cs : list EnumConstraint) :
  parseEnumConstraints sql = Some cs ->
  Forall (fun c => exists content,
            checkSpan (normalize sql) content /\
            parseInConstraint content = Some c /\
            isIdentifier (column c)) cs.
Proof.
  unfold parseEnumConstraints. intros H.
  apply scanLoop_spans in H; [|constructor].
  eapply List.Forall_impl; [|exact H].
  intros c (content & Hspan & Hc). exists content.
  split; [exact Hspan|]. split; [exact Hc|].
  apply parseInConstraint_sound in Hc
    as (? & ? & ? & ? & ? & _ & _ & Hid & _). exact Hid.
Qed.

Lemma X8_constraints_from_spans_witness :
  Forall (fun c => exists content,
            checkSpan
              (normalize (L "CREATE TABLE t (k TEXT CHECK (k IN ('a')), n INT CHECK (n > 0))"))
              content /\
            parseInConstraint content = Some c /\
            isIdentifier (column c))
    [mkEnumConstraint (L "k") [L "a"]].
Proof.
  apply (X8_constraints_from_spans
           (L "CREATE TABLE t (k TEXT CHECK (k IN ('a')), n INT CHECK (n > 0))")).
  reflexivity.
Defined.

(** *** The scan from a cursor *)

Lemma pushConstraint_app acc x : pushConstraint acc x = acc ++ pushConstraint [] x.
Proof. destruct x; cbn [pushConstraint app]; [|rewrite app_nil_r]; reflexivity. Qed.

(** The constraints found so far stay in front of those found later. *)
Lemma scanLoop_acc text : forall fuel si acc,
  scanLoop fuel text si acc
  = match scanLoop fuel text si [] with
    | Some r => Some (acc ++ r)
    | None => None
    end.
Proof.
  induction fuel as [|fuel IH]; intros si acc; [reflexivity|].
  cbn [scanLoop].
  destruct (indexOf (L "check") text si) as [ci|];
    [|rewrite app_nil_r; reflexivity].
  destruct (indexOf (L "(") text ci) as [oi|];
    [|rewrite app_nil_r; reflexivity].
  destruct (extractParenthesesContent text oi) as [[|d content]|];
    try apply IH.
  rewrite (IH _ (pushConstraint acc _)), (IH _ (pushConstraint [] _)).
  destruct (scanLoop fuel text _ []) as [r|]; [|reflexivity].
  rewrite (pushConstraint_app acc), <- app_assoc. reflexivity.
Qed.

Lemma indexOfAt_shift pat s : forall k i,
  indexOfAt pat s (k + i)
  = match indexOfAt pat s i with Some j => Some (k + j) | None => None end.
Proof.
  induction s as [|c s IH]; intros k i; cbn [indexOfAt].
  - destruct (startsWith pat []); reflexivity.
  - destruct (startsWith pat (c :: s)); [reflexivity|].
    rewrite <- IH. f_equal. lia.
Qed.

Lemma indexOf_skipn pat text k i :
  indexOf pat text (k + i)
  = match indexOf pat (skipn k text) i with
    | Some j => Some (k + j)
    | None => None
    end.
Proof.
  unfold indexOf. rewrite skipn_skipn, (Nat.add_comm i k).
  apply indexOfAt_shift.
Qed.

Lemma extractParenthesesContent_skipn text k i :
  extractParenthesesContent text (k + i)
  = extractParenthesesContent (skipn k text) i.
Proof.
  unfold extractParenthesesContent. rewrite skipn_skipn, (Nat.add_comm i k).
  reflexivity.
Qed.

(** The scan from a cursor is the scan of the text that starts there: the
    scanner does not look back. *)
Lemma scanLoop_skipn text k : forall fuel si acc,
  scanLoop fuel text (k + si) acc = scanLoop fuel (skipn k text) si acc.
Proof.
  induction fuel as [|fuel IH]; intros si acc; [reflexivity|].
  cbn [scanLoop]. rewrite indexOf_skipn.
  destruct (indexOf (L "check") (skipn k text) si) as [ci|]; [|reflexivity].
  rewrite indexOf_skipn.
  destruct (indexOf (L "(") (skipn k text) ci) as [oi|]; [|reflexivity].
  rewrite extractParenthesesContent_skipn.
  destruct (extractParenthesesContent (skipn k text) oi) as [[|d content]|].
  - rewrite <- Nat.add_assoc. apply IH.
  - rewrite <- !Nat.add_assoc. apply IH.
  - rewrite <- Nat.add_assoc. apply IH.
Qed.

(** *** Normalized texts *)

Lemma replaceWs_idem s : forall b,
  replaceWs b (replaceWs b s) = replaceWs b s.
Proof.
  induction s as [|c s IH]; intros b; [reflexivity|].
  cbn [replaceWs]. destruct (isSpace c) eqn:Ec.
  - destruct b; [apply IH|].
    cbn [replaceWs]. change (isSpace " ") with true. cbv iota.
    rewrite IH. reflexivity.
  - cbn [replaceWs]. rewrite Ec, IH. reflexivity.
Qed.

Lemma normalize_idem sql : normalize (normalize sql) = normalize sql.
Proof.
  unfold normalize, replaceAllWs.
  rewrite replaceWs_toLowerCase, replaceWs_idem.
  unfold toLowerCase. rewrite map_map. apply map_ext, toLowerChar_idem.
Qed.

Lemma replaceWs_length s : forall b, length (replaceWs b s) <= length s.
Proof.
  induction s as [|c s IH]; intros b; [reflexivity|].
  cbn [replaceWs]. destruct (isSpace c); [destruct b|]; cbn [length].
  - specialize (IH true). lia.
  - specialize (IH true). lia.
  - specialize (IH false). lia.
Qed.

(** A text on which the replacement of the white space does nothing stays
    such a text when code units are taken off its front. *)
Lemma replaceWs_fixed_false s : replaceWs true s = s -> replaceWs false s = s.
Proof.
  destruct s as [|c s]; [reflexivity|]. cbn [replaceWs].
  destruct (isSpace c); [|auto]. intros H.
  pose proof (replaceWs_length s true) as Hlen. rewrite H in Hlen.
  cbn [length] in Hlen. lia.
Qed.

Lemma replaceWs_fixed_tail b c s :
  replaceWs b (c :: s) = c :: s -> replaceWs false s = s.
Proof.
  cbn [replaceWs]. destruct (isSpace c).
  - destruct b.
    + intros H. pose proof (replaceWs_length s true) as Hlen.
      rewrite H in Hlen. cbn [length] in Hlen. lia.
    + intros [= _ H]. apply replaceWs_fixed_false, H.
  - intros [= H]. exact H.
Qed.

Lemma replaceWs_fixed_skipn k : forall s,
  replaceWs false s = s -> replaceWs false (skipn k s) = skipn k s.
Proof.
  induction k as [|k IH]; intros s H; [exact H|].
  destruct s as [|c s]; [reflexivity|]. cbn [skipn].
  apply IH. exact (replaceWs_fixed_tail false c s H).
Qed.

Lemma normalize_fixed s :
  replaceWs false s = s -> toLowerCase s = s -> normalize s = s.
Proof. intros H1 H2. unfold normalize, replaceAllWs. rewrite H1. exact H2. Qed.

Lemma normalize_skipn sql k :
  normalize (skipn k (normalize sql)) = skipn k (normalize sql).
Proof.
  apply normalize_fixed.
  - apply replaceWs_fixed_skipn. unfold normalize, replaceAllWs.
    rewrite <- replaceWs_toLowerCase. apply replaceWs_idem.
  - unfold toLowerCase. rewrite <- skipn_map. f_equal.
    apply isLowered_Forall, normalize_lowered.
Qed.

Lemma scanLoop_from text si :
  scanLoop (S (length text - si)) text si []
  = scanLoop (S (length (skipn si text))) (skipn si text) 0 [].
Proof.
  rewrite length_skipn. rewrite <- (Nat.add_0_r si) at 2.
  apply scanLoop_skipn.
Qed.

Lemma parseEnumConstraints_from sql si :
  scanLoop (S (length (normalize sql) - si)) (normalize sql) si []
  = parseEnumConstraints (skipn si (normalize sql)).
Proof.
  unfold parseEnumConstraints. rewrite normalize_skipn. apply scanLoop_from.
Qed.

(** X9: the constraints come in the order of the text.  When the first
    [check] of the normalized text opens a span, the scanner returns the
    constraint recognized in that span, if there is one, followed by the
    constraints of the text after the closing parenthesis of the span; when
    the parenthesis after the first [check] is not closed, or closed at
    once, it returns the constraints of the text after that parenthesis. *)
Theorem X9_scan_in_text_order (sql : str) (ci oi : nat) :
  indexOf (L "check") (normalize sql) 0 = Some ci ->
  indexOf (L "(") (normalize sql) ci = Some oi ->
  match extractParenthesesContent (normalize sql) oi with
  | None | Some [] =>
      parseEnumConstraints sql
      = parseEnumConstraints (skipn (oi + 1) (normalize sql))
  | Some content =>
      exists cs,
        parseEnumConstraints
          (skipn (oi + length content + 2) (normalize sql)) = Some cs /\
        parseEnumConstraints sql
        = Some (pushConstraint [] (parseInConstraint content) ++ cs)
  end.
Proof.
  intros H1 H2.
  destruct (scanLoop_progress _ _ _ _ H1 H2) as [_ Hlt].
  assert (Hrest : forall si, 1 <= si ->
            scanLoop (length (normalize sql)) (normalize sql) si []
            = parseEnumConstraints (skipn si (normalize sql))).
  { intros si Hsi. rewrite <- parseEnumConstraints_from.
    apply scanLoop_enough_fuel. lia. }
  assert (Hstep : parseEnumConstraints sql
            = match extractParenthesesContent (normalize sql) oi with
              | None | Some [] =>
                  scanLoop (length (normalize sql)) (normalize sql) (oi + 1) []
              | Some content =>
                  scanLoop (length (normalize sql)) (normalize sql)
                    (oi + length content + 2)
                    (pushConstraint [] (parseInConstraint content))
              end).
  { unfold parseEnumConstraints. cbn [scanLoop]. rewrite H1, H2. reflexivity. }
  rewrite Hstep. clear Hstep.
  destruct (extractParenthesesContent (normalize sql) oi) as [[|d content]|] eqn:E.
  - apply Hrest. lia.
  - assert (Hend : oi + length (d :: content) + 2 <= length (normalize sql)).
    { apply extractParenthesesContent_Some in E as (rest & Erest);
        [|apply (indexOf_spec _ _ _ _ H2)].
      apply (f_equal (@length ascii)) in Erest.
      rewrite length_skipn in Erest. cbn [length] in Erest.
      rewrite length_app in Erest. cbn [length] in *. lia. }
    rewrite scanLoop_acc, Hrest by lia.
    destruct (parseEnumConstraints_total
                (skipn (oi + length (d :: content) + 2) (normalize sql)))
      as [cs Hcs].
    exists cs. rewrite Hcs. split; reflexivity.
  - apply Hrest. lia.
Qed.

Lemma X9_scan_in_text_order_witness :
  exists cs,
    parseEnumConstraints
      (skipn (29 + length (L "a in ('x')") + 2)
         (normalize (L "CREATE TABLE t (a TEXT CHECK (a IN ('x')), b TEXT CHECK (b IN ('y')))")))
    = Some cs /\
    parseEnumConstraints
      (L "CREATE TABLE t (a TEXT CHECK (a IN ('x')), b TEXT CHECK (b IN ('y')))")
    = Some (pushConstraint [] (parseInConstraint (L "a in ('x')")) ++ cs).
Proof.
  exact (X9_scan_in_text_order
           (L "CREATE TABLE t (a TEXT CHECK (a IN ('x')), b TEXT CHECK (b IN ('y')))")
           23 29 eq_refl eq_refl).
Defined.

(** *** Texts without the keyword *)

Lemma startsWith_replaceWs pat : all (fun c => negb (isSpace c)) pat ->
  forall s, startsWith pat (replaceWs false s) = true -> startsWith pat s = true.
Proof.
  induction 1 as [|p pat Hp _ IH]; intros s H; [reflexivity|].
  destruct s as [|c s]; [discriminate|].
  cbn [replaceWs] in H. destruct (isSpace c) eqn:Ec.
  - cbn [startsWith] in H. apply andb_prop in H as [H _].
    apply Ascii.eqb_eq in H. subst p. discriminate.
  - cbn [startsWith] in H |- *. apply andb_prop in H as [-> H].
    apply IH, H.
Qed.

Lemma startsWith_replaceWs_true pat : all (fun c => negb (isSpace c)) pat ->
  pat <> [] ->
  forall s, startsWith pat (replaceWs true s) = true -> occursIn pat s.
Proof.
  intros Hpat Hne. induction s as [|c s IH]; intros H.
  - destruct pat; [contradiction|discriminate].
  - cbn [replaceWs] in H. destruct (isSpace c) eqn:Ec.
    + destruct (IH H) as [n Hn]. exists (S n). exact Hn.
    + exists 0. apply (startsWith_replaceWs pat Hpat (c :: s)).
      cbn [replaceWs]. rewrite Ec. exact H.
Qed.

(** What stands in the text after the replacement of the white space,
    and has no white space in it, stood in the text before. *)
Lemma occursIn_replaceWs pat : all (fun c => negb (isSpace c)) pat ->
  pat <> [] ->
  forall s b, occursIn pat (replaceWs b s) -> occursIn pat s.
Proof.
  intros Hpat Hne s b [j Hj]. revert b j Hj.
  induction s as [|c s IH]; intros b j Hj.
  - cbn [replaceWs] in Hj. rewrite skipn_nil in Hj.
    destruct pat; [contradiction|discriminate].
  - assert (Htail : forall b' j', startsWith pat (skipn j' (replaceWs b' s)) = true ->
                                  occursIn pat (c :: s)).
    { intros b' j' H. destruct (IH b' j' H) as [n Hn]. exists (S n). exact Hn. }
    destruct j as [|j].
    + cbn [skipn] in Hj. destruct b.
      * apply (startsWith_replaceWs_true pat Hpat Hne), Hj.
      * exists 0. apply (startsWith_replaceWs pat Hpat), Hj.
    + cbn [replaceWs] in Hj. destruct (isSpace c); [destruct b|].
      * apply (Htail true (S j)), Hj.
      * apply (Htail true j), Hj.
      * apply (Htail false j), Hj.
Qed.

Lemma normalize_swap sql : normalize sql = replaceAllWs (toLowerCase sql).
Proof. unfold normalize, replaceAllWs. symmetry. apply replaceWs_toLowerCase. Qed.

Lemma indexOf_check_none sql si :
  ~ occursIn (L "check") (toLowerCase sql) ->
  indexOf (L "check") (normalize sql) si = None.
Proof.
  intros Hno. destruct (indexOf (L "check") (normalize sql) si) as [j|] eqn:E;
    [|reflexivity].
  exfalso. apply Hno. apply indexOf_spec in E as (_ & Hat & _).
  rewrite normalize_swap in Hat.
  apply (occursIn_replaceWs (L "check")) with (b := false).
  - vm_compute. repeat constructor.
  - discriminate.
  - exists j. exact Hat.
Qed.

Lemma replaceWs_no_paren s : forall b,
  ~ In "("%char s -> ~ In "("%char (replaceWs b s).
Proof.
  induction s as [|c s IH]; intros b Hs; [exact Hs|].
  assert (Hs' : ~ In "("%char s) by (intros H; apply Hs; right; exact H).
  cbn [replaceWs]. destruct (isSpace c); [destruct b|].
  - apply IH, Hs'.
  - intros [H|H]; [discriminate|exact (IH true Hs' H)].
  - intros [H|H]; [apply Hs; left; exact H|exact (IH false Hs' H)].
Qed.

Lemma normalize_no_paren sql :
  ~ In "("%char sql -> ~ In "("%char (normalize sql).
Proof.
  intros Hs H. unfold normalize, toLowerCase in H.
  apply in_map_iff in H as (c & Hc & Hin).
  apply toLowerChar_lparen in Hc. subst c.
  exact (replaceWs_no_paren sql false Hs Hin).
Qed.

Lemma indexOf_paren_none sql si :
  ~ In "("%char sql -> indexOf (L "(") (normalize sql) si = None.
Proof.
  intros Hno. destruct (indexOf (L "(") (normalize sql) si) as [j|] eqn:E;
    [|reflexivity].
  exfalso. apply (normalize_no_paren sql Hno).
  apply indexOf_spec in E as (_ & Hat & _).
  destruct (skipn j (normalize sql)) as [|c s] eqn:Es; [discriminate|].
  unfold L in Hat. cbn [list_ascii_of_string startsWith] in Hat.
  rewrite andb_true_r in Hat. apply Ascii.eqb_eq in Hat. subst c.
  rewrite <- (firstn_skipn j (normalize sql)), Es.
  apply in_or_app. right. left. reflexivity.
Qed.

Lemma parseEnumConstraints_no_check sql :
  ~ occursIn (L "check") (toLowerCase sql) -> parseEnumConstraints sql = Some [].
Proof.
  intros Hno. unfold parseEnumConstraints. cbn [scanLoop].
  rewrite indexOf_check_none by exact Hno. reflexivity.
Qed.

(** X10: a text in which the five letters of [check] stand nowhere, in
    whatever case, and a text without an opening parenthesis, give no
    constraint; so does the empty text. *)
Theorem X10_nothing_to_find (sql : str) :
  ~ occursIn (L "check") (toLowerCase sql) \/ ~ In "("%char sql ->
  parseEnumConstraints sql = Some [].
Proof.
  intros [Hno|Hno]; [apply parseEnumConstraints_no_check, Hno|].
  unfold parseEnumConstraints. cbn [scanLoop].
  destruct (indexOf (L "check") (normalize sql) 0); [|reflexivity].
  rewrite indexOf_paren_none by exact Hno. reflexivity.
Qed.

Lemma indexOfAt_none pat s : forall i,
  indexOfAt pat s i = None -> forall n, startsWith pat (skipn n s) = false.
Proof.
  induction s as [|c s IH]; intros i H n; cbn [indexOfAt] in H.
  - rewrite skipn_nil. destruct (startsWith pat []); [discriminate|reflexivity].
  - destruct (startsWith pat (c :: s)) eqn:E; [discriminate|].
    destruct n as [|n]; [exact E|]. exact (IH _ H n).
Qed.

Lemma indexOf_none_occursIn pat s : indexOf pat s 0 = None -> ~ occursIn pat s.
Proof.
  intros H [n Hn]. unfold indexOf in H. cbn [skipn] in H.
  rewrite (indexOfAt_none pat s 0 H n) in Hn. discriminate.
Qed.

Lemma X10_nothing_to_find_witness :
  parseEnumConstraints (L "CREATE TABLE t (id INTEGER PRIMARY KEY, Chk TEXT)")
  = Some [] /\
  parseEnumConstraints (L "check status in 'a'") = Some [].
Proof.
  split.
  - apply (X10_nothing_to_find
             (L "CREATE TABLE t (id INTEGER PRIMARY KEY, Chk TEXT)")).
    left. apply indexOf_none_occursIn. reflexivity.
  - apply (X10_nothing_to_find (L "check status in 'a'")).
    right. vm_compute. intros H. decompose [or] H; discriminate || assumption.
Defined.

(** *** White space *)

Lemma replaceWs_true_blank w : blank w -> forall s,
  replaceWs true (w ++ s) = replaceWs true s.
Proof.
  induction 1 as [|c w Hc _ IH]; intros s; [reflexivity|].
  cbn [app replaceWs]. rewrite Hc. apply IH.
Qed.

(** A run of white space is replaced by one space, or by nothing after
    white space, whatever the run is. *)
Lemma replaceWs_run w s b :
  blank w -> w <> [] ->
  replaceWs b (w ++ s)
  = if b then replaceWs true s else " "%char :: replaceWs true s.
Proof.
  intros Hw Hne. destruct w as [|c w]; [contradiction|].
  inversion Hw as [|? ? Hc Hw']; subst.
  cbn [app replaceWs]. rewrite Hc, (replaceWs_true_blank w Hw').
  reflexivity.
Qed.

Lemma replaceWs_runs a w1 w2 s :
  blank w1 -> w1 <> [] -> blank w2 -> w2 <> [] ->
  forall b, replaceWs b (a ++ w1 ++ s) = replaceWs b (a ++ w2 ++ s).
Proof.
  intros H1 Hne1 H2 Hne2. induction a as [|c a IH]; intros b.
  - cbn [app]. rewrite !replaceWs_run by assumption. reflexivity.
  - cbn [app replaceWs]. destruct (isSpace c); [destruct b|];
      rewrite IH; reflexivity.
Qed.

Lemma parseEnumConstraints_runs a w1 w2 s :
  blank w1 -> w1 <> [] -> blank w2 -> w2 <> [] ->
  parseEnumConstraints (a ++ w1 ++ s) = parseEnumConstraints (a ++ w2 ++ s).
Proof.
  intros H1 Hne1 H2 Hne2. unfold parseEnumConstraints, normalize, replaceAllWs.
  rewrite (replaceWs_runs a w1 w2 s) by assumption. reflexivity.
Qed.

Lemma parseEnumConstraints_plainSpaces sql cs :
  parseEnumConstraints sql = Some cs ->
  Forall (fun c => plainSpaces (column c) /\ Forall plainSpaces (values c)) cs.
Proof.
  unfold parseEnumConstraints. intros H.
  assert (Hn : plainSpaces (normalize sql)).
  { unfold normalize, toLowerCase, plainSpaces. apply Forall_map.
    eapply List.Forall_impl; [|apply (replaceWs_spaces sql false)].
    intros c Hc Hs. cbn beta in *. rewrite isSpace_toLowerChar in Hs.
    rewrite (toLowerChar_space c Hs). apply Hc, Hs. }
  apply (scanLoop_invariant (fun c => isSpace c = true -> c = " "%char)
           (fun c => plainSpaces (column c) /\ Forall plainSpaces (values c))
           (normalize sql) Hn) in H; [exact H| |constructor].
  intros content c Hcontent Hc.
  exact (parseInConstraint_Forall _ content c Hcontent Hc).
Qed.

(** X11: the parser does not tell one run of white space from another: a
    run of white space anywhere in the DDL text, also inside a quoted
    literal, can be replaced by any other run without a change of the
    result; the text it has normalized gives the same result again; and the
    column names and values it returns hold no white space but the space, so
    that a tab or a line break inside a quoted literal comes back as a
    space. *)
Theorem X11_white_space_runs :
  (forall a w1 w2 s,
     blank w1 -> w1 <> [] -> blank w2 -> w2 <> [] ->
     parseEnumConstraints (a ++ w1 ++ s) = parseEnumConstraints (a ++ w2 ++ s)) /\
  (forall sql, parseEnumConstraints (normalize sql) = parseEnumConstraints sql) /\
  (forall sql cs, parseEnumConstraints sql = Some cs ->
     Forall (fun c => plainSpaces (column c) /\ Forall plainSpaces (values c)) cs).
Proof.
  split; [exact parseEnumConstraints_runs|]. split.
  - intros sql. unfold parseEnumConstraints. rewrite normalize_idem. reflexivity.
  - exact parseEnumConstraints_plainSpaces.
Qed.

Lemma X11_white_space_runs_witness :
  parseEnumConstraints
    (L "CREATE TABLE t (k TEXT CHECK (k IN ('a" ++ ["009"%char; "010"%char] ++ L "b')))")
  = parseEnumConstraints
      (L "CREATE TABLE t (k TEXT CHECK (k IN ('a" ++ L " " ++ L "b')))").
Proof.
  apply (proj1 X11_white_space_runs
           (L "CREATE TABLE t (k TEXT CHECK (k IN ('a") ["009"%char; "010"%char]
           (L " ") (L "b')))")).
  all: vm_compute; repeat constructor; discriminate.
Defined.

(** ** Further properties of the registry builder and of the enricher *)

Lemma split_at_first (d : ascii) a : forall a' b b',
  ~ In d a -> ~ In d a' -> a ++ d :: b = a' ++ d :: b' -> a = a' /\ b = b'.
Proof.
  induction a as [|x a IH]; intros [|x' a'] b b' Ha Ha' E; cbn [app] in E.
  - injection E as <-. auto.
  - injection E as <- _. exfalso. apply Ha'. left. reflexivity.
  - injection E as -> _. exfalso. apply Ha. left. reflexivity.
  - injection E as <- E.
    destruct (IH a' b b') as [<- <-]; auto.
    + intros H. apply Ha. right. exact H.
    + intros H. apply Ha'. right. exact H.
Qed.

Lemma split_at_last (d : ascii) a a' b b' :
  ~ In d b -> ~ In d b' -> a ++ d :: b = a' ++ d :: b' -> a = a' /\ b = b'.
Proof.
  intros Hb Hb' E. apply (f_equal (@rev ascii)) in E.
  rewrite !rev_app_distr in E. cbn [rev] in E. rewrite <- !app_assoc in E.
  cbn [app] in E.
  apply split_at_first in E as [E1 E2];
    [|rewrite <- in_rev; assumption|rewrite <- in_rev; assumption].
  apply (f_equal (@rev ascii)) in E1, E2. rewrite !rev_involutive in E1, E2.
  auto.
Qed.

Lemma isIdentifier_no_dot ident : isIdentifier ident -> ~ In "."%char ident.
Proof.
  intros (c & w & -> & Hc & Hw) [Ec|Hin].
  - subst c. vm_compute in Hc. discriminate.
  - pose proof (proj1 (List.Forall_forall _ _) Hw "."%char Hin) as H.
    vm_compute in H. discriminate.
Qed.

(** X12: the key the registry builder makes for a constraint tells the
    name of the table and the column of the constraint: the column is an
    identifier and has no dot, so two constraints get the same key only
    when they are on the same column of tables of the same name, whatever
    dots the names of the tables have. *)
Theorem X12_registry_keys_apart (span1 span2 name1 name2 : str)
    (c1 c2 : EnumConstraint) :
  parseInConstraint span1 = Some c1 -> parseInConstraint span2 = Some c2 ->
  name1 ++ L "." ++ column c1 = name2 ++ L "." ++ column c2 ->
  name1 = name2 /\ column c1 = column c2.
Proof.
  intros H1 H2 E.
  apply parseInConstraint_sound in H1 as (? & ? & ? & ? & ? & _ & _ & Hid1 & _).
  apply parseInConstraint_sound in H2 as (? & ? & ? & ? & ? & _ & _ & Hid2 & _).
  apply (split_at_last "."%char); [| |exact E];
    apply isIdentifier_no_dot; assumption.
Qed.

Lemma X12_registry_keys_apart_witness :
  L "main.users" = L "main.users" /\ L "status" = L "status".
Proof.
  apply (X12_registry_keys_apart (L "status in ('a')") (L " status  in ('b','c')")
           (L "main.users") (L "main.users")
           (mkEnumConstraint (L "status") [L "a"])
           (mkEnumConstraint (L "status") [L "b"; L "c"]));
    reflexivity.
Defined.

(** *** A database without the keyword *)

Lemma introspectRows_no_check rows : forall enums,
  Forall (fun row => forall sql, row_sql row = Some sql ->
            ~ occursIn (L "check") (toLowerCase sql)) rows ->
  introspectRows enums rows = Some enums.
Proof.
  induction rows as [|row rows IH]; intros enums H; [reflexivity|].
  inversion H as [|? ? Hrow Hrows]; subst.
  cbn [introspectRows]. unfold introspectRow.
  destruct (row_sql row) as [[|d sql]|] eqn:E; try (apply IH; exact Hrows).
  rewrite (parseEnumConstraints_no_check (d :: sql) (Hrow _ eq_refl)).
  cbn [fold_left]. apply IH. exact Hrows.
Qed.

(** X13: when the five letters of [check] stand in no table definition of
    [sqlite_master], in whatever case, the registry stays as it was
    created, and on table descriptors of the declared types the
    introspection returns with [enumValues] null for every column of every
    table. *)
Theorem X13_no_check_all_null (rows : list Row) (rawTables : value) (h : heap) :
  Forall (fun row => forall sql, row_sql row = Some sql ->
            ~ occursIn (L "check") (toLowerCase sql)) rows ->
  isTables h rawTables ->
  introspectCheckConstraintEnums rows = Some EnumCollection.empty /\
  exists out h',
    introspect rawTables rows h = Some (mkDatabaseMetadata out, h') /\
    columnsSatisfy h' out (fun v => v = VNull).
Proof.
  intros Hrows Hwf.
  assert (E : introspectCheckConstraintEnums rows = Some EnumCollection.empty)
    by (apply introspectRows_no_check, Hrows).
  split; [exact E|]. unfold introspect. rewrite E.
  destruct (createDatabaseMetadata_run EnumCollection.empty h rawTables Hwf)
    as (out & new & Hrun & Hrel).
  exists out, (h ++ new). split; [exact Hrun|].
  apply (enrichedTables_columns EnumCollection.empty h _ rawTables);
    [|exact Hrel].
  intros key. unfold EnumCollection.get, EnumCollection.empty.
  rewrite lookup_empty. reflexivity.
Qed.

Lemma X13_no_check_all_null_witness :
  introspectCheckConstraintEnums
    [mkRow (L "users") (Some (L "CREATE TABLE users (id INTEGER PRIMARY KEY, status TEXT)"));
     mkRow (L "sqlite_sequence") None]
  = Some EnumCollection.empty /\
  exists out h',
    introspect (VRef 4)
      [mkRow (L "users") (Some (L "CREATE TABLE users (id INTEGER PRIMARY KEY, status TEXT)"));
       mkRow (L "sqlite_sequence") None]
      exampleHeap
    = Some (mkDatabaseMetadata out, h') /\
    columnsSatisfy h' out (fun v => v = VNull).
Proof.
  apply (X13_no_check_all_null
           [mkRow (L "users") (Some (L "CREATE TABLE users (id INTEGER PRIMARY KEY, status TEXT)"));
            mkRow (L "sqlite_sequence") None]
           (VRef 4) exampleHeap).
  - constructor; [|constructor; [|constructor]].
    + intros sql [= <-]. apply indexOf_none_occursIn. reflexivity.
    + intros sql. discriminate.
  - exact exampleHeap_isTables.
Defined.

(** *** The sorted copy *)

Lemma sort_permuted l l' : Permutation l l' -> sort l = sort l'.
Proof.
  intros Hp. symmetry. apply sort_unique; [|apply sort_sorted].
  rewrite Hp. apply sort_perm.
Qed.

Lemma sort_idem l : sort (sort l) = sort l.
Proof. symmetry. apply sort_permuted, sort_perm. Qed.

(** X14: the list of values stored for a constraint depends on the values
    and not on the order in which the DDL text lists them: two constraints
    on the same column whose values are the same up to their order are
    stored as the same entry; sorting what is sorted changes nothing; and
    no value is dropped or merged, equal values included. *)
Theorem X14_stored_order_free :
  (forall (name : str) (enums : gmap str (list str)) (c c' : EnumConstraint),
     column c = column c' -> Permutation (values c) (values c') ->
     storeConstraint name enums c = storeConstraint name enums c') /\
  (forall l, sort (sort l) = sort l) /\
  (forall l, length (sort l) = length l).
Proof.
  split; [|split].
  - intros name enums c c' Hc Hv. unfold storeConstraint.
    rewrite Hc, (sort_permuted _ _ Hv). reflexivity.
  - exact sort_idem.
  - intros l. symmetry. apply Permutation_length, sort_perm.
Qed.

Lemma X14_stored_order_free_witness :
  storeConstraint (L "t") EnumCollection.empty
    (mkEnumConstraint (L "k") [L "b"; L "a"; L "b"])
  = storeConstraint (L "t") EnumCollection.empty
      (mkEnumConstraint (L "k") [L "a"; L "b"; L "b"]).
Proof.
  apply (proj1 X14_stored_order_free (L "t") EnumCollection.empty
           (mkEnumConstraint (L "k") [L "b"; L "a"; L "b"])
           (mkEnumConstraint (L "k") [L "a"; L "b"; L "b"]) eq_refl).
  cbn [values]. apply perm_swap.
Defined.

(** *** The result of the enricher as an input *)

Lemma enrichedColumn_isColumn enums tname h h' c c' :
  enrichedColumn enums tname h h' c c' -> isColumn h' c'.
Proof.
  intros (l & o & cname & l' & o' & _ & _ & Hn & -> & _ & Ho' & _ & Hsame).
  exists l', o', cname. split; [reflexivity|]. split; [exact Ho'|].
  rewrite (Hsame "name"%string) by discriminate. exact Hn.
Qed.

Lemma enrichedTable_isTable enums h h' t t' :
  enrichedTable enums h h' t t' -> isTable h' t'.
Proof.
  intros (l & o & tname & cl & cols & l' & o' & cl' & cols'
          & _ & _ & Hn & _ & _ & -> & _ & Ho' & Hcl' & Hsame & _ & Hcols'
          & Hcols).
  exists l', o', tname, cl', cols'. split; [reflexivity|].
  split; [exact Ho'|]. split.
  { rewrite (Hsame "name"%string) by discriminate. exact Hn. }
  split; [exact Hcl'|]. split; [exact Hcols'|].
  apply (Forall2_right _ _ _ _ Hcols).
  intros c c'. apply enrichedColumn_isColumn.
Qed.

(** X15: what [createDatabaseMetadata] returns for table descriptors of
    the declared types is again an array of table descriptors of the
    declared types, each with its name and an array of column descriptors
    with their names: the result can be given to it again. *)
Theorem X15_result_is_an_input
    (enums : gmap str (list str)) (h : heap) (rawTables : value) :
  isTables h rawTables ->
  exists out h',
    createDatabaseMetadata enums rawTables h
    = Some (mkDatabaseMetadata out, h') /\
    isTables h' out /\
    exists out2 h'',
      createDatabaseMetadata enums out h' = Some (mkDatabaseMetadata out2, h'') /\
      enrichedTables enums h' h'' out out2.
Proof.
  intros Hwf.
  destruct (createDatabaseMetadata_run enums h rawTables Hwf)
    as (out & new & Hrun & Hrel).
  assert (Hout : isTables (h ++ new) out).
  { destruct Hrel as (l & ts & l' & ts' & _ & _ & -> & _ & Hl' & Hts).
    exists l', ts'. split; [reflexivity|]. split; [exact Hl'|].
    apply (Forall2_right _ _ _ _ Hts).
    intros t t'. apply enrichedTable_isTable. }
  exists out, (h ++ new). split; [exact Hrun|]. split; [exact Hout|].
  destruct (createDatabaseMetadata_run enums (h ++ new) out Hout)
    as (out2 & new2 & Hrun2 & Hrel2).
  exists out2, ((h ++ new) ++ new2). split; assumption.
Qed.

Lemma X15_result_is_an_input_witness :
  exists out h',
    createDatabaseMetadata {[ L "users.status" := [L "a"; L "b"] ]}
      (VRef 4) exampleHeap
    = Some (mkDatabaseMetadata out, h') /\
    isTables h' out /\
    exists out2 h'',
      createDatabaseMetadata {[ L "users.status" := [L "a"; L "b"] ]} out h'
      = Some (mkDatabaseMetadata out2, h'') /\
      enrichedTables {[ L "users.status" := [L "a"; L "b"] ]} h' h'' out out2.
Proof.
  apply (X15_result_is_an_input _ exampleHeap (VRef 4)).
  exact exampleHeap_isTables.
Defined.
